(** * The property-list decoder of [parse_music_library.py]

    A shallow embedding of [parse_plist_value], the recursive walk that
    turns an ElementTree element of an iTunes [Library.xml] into nested
    Python values, together with the properties the specification states
    about it. *)

From Stdlib Require Import ZArith String Ascii Bool Arith Lia List.
Import ListNotations.
Local Open Scope string_scope.
Local Open Scope list_scope.
Set Warnings "-register-all".

(** ** Data model *)

(** An [xml.etree.ElementTree.Element] as the decoder reads it: [element.tag],
    [element.text] (a [str] or [None]) and the child elements that
    [list(element)] and [for child in element] enumerate. Characters are
    code points in the range 0..255. *)
Inductive Element : Type :=
| Elem (tag : string) (text : option string) (children : list Element).

Definition tag (e : Element) : string :=
  match e with Elem t _ _ => t end.
Definition text (e : Element) : option string :=
  match e with Elem _ x _ => x end.
Definition children (e : Element) : list Element :=
  match e with Elem _ _ cs => cs end.

(** A key of the [result] dict is whatever [key_elem.text] holds: a [str]
    or [None]. *)
Definition pykey : Type := option string.

(** The Python values [parse_plist_value] can return. A [dict] keeps its
    items in insertion order, so it is an association list. *)
Inductive value : Type :=
| PNone
| PStr (s : string)
| PInt (n : Z)
| PBool (b : bool)
| PDict (items : list (pykey * value))
| PList (elems : list value).

(** The exceptions of the model. [int] raises [ValueError] on a string it
    cannot read and [TypeError] on [None]; a subscript out of range raises
    [IndexError]. *)
Inductive exn : Type := ValueError | TypeError | IndexError.

(** The result of running a piece of the program with a bounded number of
    nested calls or loop iterations. *)
Inductive outcome (A : Type) : Type :=
| Return (a : A)
| Raise (e : exn)
| OutOfFuel.
Arguments Return {A} a.
Arguments Raise {A} e.
Arguments OutOfFuel {A}.

Definition bind {A B : Type} (m : outcome A) (k : A -> outcome B) : outcome B :=
  match m with
  | Return a => k a
  | Raise e => Raise e
  | OutOfFuel => OutOfFuel
  end.

Declare Scope py_scope.
Notation "x <- m ;; k" := (bind m (fun x => k))
  (at level 61, m at next level, right associativity) : py_scope.
Local Open Scope py_scope.

(** ** Python dictionaries *)

Definition key_eqb (a b : pykey) : bool :=
  match a, b with
  | None, None => true
  | Some x, Some y => String.eqb x y
  | _, _ => false
  end.

Section Dict.
Variable V : Type.

(** [d[k] = v]: an existing key keeps its position and takes the new
    value, a new key goes to the end. *)
Fixpoint dict_set (d : list (pykey * V)) (k : pykey) (v : V) : list (pykey * V) :=
  match d with
  | [] => [(k, v)]
  | (k', v') :: d' =>
      if key_eqb k' k then (k', v) :: d' else (k', v') :: dict_set d' k v
  end.

(** [d.get(k)] *)
Fixpoint dict_get (d : list (pykey * V)) (k : pykey) : option V :=
  match d with
  | [] => None
  | (k', v') :: d' => if key_eqb k' k then Some v' else dict_get d' k
  end.

(** The dict produced by the assignments [d[k] = v] run in order over a
    list of pairs, starting from [d]. *)
Definition dict_update (d : list (pykey * V)) (kvs : list (pykey * V)) : list (pykey * V) :=
  fold_left (fun acc kv => dict_set acc (fst kv) (snd kv)) kvs d.

Definition dict_keys (d : list (pykey * V)) : list pykey := map fst d.
End Dict.
Arguments dict_set {V} d k v.
Arguments dict_get {V} d k.
Arguments dict_update {V} d kvs.
Arguments dict_keys {V} d.

(** The keys of a list in the order each is first seen. *)
Fixpoint first_seen (ks : list pykey) : list pykey :=
  match ks with
  | [] => []
  | k :: ks' => k :: filter (fun k' => negb (key_eqb k k')) (first_seen ks')
  end.

(** The value paired with the last occurrence of [k]. *)
Fixpoint last_value {V : Type} (kvs : list (pykey * V)) (k : pykey) : option V :=
  match kvs with
  | [] => None
  | (k', v) :: kvs' =>
      match last_value kvs' k with
      | Some w => Some w
      | None => if key_eqb k' k then Some v else None
      end
  end.

(** ** The builtin [int] on a string *)

(** The characters [int] skips around the number: ASCII white space, and
    U+0085 and U+00A0, which it first maps to a space. *)
Definition int_space (c : ascii) : bool :=
  let n := nat_of_ascii c in
  (((9 <=? n) && (n <=? 13)) || (n =? 32) || (n =? 133) || (n =? 160))%nat.

Definition digit_of (c : ascii) : option Z :=
  let n := nat_of_ascii c in
  if ((48 <=? n) && (n <=? 57))%nat then Some (Z.of_nat (n - 48)) else None.

Fixpoint lstrip (s : list ascii) : list ascii :=
  match s with
  | [] => []
  | c :: s' => if int_space c then lstrip s' else s
  end.

Definition rstrip (s : list ascii) : list ascii := rev (lstrip (rev s)).

(** Decimal digits, single underscores allowed between two digits.
    [after_digit] tells whether the previous character was a digit;
    the result carries the number read and how many digits it had. *)
Fixpoint scan_digits (after_digit : bool) (s : list ascii) (acc : Z) (count : nat)
  : option (Z * nat) :=
  match s with
  | [] => if after_digit then Some (acc, count) else None
  | c :: s' =>
      match digit_of c with
      | Some d => scan_digits true s' (10 * acc + d) (S count)
      | None =>
          if Ascii.eqb c "_" && after_digit then scan_digits false s' acc count
          else None
      end
  end.

(** [sys.int_info.default_max_str_digits] *)
Definition int_max_str_digits : nat := 4300.

(** The number in a string stripped of surrounding white space: an
    optional sign, then the digits, at most [int_max_str_digits] of them. *)
Definition int_of_numeral (body : list ascii) : option Z :=
  let signed :=
    match body with
    | c :: r =>
        if Ascii.eqb c "-" then (true, r)
        else if Ascii.eqb c "+" then (false, r)
        else (false, body)
    | [] => (false, body)
    end in
  match scan_digits false (snd signed) 0 0 with
  | Some (n, count) =>
      if (int_max_str_digits <? count)%nat then None
      else Some (if fst signed then (- n)%Z else n)
  | None => None
  end.

(** [int(s)] for a string [s]: [Some n] when it returns [n], [None] when
    it raises [ValueError]. *)
Definition py_int (s : string) : option Z :=
  int_of_numeral (rstrip (lstrip (list_ascii_of_string s))).

(** ** The decoder *)

(** [x or ''] for [x] a [str] or [None] *)
Definition or_empty (x : option string) : string :=
  match x with
  | Some s => if s =? EmptyString then EmptyString else s
  | None => EmptyString
  end.

(** The truth value of [x] for [x] a [str] or [None] *)
Definition truthy (x : option string) : bool :=
  match x with
  | Some s => negb (s =? EmptyString)
  | None => false
  end.

(** [int(x)] for [x] a [str] or [None] *)
Definition int_of_text (x : option string) : outcome value :=
  match x with
  | Some s =>
      match py_int s with
      | Some n => Return (PInt n)
      | None => Raise ValueError
      end
  | None => Raise TypeError
  end.

(** [l[i]] *)
Definition subscript {A : Type} (l : list A) (i : nat) : outcome A :=
  match nth_error l i with
  | Some a => Return a
  | None => Raise IndexError
  end.

Section Body.
(** The recursive call [parse_plist_value(...)] *)
Variable rec : Element -> outcome value.

(** The [while i < len(children)] loop of the [dict] branch, run for at
    most [steps] iterations from cursor [i] with [result] built so far. *)
Fixpoint dict_loop (children : list Element) (steps : nat) (i : nat)
    (result : list (pykey * value)) : outcome value :=
  if (i <? length children)%nat then
    match steps with
    | O => OutOfFuel
    | S steps' =>
        key_elem <- subscript children i ;;
        if (tag key_elem =? "key") && (i + 1 <? length children)%nat then
          let key := text key_elem in
          value_elem <- subscript children (i + 1) ;;
          v <- rec value_elem ;;
          dict_loop children steps' (i + 2) (dict_set result key v)
        else
          dict_loop children steps' (i + 1) result
    end
  else Return (PDict result).

(** [[parse_plist_value(child) for child in element]] *)
Fixpoint list_comp (l : list Element) : outcome (list value) :=
  match l with
  | [] => Return []
  | child :: l' =>
      v <- rec child ;;
      vs <- list_comp l' ;;
      Return (v :: vs)
  end.

Definition parse_body (element : Element) : outcome value :=
  let tag := tag element in
  if tag =? "string" then Return (PStr (or_empty (text element)))
  else if tag =? "integer" then
    if truthy (text element) then int_of_text (text element)
    else Return (PInt 0)
  else if tag =? "true" then Return (PBool true)
  else if tag =? "false" then Return (PBool false)
  else if tag =? "date" then Return (PStr (or_empty (text element)))
  else if tag =? "dict" then
    let children := children element in
    dict_loop children (length children) 0 []
  else if tag =? "array" then
    vs <- list_comp (children element) ;;
    Return (PList vs)
  else Return PNone.
End Body.

(** [parse_plist_value(element)], with at most [fuel] nested calls. *)
Fixpoint parse_plist_value (fuel : nat) (element : Element) : outcome value :=
  match fuel with
  | O => OutOfFuel
  | S fuel' => parse_body (parse_plist_value fuel') element
  end.

(** The nesting depth of an element: the number of nested calls its
    decoding can need. *)
Fixpoint height (e : Element) : nat :=
  match e with
  | Elem _ _ cs => S (list_max (map height cs))
  end.

(** [decode] of the specification: the decoder run with as many nested
    calls as the element is deep. *)
Definition decode (e : Element) : outcome value :=
  parse_plist_value (height e) e.

(** ** The record-pairing walk, as the specification words it *)

(** A cursor walks over the children [cs] of a [dict] node; [dec] decodes a
    child. [cursor_walk dec cs i r o]: from cursor [i] with the record [r]
    built so far, the walk ends with [o]. *)
Inductive cursor_walk (dec : Element -> outcome value) (cs : list Element)
  : nat -> list (pykey * value) -> outcome value -> Prop :=
| walk_end i r :
    length cs <= i ->
    cursor_walk dec cs i r (Return (PDict r))
| walk_pair i r k v x o :
    nth_error cs i = Some k -> tag k = "key" ->
    nth_error cs (i + 1) = Some v ->
    dec v = Return x ->
    cursor_walk dec cs (i + 2) (dict_set r (text k) x) o ->
    cursor_walk dec cs i r o
| walk_fail i r k v e :
    nth_error cs i = Some k -> tag k = "key" ->
    nth_error cs (i + 1) = Some v ->
    dec v = Raise e ->
    cursor_walk dec cs i r (Raise e)
| walk_skip i r k o :
    nth_error cs i = Some k ->
    tag k <> "key" \/ nth_error cs (i + 1) = None ->
    cursor_walk dec cs (i + 1) r o ->
    cursor_walk dec cs i r o.

(** The same walk read off the list of remaining children. *)
Fixpoint walk_list (rec : Element -> outcome value) (rest : list Element)
    (result : list (pykey * value)) : outcome value :=
  match rest with
  | [] => Return (PDict result)
  | key_elem :: rest1 =>
      match rest1 with
      | [] => Return (PDict result)
      | value_elem :: rest2 =>
          if tag key_elem =? "key" then
            v <- rec value_elem ;;
            walk_list rec rest2 (dict_set result (text key_elem) v)
          else walk_list rec rest1 result
      end
  end.

(** The children of a [dict] node made of key/value sibling pairs. *)
Definition sibling_pairs (ps : list (Element * Element)) : list Element :=
  flat_map (fun p => [fst p; snd p]) ps.

(** The walk over well-formed pairs: every value is decoded and assigned
    under its key's text. *)
Fixpoint decode_pairs (rec : Element -> outcome value)
    (ps : list (Element * Element)) (result : list (pykey * value))
  : outcome (list (pykey * value)) :=
  match ps with
  | [] => Return result
  | p :: ps' =>
      v <- rec (snd p) ;;
      decode_pairs rec ps' (dict_set result (text (fst p)) v)
  end.

(** A pair of siblings that decodes to the entry [kv]: a [key] node whose
    text is the entry's key, then a node that decodes to the entry's
    value. *)
Definition pair_decodes (dec : Element -> outcome value)
    (p : Element * Element) (kv : pykey * value) : Prop :=
  tag (fst p) = "key" /\ text (fst p) = fst kv /\ dec (snd p) = Return (snd kv).

(** The children of a [dict] node that the walk decodes as values. *)
Fixpoint paired_values (cs : list Element) : list Element :=
  match cs with
  | [] => []
  | key_elem :: rest1 =>
      match rest1 with
      | [] => []
      | value_elem :: rest2 =>
          if tag key_elem =? "key" then value_elem :: paired_values rest2
          else paired_values rest1
      end
  end.

(** The pairs the cursor of the [dict] loop takes, in order: a [key]
    child that has a next sibling, and that sibling. A child the cursor
    steps over alone is in no pair. *)
Fixpoint cursor_pairs (cs : list Element) : list (Element * Element) :=
  match cs with
  | [] => []
  | key_elem :: rest1 =>
      match rest1 with
      | [] => []
      | value_elem :: rest2 =>
          if tag key_elem =? "key" then (key_elem, value_elem) :: cursor_pairs rest2
          else cursor_pairs rest1
      end
  end.

(** The children on which the decoding of [e] calls itself. *)
Definition decoded_children (e : Element) : list Element :=
  if tag e =? "dict" then paired_values (children e)
  else if tag e =? "array" then children e
  else [].

(** [decoded_in e e']: decoding [e] reaches the node [e']. *)
Inductive decoded_in : Element -> Element -> Prop :=
| decoded_here e : decoded_in e e
| decoded_below e c e' :
    In c (decoded_children e) -> decoded_in c e' -> decoded_in e e'.

(** An [integer] node's text is empty, absent, or a number [int] reads. *)
Definition int_text_ok (t : string) (x : option string) : bool :=
  negb (t =? "integer") ||
  match x with
  | None => true
  | Some s =>
      (s =? EmptyString) ||
      match py_int s with Some _ => true | None => false end
  end.

(** No [integer] node anywhere in the tree has malformed text. *)
Fixpoint ints_ok (e : Element) : bool :=
  match e with
  | Elem t x cs => int_text_ok t x && forallb ints_ok cs
  end.

(** The tags the decoder knows. *)
Definition known_tag (t : string) : bool :=
  (t =? "string") || (t =? "integer") || (t =? "true") || (t =? "false") ||
  (t =? "date") || (t =? "dict") || (t =? "array").

(** ** The data model of the specification and its encoder *)

Fixpoint distinct_keys (ks : list pykey) : bool :=
  match ks with
  | [] => true
  | k :: ks' => negb (existsb (key_eqb k) ks') && distinct_keys ks'
  end.

Definition is_text_key (k : pykey) : bool :=
  match k with Some _ => true | None => false end.

(** The DecodedValue of the specification: Text, a 64-bit Integer, Boolean,
    a Record with unique Text keys, or a List. The absent value is none of
    them. *)
Fixpoint is_decoded_value (v : value) : bool :=
  match v with
  | PNone => false
  | PStr _ => true
  | PInt n => ((- 2 ^ 63 <=? n) && (n <? 2 ^ 63))%Z
  | PBool _ => true
  | PDict items =>
      distinct_keys (map fst items) &&
      forallb (fun kv => is_text_key (fst kv) && is_decoded_value (snd kv)) items
  | PList elems => forallb is_decoded_value elems
  end.

(** Modelled from the spec: the digits the encoder writes for an Integer,
    no part of the repository. The decimal digits of [n >= 0], most
    significant first, pushed in front of [acc]; [fuel] bounds their
    number. *)
Fixpoint digits_of (fuel : nat) (n : Z) (acc : list ascii) : list ascii :=
  match fuel with
  | O => acc
  | S fuel' =>
      let acc' := ascii_of_nat (48 + Z.to_nat (n mod 10)) :: acc in
      if (n <? 10)%Z then acc' else digits_of fuel' (n / 10) acc'
  end.

(** Modelled from the spec: the decimal numeral the encoder writes for an
    Integer, no part of the repository: a minus sign for a negative number,
    then the digits of its absolute value. *)
Definition decimal (n : Z) : string :=
  let ds := digits_of (S (Z.to_nat (Z.log2 (Z.abs n)))) (Z.abs n) [] in
  string_of_list_ascii (if (n <? 0)%Z then "-"%char :: ds else ds).

(** A character that [int] reads as a decimal digit. *)
Definition is_digit (c : ascii) : Prop := exists d, digit_of c = Some d.

(** The number a run of digits denotes, read after [acc]. *)
Definition digits_value (l : list ascii) (acc : Z) : Z :=
  fold_left (fun a c => match digit_of c with
                        | Some d => (10 * a + d)%Z
                        | None => a
                        end) l acc.

(** Modelled from the spec: the inverse encoder from DecodedValue back to
    MarkupNode, which the repository does not contain. Each variant goes to
    the tag that decodes to it, an Integer to its decimal numeral, a Record
    to a [dict] node with one [key] child and one value child per entry in
    entry order, a List to an [array] node with one child per element. The
    absent value is no DecodedValue; it goes to an empty-tagged node. *)
Fixpoint encode (v : value) : Element :=
  match v with
  | PNone => Elem EmptyString None []
  | PStr s => Elem "string" (Some s) []
  | PInt n => Elem "integer" (Some (decimal n)) []
  | PBool b => Elem (if b then "true" else "false") None []
  | PDict items =>
      Elem "dict" None
        (flat_map (fun kv => [Elem "key" (fst kv) []; encode (snd kv)]) items)
  | PList elems => Elem "array" None (map encode elems)
  end.

(** A run that ends, and ends in no other exception than [ValueError]. *)
Definition settled {A : Type} (o : outcome A) : Prop :=
  (exists a, o = Return a) \/ o = Raise ValueError.

(** ** Sample documents *)

Definition key (s : string) : Element := Elem "key" (Some s) [].
Definition str (s : string) : Element := Elem "string" (Some s) [].
Definition int (s : string) : Element := Elem "integer" (Some s) [].

(** [<dict><key>A</key><string>x</string><key>B</key></dict>] *)
Definition dangling_doc : Element :=
  Elem "dict" None [key "A"; str "x"; key "B"].

(** [<dict><key>A</key><string>x</string><key>A</key><string>y</string></dict>] *)
Definition repeated_doc : Element :=
  Elem "dict" None [key "A"; str "x"; key "A"; str "y"].

(** A [key] without text between two ordinary pairs:
    [<dict><key>Name</key><string>So What</string><key/><integer>7</integer>
    <key>Album</key><string>Kind of Blue</string></dict>] *)
Definition absent_key_doc : Element :=
  Elem "dict" None
    [ key "Name"; str "So What"; Elem "key" None []; int "7";
      key "Album"; str "Kind of Blue" ].

(** A record whose array holds a malformed integer, beside an unknown tag
    and a dangling key. *)
Definition broken_doc : Element :=
  Elem "dict" None
    [ key "Tracks"; Elem "array" None [str "a"; int "abc"];
      Elem "data" None []; key "B" ].

(** A small library: a [Tracks] record with one track. *)
Definition library_doc : Element :=
  Elem "dict" None
    [ key "Major Version"; int "1";
      key "Tracks";
      Elem "dict" None
        [ key "1001";
          Elem "dict" None
            [ key "Track ID"; int "1001";
              key "Name"; str "So What";
              key "Play Count"; int "42";
              key "Loved"; Elem "true" None [];
              key "Date Added"; Elem "date" (Some "2020-01-01T00:00:00Z") [];
              key "Tags"; Elem "array" None [str "jazz"; str "modal"] ] ] ].

From Stdlib Require Import Permutation Sorted.

(** ** Slugs

    A text is here a [string] of characters with code points 0 to 255,
    and the model of [slugify] is the function of the source on such
    texts: on them [\w] and [\s] match the classes below, and
    [str.lower()] gives one character for each character, again below
    256. Texts with other characters are outside the model, and what is
    proved of slugs is proved of texts of this range only. It does not all
    hold beyond: [str.lower()] turns the one character U+0130 into [i]
    followed by the combining dot U+0307, which is no word character. *)

(** [lo <= n <= hi] for one of the ranges. *)
Definition in_ranges (n : nat) (ranges : list (nat * nat)) : bool :=
  existsb (fun r => (fst r <=? n)%nat && (n <=? snd r)%nat) ranges.

(** The characters the pattern [\w] matches: letters, digits, numeric
    characters and the underscore. *)
Definition re_word (c : ascii) : bool :=
  in_ranges (nat_of_ascii c)
    [(48, 57); (65, 90); (95, 95); (97, 122); (170, 170); (178, 179);
     (181, 181); (185, 186); (188, 190); (192, 214); (216, 246); (248, 255)].

(** The characters the pattern [\s] matches. *)
Definition re_space (c : ascii) : bool :=
  in_ranges (nat_of_ascii c) [(9, 13); (28, 32); (133, 133); (160, 160)].

Definition is_hyphen (c : ascii) : bool := Ascii.eqb c "-".

(** [re.sub(r'[^\w\s-]', '', text)]: only word characters, white space and
    hyphens stay. *)
Definition drop_punctuation (s : list ascii) : list ascii :=
  filter (fun c => re_word c || re_space c || is_hyphen c) s.

(** [re.sub(r'[-\s]+', '-', text)]: every maximal run of hyphens and white
    space becomes one hyphen. [in_run] tells whether the previous character
    belonged to such a run. *)
Fixpoint join_runs (in_run : bool) (s : list ascii) : list ascii :=
  match s with
  | [] => []
  | c :: s' =>
      if is_hyphen c || re_space c then
        if in_run then join_runs true s' else "-"%char :: join_runs true s'
      else c :: join_runs false s'
  end.

(** One character of [str.lower()], for code points 0 to 255: the ASCII
    capitals and the capitals U+00C0 to U+00DE but for the sign U+00D7
    move up by 32, every other character stays. *)
Definition lower_char (c : ascii) : ascii :=
  let n := nat_of_ascii c in
  if in_ranges n [(65, 90); (192, 214); (216, 222)] then ascii_of_nat (n + 32)
  else c.

Fixpoint lstrip_hyphens (s : list ascii) : list ascii :=
  match s with
  | [] => []
  | c :: s' => if is_hyphen c then lstrip_hyphens s' else s
  end.

(** [s.strip('-')] *)
Definition strip_hyphens (s : list ascii) : list ascii :=
  rev (lstrip_hyphens (rev (lstrip_hyphens s))).

(** [slugify(text)] for a string [text] of code points 0 to 255, the same
    function in [parse_music_library.py], [generate_media.py] and
    [fetch_media.py]. *)
Definition slugify (text : string) : string :=
  if text =? EmptyString then "unknown"
  else
    let text1 := drop_punctuation (list_ascii_of_string text) in
    let text2 := join_runs false text1 in
    string_of_list_ascii (strip_hyphens (map lower_char text2)).

(** The characters of a slug before it is turned into a string. *)
Definition slug_chars (text : string) : list ascii :=
  strip_hyphens
    (map lower_char (join_runs false (drop_punctuation (list_ascii_of_string text)))).

(** The characters a slug is made of: word characters that [str.lower()]
    leaves alone, and the hyphen. *)
Definition slug_char (c : ascii) : bool :=
  (re_word c && Ascii.eqb (lower_char c) c) || is_hyphen c.

(** No two hyphens stand side by side. *)
Fixpoint hyphens_apart (s : list ascii) : bool :=
  match s with
  | [] => true
  | c1 :: s' =>
      match s' with
      | [] => true
      | c2 :: _ => negb (is_hyphen c1 && is_hyphen c2) && hyphens_apart s'
      end
  end.

(** [text.lower()], for a text of code points 0 to 255 *)
Definition lower (text : string) : string :=
  string_of_list_ascii (map lower_char (list_ascii_of_string text)).

(** ** Callers of the decoder: values at run time *)

(** What the callers can raise: the exceptions of the decoder, and those of
    a missing attribute and of a missing key. *)
Inductive error : Type :=
| Exn (e : exn)
| AttributeError
| KeyError.

(** The result of running a caller. [Cut] stands for a run the model does
    not follow to its end: a decoder run that was cut short, a sort that
    compares keys other than numbers. *)
Inductive run (A : Type) : Type :=
| Done (a : A)
| Fail (e : error)
| Cut.
Arguments Done {A} a.
Arguments Fail {A} e.
Arguments Cut {A}.

Definition run_bind {A B : Type} (m : run A) (k : A -> run B) : run B :=
  match m with
  | Done a => k a
  | Fail e => Fail e
  | Cut => Cut
  end.

Declare Scope run_scope.
Notation "x <- m ;; k" := (run_bind m (fun x => k))
  (at level 61, m at next level, right associativity) : run_scope.
Local Open Scope run_scope.

(** [parse_plist_value(element)] as a caller sees it. *)
Definition decoded (element : Element) : run value :=
  match decode element with
  | Return v => Done v
  | Raise e => Fail (Exn e)
  | OutOfFuel => Cut
  end.

(** The truth value of a Python value. *)
Definition py_truth (v : value) : bool :=
  match v with
  | PNone => false
  | PStr s => negb (s =? EmptyString)
  | PInt n => negb (n =? 0)%Z
  | PBool b => b
  | PDict items => match items with [] => false | _ => true end
  | PList elems => match elems with [] => false | _ => true end
  end.

(** [a or b] *)
Definition py_or (a b : value) : value := if py_truth a then a else b.

(** [v > 0]: numbers compare, a boolean counting as 0 or 1; anything else
    raises [TypeError]. *)
Definition py_gt_zero (v : value) : run bool :=
  match v with
  | PInt n => Done (0 <? n)%Z
  | PBool b => Done b
  | _ => Fail (Exn TypeError)
  end.

(** A dict key as a value. *)
Definition key_value (k : pykey) : value :=
  match k with
  | Some s => PStr s
  | None => PNone
  end.

(** [d.get(k, default)] on a dict with string key [k]. *)
Definition get_default (d : list (pykey * value)) (k : string) (default : value) : value :=
  match dict_get d (Some k) with
  | Some v => v
  | None => default
  end.

(** [v.get(k, default)]: only a dict has the method. *)
Definition py_get (v : value) (k : string) (default : value) : run value :=
  match v with
  | PDict d => Done (get_default d k default)
  | _ => Fail AttributeError
  end.

(** [v.items()]: only a dict has the method. *)
Definition py_items (v : value) : run (list (pykey * value)) :=
  match v with
  | PDict d => Done d
  | _ => Fail AttributeError
  end.

(** [d[k]] on a dict with string key [k]. *)
Definition py_item (d : list (pykey * value)) (k : string) : run value :=
  match dict_get d (Some k) with
  | Some v => Done v
  | None => Fail KeyError
  end.

(** ** The builtins [str] and [repr] *)

Definition squote : ascii := "'"%char.
Definition dquote : ascii := ascii_of_nat 34.
Definition backslash : ascii := ascii_of_nat 92.

Definition hex_digit (n : nat) : ascii :=
  nth n (list_ascii_of_string "0123456789abcdef") "0"%char.

(** One character inside the quotes of [repr(s)]. *)
Definition repr_char (quote c : ascii) : list ascii :=
  let n := nat_of_ascii c in
  if Ascii.eqb c quote || Ascii.eqb c backslash then [backslash; c]
  else if (n =? 9)%nat then [backslash; "t"%char]
  else if (n =? 10)%nat then [backslash; "n"%char]
  else if (n =? 13)%nat then [backslash; "r"%char]
  else if (n <? 32)%nat || in_ranges n [(127, 160); (173, 173)] then
    [backslash; "x"%char; hex_digit (n / 16); hex_digit (n mod 16)]
  else [c].

(** [repr(s)] for a string: single quotes, unless the string holds a single
    quote and no double quote. *)
Definition repr_str (s : string) : string :=
  let cs := list_ascii_of_string s in
  let quote :=
    if existsb (Ascii.eqb squote) cs && negb (existsb (Ascii.eqb dquote) cs)
    then dquote else squote in
  string_of_list_ascii (quote :: flat_map (repr_char quote) cs ++ [quote]).

(** [str(n)] for an integer: its decimal numeral, refused beyond
    [int_max_str_digits] digits. *)
Definition str_int (n : Z) : run string :=
  if (int_max_str_digits <? String.length (decimal (Z.abs n)))%nat
  then Fail (Exn ValueError)
  else Done (decimal n).

Definition repr_key (k : pykey) : string :=
  match k with
  | Some s => repr_str s
  | None => "None"
  end.

(** The results of a list of runs, up to the first that fails. *)
Fixpoint run_all {A : Type} (ms : list (run A)) : run (list A) :=
  match ms with
  | [] => Done []
  | m :: ms' => a <- m ;; l <- run_all ms' ;; Done (a :: l)
  end.

(** [repr(v)] *)
Fixpoint py_repr (v : value) : run string :=
  match v with
  | PNone => Done "None"
  | PStr s => Done (repr_str s)
  | PInt n => str_int n
  | PBool b => Done (if b then "True" else "False")
  | PDict items =>
      parts <- run_all (map (fun kv =>
                 r <- py_repr (snd kv) ;;
                 Done (repr_key (fst kv) ++ ": " ++ r)%string) items) ;;
      Done ("{" ++ String.concat ", " parts ++ "}")%string
  | PList elems =>
      parts <- run_all (map py_repr elems) ;;
      Done ("[" ++ String.concat ", " parts ++ "]")%string
  end.

(** [str(v)] *)
Definition py_str (v : value) : run string :=
  match v with
  | PStr s => Done s
  | _ => py_repr v
  end.

(** A run that ends with a result or with the [ValueError] of a numeral
    that is too long. *)
Definition printed {A : Type} (m : run A) : Prop :=
  (exists a, m = Done a) \/ m = Fail (Exn ValueError).

(** ** [parse_tracks] *)

(** The track dict [parse_tracks] builds from one entry of [Tracks]. *)
Definition track_of (track_id : pykey) (track_data : list (pykey * value))
  : run (list (pykey * value)) :=
  let get := get_default track_data in
  id <- py_str (get "Track ID" (key_value track_id)) ;;
  Done
    [ (Some "id", PStr id);
      (Some "name", get "Name" (PStr "Unknown"));
      (Some "artist", get "Artist" (PStr "Unknown Artist"));
      (Some "albumArtist",
       get "Album Artist" (get "Artist" (PStr "Unknown Artist")));
      (Some "album", get "Album" (PStr "Unknown Album"));
      (Some "genre", get "Genre" (PStr "Unknown"));
      (Some "year", get "Year" PNone);
      (Some "duration", get "Total Time" (PInt 0));
      (Some "releaseDate", get "Release Date" (PStr EmptyString));
      (Some "composer", get "Composer" (PStr EmptyString));
      (Some "playCount", get "Play Count" (PInt 0));
      (Some "loved",
       py_or (get "Loved" (PBool false)) (get "Favorited" (PBool false)));
      (Some "trackNumber", get "Track Number" PNone);
      (Some "discNumber", get "Disc Number" (PInt 1)) ].

(** The loop over [tracks_dict.items()], with the list [tracks] built so
    far. *)
Fixpoint tracks_loop (items : list (pykey * value))
    (tracks : list (list (pykey * value))) : run (list (list (pykey * value))) :=
  match items with
  | [] => Done tracks
  | (track_id, track_data) :: items' =>
      match track_data with
      | PDict d =>
          track <- track_of track_id d ;;
          play_count <- py_item track "playCount" ;;
          played <- py_gt_zero play_count ;;
          tracks_loop items' (if played then tracks ++ [track] else tracks)
      | _ => tracks_loop items' tracks
      end
  end.

(** [parse_tracks(xml_file)] from line 46 on, given the root element of
    the tree that [ET.parse(xml_file)] delivered on line 45. Reading and
    parsing the file are not modelled: what [ET.parse] raises for a file
    that is missing or is not XML leaves the function before anything
    below is run. *)
Definition parse_tracks (root : Element) : run (list (list (pykey * value))) :=
  match find (fun c => tag c =? "dict") (children root) with
  | None => Done []
  | Some plist_dict =>
      library_dict <- decoded plist_dict ;;
      tracks_dict <- py_get library_dict "Tracks" (PDict []) ;;
      items <- py_items tracks_dict ;;
      tracks_loop items []
  end.

(** The keys of a track dict, in the order [parse_tracks] writes them. *)
Definition track_fields : list pykey :=
  map Some
    [ "id"; "name"; "artist"; "albumArtist"; "album"; "genre"; "year";
      "duration"; "releaseDate"; "composer"; "playCount"; "loved";
      "trackNumber"; "discNumber" ].

(** A track dict whose play count is a positive number. *)
Definition played (track : list (pykey * value)) : bool :=
  match dict_get track (Some "playCount") with
  | Some (PInt n) => (0 <? n)%Z
  | Some (PBool b) => b
  | _ => false
  end.

(** A value that [>] compares with 0. *)
Definition is_number (v : value) : bool :=
  match v with
  | PInt _ | PBool _ => true
  | _ => false
  end.

Definition is_dict (v : value) : bool :=
  match v with
  | PDict _ => true
  | _ => false
  end.

(** What a caller may rely on in a track dict: the fourteen fields in
    their order, a string as id, a positive play count. *)
Definition well_formed_track (track : list (pykey * value)) : Prop :=
  map fst track = track_fields /\
  (exists id, dict_get track (Some "id") = Some (PStr id)) /\
  played track = true.

(** Every integer in the value has at most [int_max_str_digits] digits. *)
Fixpoint printable (v : value) : bool :=
  match v with
  | PInt n => (Z.abs n <? 10 ^ Z.of_nat int_max_str_digits)%Z
  | PDict items => forallb (fun kv => printable (snd kv)) items
  | PList elems => forallb printable elems
  | _ => true
  end.

(** [library root lib]: the first [dict] child of [root] decodes to the
    record [lib]. *)
Definition library (root : Element) (lib : list (pykey * value)) : Prop :=
  exists plist_dict,
    find (fun c => tag c =? "dict") (children root) = Some plist_dict /\
    decode plist_dict = Return (PDict lib).

(** [<plist>] around the sample library. *)
Definition library_root : Element := Elem "plist" None [library_doc].

(** ** [generate_music_data] *)

(** The number a value stands for in a comparison of numbers; a boolean
    counts as 0 or 1. *)
Definition number_of (v : value) : option Z :=
  match v with
  | PInt n => Some n
  | PBool b => Some (if b then 1 else 0)%Z
  | _ => None
  end.

(** The numbers of a list of values, when all are numbers. *)
Fixpoint numbers_of (vs : list value) : option (list Z) :=
  match vs with
  | [] => Some []
  | v :: vs' =>
      match number_of v, numbers_of vs' with
      | Some n, Some ns => Some (n :: ns)
      | _, _ => None
      end
  end.

Section Sorting.
Variable A : Type.

(** [a] with key [k] put into a list in descending order of keys: behind
    the elements of larger key, in front of those of equal or smaller
    key. *)
Fixpoint insert_desc (k : Z) (a : A) (s : list (Z * A)) : list (Z * A) :=
  match s with
  | [] => [(k, a)]
  | (k', a') :: s' =>
      if (k <? k')%Z then (k', a') :: insert_desc k a s' else (k, a) :: s
  end.

(** [sorted(l, key=..., reverse=True)] on numeric keys: descending, the
    elements of equal key in their original order. *)
Fixpoint sort_desc (l : list (Z * A)) : list (Z * A) :=
  match l with
  | [] => []
  | (k, a) :: l' => insert_desc k a (sort_desc l')
  end.
End Sorting.
Arguments insert_desc {A} k a s.
Arguments sort_desc {A} l.

(** [sorted(tracks, key=lambda x: x['playCount'], reverse=True)]. The keys
    are taken first; one track or none is returned without a comparison;
    the comparison of keys that are not numbers is not followed. *)
Definition sorted_by_play_count (tracks : list (list (pykey * value)))
  : run (list (list (pykey * value))) :=
  keys <- run_all (map (fun x => py_item x "playCount") tracks) ;;
  match tracks with
  | [] | [_] => Done tracks
  | _ =>
      match numbers_of keys with
      | Some ns => Done (map snd (sort_desc (combine ns tracks)))
      | None => Cut
      end
  end.

(** [slugify(text)] for any value [text]: a value that counts as false
    gives ['unknown'], a string its slug, and [re.sub] raises [TypeError]
    on anything else. *)
Definition slugify_value (text : value) : run string :=
  if py_truth text then
    match text with
    | PStr s => Done (slugify s)
    | _ => Fail (Exn TypeError)
    end
  else Done "unknown".

(** Values that can be keys of a dict. *)
Definition hashable (v : value) : bool :=
  match v with
  | PDict _ | PList _ => false
  | _ => true
  end.

(** Equality of two keys of a dict: numbers by their value, a boolean
    counting as 0 or 1. *)
Definition key_equal (a b : value) : bool :=
  match a, b with
  | PNone, PNone => true
  | PStr s, PStr t => s =? t
  | _, _ =>
      match number_of a, number_of b with
      | Some m, Some n => (m =? n)%Z
      | _, _ => false
      end
  end.

(** [groups[key].append(x)] on a [defaultdict(list)] kept as the list of
    its items. *)
Fixpoint group_append (groups : list (value * list (list (pykey * value))))
    (key : value) (x : list (pykey * value))
  : list (value * list (list (pykey * value))) :=
  match groups with
  | [] => [(key, [x])]
  | (k, g) :: groups' =>
      if key_equal k key then (k, g ++ [x]) :: groups'
      else (k, g) :: group_append groups' key x
  end.

(** The same, with the [TypeError] of a key that cannot be hashed. *)
Definition group_add (groups : list (value * list (list (pykey * value))))
    (key : value) (x : list (pykey * value))
  : run (list (value * list (list (pykey * value)))) :=
  if hashable key then Done (group_append groups key x)
  else Fail (Exn TypeError).

(** [groups[key]] *)
Fixpoint group_get (groups : list (value * list (list (pykey * value))))
    (key : value) : list (list (pykey * value)) :=
  match groups with
  | [] => []
  | (k, g) :: groups' => if key_equal k key then g else group_get groups' key
  end.

(** The state of the loop over [sorted_tracks]: the tracks seen so far,
    each with its slug, and the three [defaultdict]s. *)
Record grouping : Type := Grouping {
  slugged : list (list (pykey * value));
  albums : list (value * list (list (pykey * value)));
  artists : list (value * list (list (pykey * value)));
  genres : list (value * list (list (pykey * value)))
}.

Fixpoint group_loop (tracks : list (list (pykey * value))) (st : grouping)
  : run grouping :=
  match tracks with
  | [] => Done st
  | track :: tracks' =>
      name <- py_item track "name" ;;
      track_slug <- slugify_value name ;;
      let track := dict_set track (Some "slug") (PStr track_slug) in
      album_key <- py_item track "album" ;;
      artist_key <- py_item track "artist" ;;
      genre_key <- py_item track "genre" ;;
      albums' <- group_add (albums st) album_key track ;;
      artists' <- group_add (artists st) artist_key track ;;
      genres' <- group_add (genres st) genre_key track ;;
      group_loop tracks'
        (Grouping (slugged st ++ [track]) albums' artists' genres')
  end.

(** [sorted(groups.items(), key=lambda x: len(x[1]), reverse=True)] *)
Definition sort_groups (groups : list (value * list (list (pykey * value))))
  : list (value * list (list (pykey * value))) :=
  map snd (sort_desc (map (fun kg => (Z.of_nat (length (snd kg)), kg)) groups)).

(** One element of the ['albums'] list. *)
Definition album_entry (albums : list (value * list (list (pykey * value))))
    (album_name : value) : run value :=
  slug <- slugify_value album_name ;;
  artist <- match group_get albums album_name with
            | first :: _ => py_item first "artist"
            | [] => Done (PStr "Unknown")
            end ;;
  year <- match group_get albums album_name with
          | first :: _ => Done (get_default first "year" PNone)
          | [] => Fail (Exn IndexError)
          end ;;
  Done (PDict [ (Some "name", album_name);
                (Some "slug", PStr slug);
                (Some "artist", artist);
                (Some "year", year);
                (Some "tracks", PList (map PDict (group_get albums album_name))) ]).

(** One element of the ['artists'] and of the ['genres'] list. *)
Definition named_entry (groups : list (value * list (list (pykey * value))))
    (name : value) : run value :=
  slug <- slugify_value name ;;
  Done (PDict [ (Some "name", name);
                (Some "slug", PStr slug);
                (Some "tracks", PList (map PDict (group_get groups name))) ]).

(** [generate_music_data(tracks)] for a list of track dicts. *)
Definition generate_music_data (tracks : list (list (pykey * value))) : run value :=
  sorted <- sorted_by_play_count tracks ;;
  st <- group_loop (firstn 200 sorted) (Grouping [] [] [] []) ;;
  let all_albums := sort_groups (albums st) in
  let all_artists := sort_groups (artists st) in
  let top_genres := firstn 10 (sort_groups (genres st)) in
  album_list <- run_all (map (fun kg => album_entry (albums st) (fst kg)) all_albums) ;;
  artist_list <- run_all (map (fun kg => named_entry (artists st) (fst kg)) all_artists) ;;
  genre_list <- run_all (map (fun kg => named_entry (genres st) (fst kg)) top_genres) ;;
  Done (PDict [ (Some "tracks", PList (map PDict (slugged st)));
                (Some "albums", PList album_list);
                (Some "artists", PList artist_list);
                (Some "genres", PList genre_list) ]).

(** The list an output document holds under [k]. *)
Definition section_of (out : value) (k : string) : list value :=
  match out with
  | PDict d =>
      match dict_get d (Some k) with
      | Some (PList l) => l
      | _ => []
      end
  | _ => []
  end.

(** The tracks of an element of the ['albums'], ['artists'] or ['genres']
    list, and its name. *)
Definition entry_tracks (entry : value) : list value := section_of entry "tracks".

Definition entry_name (entry : value) : value :=
  match entry with
  | PDict d => get_default d "name" PNone
  | _ => PNone
  end.

(** The play count of a track as a number, 0 when it is none. *)
Definition track_count (track : list (pykey * value)) : Z :=
  match dict_get track (Some "playCount") with
  | Some v => match number_of v with Some n => n | None => 0%Z end
  | None => 0%Z
  end.

(** [out] is the track [track] with the slug of its name added. *)
Definition slugged_as (track : list (pykey * value)) (out : value) : Prop :=
  exists name slug,
    dict_get track (Some "name") = Some name /\
    slugify_value name = Done slug /\
    out = PDict (dict_set track (Some "slug") (PStr slug)).

(** The value a track dict holds under [field] is equal, as a key, to
    [name]. *)
Definition filed_under (field : string) (name : value) (track : list (pykey * value))
  : Prop :=
  exists v, dict_get track (Some field) = Some v /\ key_equal name v = true.

(** Descending order of keys, of play counts, of sizes. *)
Definition key_desc {A : Type} (x y : Z * A) : Prop := (fst y <= fst x)%Z.

Definition count_desc (a b : list (pykey * value)) : Prop :=
  (track_count b <= track_count a)%Z.

Definition size_desc {K A : Type} (a b : K * list A) : Prop :=
  length (snd b) <= length (snd a).

Definition entry_size_desc (a b : value) : Prop :=
  length (entry_tracks b) <= length (entry_tracks a).

(** A [defaultdict] of the loop is in order for the tracks [seen]: its
    groups hold exactly these tracks, under keys that are hashable and
    pairwise different, none of the groups is empty, and each track is in
    the group of the value it holds under [field]. *)
Definition groups_ok (field : string)
    (groups : list (value * list (list (pykey * value))))
    (seen : list (list (pykey * value))) : Prop :=
  Permutation (flat_map snd groups) seen /\
  ForallOrdPairs (fun a b => key_equal (fst a) (fst b) = false) groups /\
  Forall (fun kg => hashable (fst kg) = true /\ snd kg <> [] /\
                    Forall (filed_under field (fst kg)) (snd kg)) groups.

(** The three [defaultdict]s of a loop state are in order. *)
Definition grouping_ok (st : grouping) : Prop :=
  groups_ok "album" (albums st) (slugged st) /\
  groups_ok "artist" (artists st) (slugged st) /\
  groups_ok "genre" (genres st) (slugged st).

(** [entry] is the output element for the group of [name]. *)
Definition entry_for (groups : list (value * list (list (pykey * value))))
    (name : value) (entry : value) : Prop :=
  entry_name entry = name /\
  entry_tracks entry = map PDict (group_get groups name).

(** A track dict holds something under each of the keys the loop reads,
    and a number as play count. *)
Definition has_fields (track : list (pykey * value)) : Prop :=
  (exists v n, dict_get track (Some "playCount") = Some v /\ number_of v = Some n) /\
  forall field, In field ["name"; "album"; "artist"; "genre"] ->
    exists v, dict_get track (Some field) = Some v.

(** The same, with strings as name, album, artist and genre. *)
Definition has_text_fields (track : list (pykey * value)) : Prop :=
  (exists v n, dict_get track (Some "playCount") = Some v /\ number_of v = Some n) /\
  forall field, In field ["name"; "album"; "artist"; "genre"] ->
    exists s, dict_get track (Some field) = Some (PStr s).

(** Every track in the groups holds something under ['artist']. *)
Definition artists_known (groups : list (value * list (list (pykey * value)))) : Prop :=
  Forall (fun kg => Forall (fun t => exists v, dict_get t (Some "artist") = Some v)
                           (snd kg)) groups.

(** The keys of the groups are strings. *)
Definition text_keys (groups : list (value * list (list (pykey * value)))) : Prop :=
  Forall (fun kg => exists s, fst kg = PStr s) groups.

(** Three tracks of two albums, as [parse_tracks] returns them. *)
Definition sample_track (id name album genre : string) (count : Z)
  : list (pykey * value) :=
  [ (Some "id", PStr id); (Some "name", PStr name);
    (Some "artist", PStr "Miles Davis"); (Some "albumArtist", PStr "Miles Davis");
    (Some "album", PStr album); (Some "genre", PStr genre);
    (Some "year", PInt 1959); (Some "duration", PInt 0);
    (Some "releaseDate", PStr EmptyString); (Some "composer", PStr EmptyString);
    (Some "playCount", PInt count); (Some "loved", PBool false);
    (Some "trackNumber", PNone); (Some "discNumber", PInt 1) ].

Definition sample_tracks : list (list (pykey * value)) :=
  [ sample_track "1" "So What" "Kind of Blue" "Jazz" 7;
    sample_track "2" "Milestones" "Milestones" "Jazz" 9;
    sample_track "3" "Blue in Green" "Kind of Blue" "Modal" 7 ].

(** A library whose one track carries its play count as a string. *)
Definition textual_count_root : Element :=
  Elem "plist" None
    [ Elem "dict" None
        [ key "Tracks";
          Elem "dict" None
            [ key "7";
              Elem "dict" None
                [ key "Name"; str "Blue in Green";
                  key "Play Count"; str "5" ] ] ] ].

(** A library whose [Tracks] entry is an array. *)
Definition array_tracks_root : Element :=
  Elem "plist" None
    [ Elem "dict" None [ key "Tracks"; Elem "array" None [] ] ].

(** ** Media paths

    [update_music_data] of [generate_media.py] and of [fetch_media.py]
    (the two are the same) writes the paths of the pictures into the
    document that [json.load] read. The function changes the dicts of the
    document in place; the document is a tree, no dict of it stands in two
    places, so the model rebuilds it around each changed dict. Numbers
    with a fraction, which a JSON file may hold, are outside [value]. *)

(** [for x in v]: the values a loop over [v] visits. A dict gives its
    keys, a string its characters; a number, a boolean and [None] raise
    [TypeError]. *)
Definition py_iter (v : value) : run (list value) :=
  match v with
  | PList elems => Done elems
  | PDict items => Done (map (fun kv => key_value (fst kv)) items)
  | PStr s => Done (map (fun c => PStr (String c EmptyString)) (list_ascii_of_string s))
  | _ => Fail (Exn TypeError)
  end.

(** A dict from names to paths, [album_media] or [artist_media], as the
    list of its items; [media_get] is its lookup, with the equality of
    keys. *)
Fixpoint media_get (media : list (value * value)) (name : value) : option value :=
  match media with
  | [] => None
  | (k, path) :: media' => if key_equal k name then Some path else media_get media' name
  end.

(** [name in media]: [TypeError] for a name that cannot be hashed. *)
Definition py_in (name : value) (media : list (value * value)) : run bool :=
  if hashable name
  then Done (match media_get media name with Some _ => true | None => false end)
  else Fail (Exn TypeError).

(** [media[name]] *)
Definition media_item (media : list (value * value)) (name : value) : run value :=
  if hashable name
  then match media_get media name with
       | Some path => Done path
       | None => Fail KeyError
       end
  else Fail (Exn TypeError).

(** The body of the loops over the albums and over the artists:
    [if entry['name'] in media: entry[field] = media[entry['name']]].
    Only a dict can be indexed by ['name']. *)
Definition set_media (field : string) (media : list (value * value)) (entry : value)
  : run value :=
  match entry with
  | PDict d =>
      name <- py_item d "name" ;;
      present <- py_in name media ;;
      if present
      then path <- media_item media name ;;
           Done (PDict (dict_set d (Some field) path))
      else Done entry
  | _ => Fail (Exn TypeError)
  end.

(** The body of the loop over the tracks:
    [album_name = track.get('album')] and then
    [if album_name and album_name in album_media:
         track['albumCover'] = album_media[album_name]]. *)
Definition set_album_cover (album_media : list (value * value)) (track : value)
  : run value :=
  album_name <- py_get track "album" PNone ;;
  if py_truth album_name
  then present <- py_in album_name album_media ;;
       if present
       then path <- media_item album_media album_name ;;
            match track with
            | PDict d => Done (PDict (dict_set d (Some "albumCover") path))
            | _ => Fail (Exn TypeError)
            end
       else Done track
  else Done track.

(** [for entry in music_data.get(section, []): body]. The entries are
    changed in place, so what the document holds under [section] is
    afterwards the list of the changed entries. A loop over something
    that is not a list visits strings or [None], on which both bodies
    fail; it leaves the document as it was when it visits nothing. *)
Definition update_section (music_data : list (pykey * value)) (section : string)
    (body : value -> run value) : run (list (pykey * value)) :=
  match dict_get music_data (Some section) with
  | None => Done music_data
  | Some v =>
      entries <- py_iter v ;;
      entries' <- run_all (map body entries) ;;
      match v with
      | PList _ => Done (dict_set music_data (Some section) (PList entries'))
      | _ => Done music_data
      end
  end.

(** [update_music_data music_data album_media artist_media]: only a dict
    has the method [get]. *)
Definition update_music_data (music_data : value)
    (album_media artist_media : list (value * value)) : run value :=
  match music_data with
  | PDict d =>
      d1 <- update_section d "albums" (set_media "coverImage" album_media) ;;
      d2 <- update_section d1 "artists" (set_media "image" artist_media) ;;
      d3 <- update_section d2 "tracks" (set_album_cover album_media) ;;
      Done (PDict d3)
  | _ => Fail AttributeError
  end.

(** What a value holds under a string key, [None] when it holds nothing
    or is no dict. *)
Definition field_of (v : value) (k : string) : option value :=
  match v with
  | PDict d => dict_get d (Some k)
  | _ => None
  end.

(** [after] is [before] with at most the entry under [field] changed or
    added: both are dicts, and every other key holds in [after] what it
    held in [before]. *)
Definition same_but (field : string) (before after : value) : Prop :=
  exists d d',
    before = PDict d /\ after = PDict d' /\
    forall k, k <> Some field -> dict_get d' k = dict_get d k.

(** The keys under which [update_music_data] looks for lists. *)
Definition sections : list pykey := [Some "albums"; Some "artists"; Some "tracks"].

(** The path [media] holds for the name of [entry], if it holds one. *)
Definition path_for (media : list (value * value)) (entry : value) : option value :=
  media_get media (entry_name entry).

(** The name of the album of a track, [None] when it has none. *)
Definition album_of (track : value) : value :=
  match track with
  | PDict d => get_default d "album" PNone
  | _ => PNone
  end.

(** An entry the loops over the albums and the artists can handle: a dict
    with a name that can be hashed. *)
Definition named (entry : value) : Prop :=
  exists d name, entry = PDict d /\ dict_get d (Some "name") = Some name /\
                 hashable name = true.

(** A track the loop over the tracks can handle: a dict whose album, when
    it counts as true, can be hashed. *)
Definition filed (track : value) : Prop :=
  exists d, track = PDict d /\
            (py_truth (album_of track) = true -> hashable (album_of track) = true).

(** A loop over what the document holds under [k], an empty list when it
    holds nothing, visits only values that satisfy [P]. *)
Definition visits_only (P : value -> Prop) (d : list (pykey * value)) (k : string)
  : Prop :=
  match dict_get d (Some k) with
  | None => True
  | Some v => exists l, py_iter v = Done l /\ Forall P l
  end.

(** A document with two albums, one artist and three tracks, one of them
    of an album with the empty name. *)
Definition sample_document : value :=
  PDict
    [ (Some "tracks",
       PList [ PDict [ (Some "name", PStr "So What"); (Some "album", PStr "Kind of Blue") ];
               PDict [ (Some "name", PStr "Untitled"); (Some "album", PStr EmptyString) ];
               PDict [ (Some "name", PStr "Milestones"); (Some "album", PStr "Milestones") ] ]);
      (Some "albums",
       PList [ PDict [ (Some "name", PStr "Kind of Blue"); (Some "slug", PStr "kind-of-blue");
                       (Some "tracks",
                        PList [ PDict [ (Some "name", PStr "So What");
                                        (Some "album", PStr "Kind of Blue") ] ]) ];
               PDict [ (Some "name", PStr EmptyString); (Some "slug", PStr "unknown") ] ]);
      (Some "artists",
       PList [ PDict [ (Some "name", PStr "Miles Davis") ] ]);
      (Some "genres", PList []) ].

Definition sample_album_media : list (value * value) :=
  [ (PStr "Kind of Blue", PStr "/media/albums/kind-of-blue.png");
    (PStr EmptyString, PStr "/media/albums/unknown.png") ].

Definition sample_artist_media : list (value * value) :=
  [ (PStr "Miles Davis", PStr "/media/artists/miles-davis.png") ].

Local Close Scope run_scope.

(** ** Sample runs *)

(** [int] on strings it accepts and on strings it rejects. *)
Example py_int_samples :
  map py_int [" 42 "; "-5"; "+5"; "1_000"; "007"; "0_7"]
    = map Some [42; -5; 5; 1000; 7; 7]%Z /\
  map py_int [EmptyString; " "; "+"; "+ 5"; "--5"; "_1"; "1_"; "1__0";
              "abc"; "4.0"; "0x10"; "5 5"]
    = repeat None 12.
Proof. split; reflexivity. Qed.

(** With fewer nested calls than the document is deep, the run is cut. *)
Example shallow_fuel :
  parse_plist_value 1 dangling_doc = OutOfFuel /\
  parse_plist_value 2 dangling_doc = decode dangling_doc.
Proof. split; reflexivity. Qed.

(** The library document decodes to its nested record. *)
Example library_doc_decoded :
  decode library_doc =
  Return
    (PDict
       [(Some "Major Version", PInt 1);
        (Some "Tracks",
         PDict
           [(Some "1001",
             PDict
               [(Some "Track ID", PInt 1001);
                (Some "Name", PStr "So What");
                (Some "Play Count", PInt 42);
                (Some "Loved", PBool true);
                (Some "Date Added", PStr "2020-01-01T00:00:00Z");
                (Some "Tags", PList [PStr "jazz"; PStr "modal"])])])]).
Proof. reflexivity. Qed.

(** ** Keys *)

Lemma key_eqb_eq (a b : pykey) : key_eqb a b = true <-> a = b.
Proof.
  destruct a as [x|], b as [y|]; simpl; split; intros H;
    try discriminate; try reflexivity.
  - apply String.eqb_eq in H. now subst.
  - injection H as ->. apply String.eqb_refl.
Qed.

Lemma key_eqb_refl (a : pykey) : key_eqb a a = true.
Proof. now apply key_eqb_eq. Qed.

Lemma key_eqb_neq (a b : pykey) : key_eqb a b = false <-> a <> b.
Proof.
  split.
  - intros H E. apply key_eqb_eq in E. congruence.
  - intros H. destruct (key_eqb a b) eqn:E; [|reflexivity].
    apply key_eqb_eq in E. contradiction.
Qed.

Lemma key_eqb_sym (a b : pykey) : key_eqb a b = key_eqb b a.
Proof.
  destruct (key_eqb a b) eqn:E; symmetry.
  - apply key_eqb_eq in E. subst. apply key_eqb_refl.
  - apply key_eqb_neq. apply key_eqb_neq in E. congruence.
Qed.

Lemma existsb_key_In (k : pykey) (ks : list pykey) :
  existsb (key_eqb k) ks = true <-> In k ks.
Proof.
  rewrite existsb_exists. split.
  - intros [x [Hin E]]. apply key_eqb_eq in E. now subst.
  - intros Hin. exists k. split; [assumption | apply key_eqb_refl].
Qed.

(** ** Dictionaries: what an assignment does *)

Lemma filter_known_key (ks l : list pykey) (k : pykey) :
  In k ks ->
  filter (fun a => negb (existsb (key_eqb a) ks))
         (filter (fun a => negb (key_eqb k a)) l) =
  filter (fun a => negb (existsb (key_eqb a) ks)) l.
Proof.
  intros Hin. induction l as [|a l IHl]; [reflexivity|].
  simpl. destruct (key_eqb k a) eqn:Ea; simpl.
  - apply key_eqb_eq in Ea. subst a.
    apply existsb_key_In in Hin. rewrite Hin. simpl. exact IHl.
  - now rewrite IHl.
Qed.

Lemma filter_added_key (ks l : list pykey) (k : pykey) :
  filter (fun a => negb (existsb (key_eqb a) (ks ++ [k]))) l =
  filter (fun a => negb (existsb (key_eqb a) ks))
         (filter (fun a => negb (key_eqb k a)) l).
Proof.
  induction l as [|a l IHl]; [reflexivity|].
  simpl. rewrite existsb_app. simpl. rewrite orb_false_r.
  rewrite (key_eqb_sym a k).
  destruct (key_eqb k a); simpl.
  - rewrite orb_true_r. simpl. exact IHl.
  - rewrite orb_false_r.
    destruct (existsb (key_eqb a) ks); simpl; [exact IHl | now rewrite IHl].
Qed.

Section DictFacts.
Context {V : Type}.
Implicit Types (d kvs : list (pykey * V)) (k : pykey) (v : V).

Lemma dict_get_set_same d k v : dict_get (dict_set d k v) k = Some v.
Proof.
  induction d as [|[k' v'] d IH]; simpl.
  - now rewrite key_eqb_refl.
  - destruct (key_eqb k' k) eqn:E; simpl; rewrite E; [reflexivity | exact IH].
Qed.

Lemma dict_get_set_other d k k' v :
  k <> k' -> dict_get (dict_set d k v) k' = dict_get d k'.
Proof.
  intros Hne. induction d as [|[k0 v0] d IH]; simpl.
  - apply key_eqb_neq in Hne. now rewrite Hne.
  - destruct (key_eqb k0 k) eqn:E; simpl.
    + apply key_eqb_eq in E. subst k0.
      apply key_eqb_neq in Hne. now rewrite Hne.
    + now rewrite IH.
Qed.

(** Overwriting keeps the key where it was. *)
Lemma dict_keys_set_old d k v :
  In k (dict_keys d) -> dict_keys (dict_set d k v) = dict_keys d.
Proof.
  induction d as [|[k' v'] d IH]; simpl; intros Hin; [contradiction|].
  destruct (key_eqb k' k) eqn:E; simpl; [reflexivity|].
  f_equal. apply IH. destruct Hin as [->|Hin]; [|assumption].
  now rewrite key_eqb_refl in E.
Qed.

(** A new key is appended. *)
Lemma dict_set_new d k v :
  ~ In k (dict_keys d) -> dict_set d k v = d ++ [(k, v)].
Proof.
  induction d as [|[k' v'] d IH]; simpl; intros Hnin; [reflexivity|].
  destruct (key_eqb k' k) eqn:E.
  - apply key_eqb_eq in E. subst. exfalso. apply Hnin. now left.
  - f_equal. apply IH. intros Hin. apply Hnin. now right.
Qed.

Lemma dict_update_cons d k v kvs :
  dict_update d ((k, v) :: kvs) = dict_update (dict_set d k v) kvs.
Proof. reflexivity. Qed.

Lemma dict_update_snoc d kvs k v :
  dict_update d (kvs ++ [(k, v)]) = dict_set (dict_update d kvs) k v.
Proof. unfold dict_update. now rewrite fold_left_app. Qed.

(** Every key ends up with the value of its last assignment. *)
Lemma dict_get_update kvs : forall d k,
  dict_get (dict_update d kvs) k =
  match last_value kvs k with Some w => Some w | None => dict_get d k end.
Proof.
  induction kvs as [|[k' v'] kvs IH]; intros d k; [reflexivity|].
  rewrite dict_update_cons, IH. simpl.
  destruct (last_value kvs k); [reflexivity|].
  destruct (key_eqb k' k) eqn:E.
  - apply key_eqb_eq in E. subst. apply dict_get_set_same.
  - apply dict_get_set_other. now apply key_eqb_neq.
Qed.

(** The keys stand in the order in which each was first assigned. *)
Lemma dict_keys_update kvs : forall d,
  dict_keys (dict_update d kvs) =
  dict_keys d ++
  filter (fun k => negb (existsb (key_eqb k) (dict_keys d)))
         (first_seen (map fst kvs)).
Proof.
  induction kvs as [|[k v] kvs IH]; intros d.
  - simpl. now rewrite app_nil_r.
  - rewrite dict_update_cons, IH. simpl first_seen. simpl filter.
    destruct (existsb (key_eqb k) (dict_keys d)) eqn:E; simpl.
    + apply existsb_key_In in E.
      rewrite (dict_keys_set_old d k v E). f_equal.
      symmetry. now apply filter_known_key.
    + assert (Hnin : ~ In k (dict_keys d)).
      { intros Hin. apply existsb_key_In in Hin. congruence. }
      rewrite (dict_set_new d k v Hnin). unfold dict_keys at 1 2.
      rewrite map_app, <- app_assoc. simpl. do 2 f_equal.
      apply filter_added_key.
Qed.

(** Pairwise distinct new keys are appended one by one. *)
Lemma dict_update_distinct kvs : forall d,
  distinct_keys (dict_keys d ++ map fst kvs) = true ->
  dict_update d kvs = d ++ kvs.
Proof.
  induction kvs as [|[k v] kvs IH]; intros d Hd.
  - simpl. now rewrite app_nil_r.
  - rewrite dict_update_cons.
    assert (Hnin : ~ In k (dict_keys d)).
    { clear IH. induction d as [|[k0 v0] d IHd]; simpl in *; [tauto|].
      apply andb_prop in Hd as [H0 Hd]. intros [->|Hin].
      - apply negb_true_iff in H0.
        assert (existsb (key_eqb k) (dict_keys d ++ k :: map fst kvs) = true).
        { apply existsb_key_In, in_or_app. right. now left. }
        congruence.
      - now apply IHd. }
    rewrite (dict_set_new d k v Hnin), IH.
    + now rewrite <- app_assoc.
    + unfold dict_keys in *. rewrite map_app, <- app_assoc. exact Hd.
Qed.
End DictFacts.

Lemma first_seen_distinct (ks : list pykey) :
  distinct_keys ks = true -> first_seen ks = ks.
Proof.
  induction ks as [|k ks IH]; simpl; intros H; [reflexivity|].
  apply andb_prop in H as [Hk Hks]. rewrite (IH Hks). f_equal.
  apply negb_true_iff in Hk.
  clear IH Hks. induction ks as [|a l IHl]; [reflexivity|].
  simpl in *. apply orb_false_iff in Hk as [Ha Hl].
  rewrite Ha. simpl. now rewrite IHl.
Qed.

(** ** Induction schemes *)

(** Induction on a list read one or two elements at a time, as the walk
    reads the children. *)
Lemma pairs_ind (A : Type) (P : list A -> Prop) :
  P [] ->
  (forall a, P [a]) ->
  (forall a b l, P l -> P (b :: l) -> P (a :: b :: l)) ->
  forall l, P l.
Proof.
  intros H0 H1 H2 l.
  assert (H : P l /\ forall a, P (a :: l)).
  { induction l as [|b l [IHl IHbl]].
    - split; [exact H0 | exact H1].
    - split; [apply IHbl | intros a; apply H2; [exact IHl | apply IHbl]]. }
  apply H.
Qed.

(** Induction on an element with the property known for its children. *)
Lemma Element_children_ind (P : Element -> Prop) :
  (forall t x cs, Forall P cs -> P (Elem t x cs)) ->
  forall e, P e.
Proof.
  intros step.
  fix IH 1. intros [t x cs]. apply step.
  induction cs as [|c cs IHcs]; constructor; [apply IH | exact IHcs].
Qed.

(** ** The loop reads the children as a list *)

Lemma subscript_app {A : Type} (pre rest : list A) (a : A) :
  subscript (pre ++ a :: rest) (length pre) = Return a.
Proof.
  unfold subscript. rewrite nth_error_app2 by lia.
  now rewrite Nat.sub_diag.
Qed.

Lemma dict_loop_done rec cs steps r :
  dict_loop rec cs steps (length cs) r = Return (PDict r).
Proof. destruct steps; simpl; now rewrite Nat.ltb_irrefl. Qed.

(** From the cursor at the end of [pre], the loop does what [walk_list]
    does on the remaining children, whenever it may run one iteration per
    remaining child. *)
Lemma dict_loop_suffix rec : forall steps pre rest r,
  length rest <= steps ->
  dict_loop rec (pre ++ rest) steps (length pre) r = walk_list rec rest r.
Proof.
  induction steps as [|steps IH]; intros pre rest r Hlen.
  - destruct rest; [|simpl in Hlen; lia].
    rewrite app_nil_r. apply dict_loop_done.
  - destruct rest as [|k rest1].
    + rewrite app_nil_r. apply dict_loop_done.
    + simpl in Hlen. cbn [dict_loop].
      replace (length pre <? length (pre ++ k :: rest1))%nat with true
        by (symmetry; apply Nat.ltb_lt; rewrite length_app; simpl; lia).
      rewrite subscript_app. cbn [bind].
      assert (Hpre : length pre + 1 = length (pre ++ [k]))
        by (rewrite length_app; reflexivity).
      assert (Hsplit : pre ++ k :: rest1 = (pre ++ [k]) ++ rest1)
        by (now rewrite <- app_assoc).
      destruct rest1 as [|v rest2].
      * replace (length pre + 1 <? length (pre ++ [k]))%nat with false
          by (symmetry; apply Nat.ltb_ge; lia).
        rewrite andb_false_r, Hpre. simpl. apply dict_loop_done.
      * replace (length pre + 1 <? length (pre ++ k :: v :: rest2))%nat with true
          by (symmetry; apply Nat.ltb_lt; rewrite length_app; simpl; lia).
        rewrite andb_true_r. cbn [walk_list].
        destruct (tag k =? "key").
        -- rewrite Hsplit at 1. rewrite Hpre, subscript_app. cbn [bind].
           destruct (rec v) as [x| |]; cbn [bind]; try reflexivity.
           replace (pre ++ k :: v :: rest2) with ((pre ++ [k; v]) ++ rest2)
             by (now rewrite <- app_assoc).
           replace (length pre + 2) with (length (pre ++ [k; v]))
             by (rewrite length_app; reflexivity).
           apply IH. simpl in Hlen. lia.
        -- rewrite Hsplit, Hpre. apply IH. simpl in *. lia.
Qed.

Lemma dict_loop_walk_list rec cs r :
  dict_loop rec cs (length cs) 0 r = walk_list rec cs r.
Proof. apply (dict_loop_suffix rec (length cs) [] cs r). lia. Qed.

(** ** The decoder depends on its recursive calls only through the children *)

Lemma walk_list_ext rec1 rec2 cs :
  (forall c, In c cs -> rec1 c = rec2 c) ->
  forall r, walk_list rec1 cs r = walk_list rec2 cs r.
Proof.
  induction cs as [| k | k v rest IH2 IH1] using pairs_ind; intros H r;
    try reflexivity.
  cbn [walk_list]. destruct (tag k =? "key").
  - rewrite (H v) by (simpl; tauto).
    destruct (rec2 v); cbn [bind]; try reflexivity.
    apply IH2. intros c Hc. apply H. simpl. tauto.
  - apply IH1. intros c Hc. apply H. now right.
Qed.

Lemma list_comp_ext rec1 rec2 cs :
  (forall c, In c cs -> rec1 c = rec2 c) ->
  list_comp rec1 cs = list_comp rec2 cs.
Proof.
  induction cs as [|c cs IH]; intros H; [reflexivity|].
  simpl. rewrite (H c) by now left.
  rewrite IH; [reflexivity|]. intros c' Hc'. apply H. now right.
Qed.

Lemma parse_body_ext rec1 rec2 e :
  (forall c, In c (children e) -> rec1 c = rec2 c) ->
  parse_body rec1 e = parse_body rec2 e.
Proof.
  intros H. unfold parse_body.
  rewrite !dict_loop_walk_list.
  rewrite (walk_list_ext rec1 rec2 _ H), (list_comp_ext rec1 rec2 _ H).
  reflexivity.
Qed.

Lemma height_child t x cs c : In c cs -> height c < height (Elem t x cs).
Proof.
  intros Hin. simpl. apply Nat.lt_succ_r.
  induction cs as [|c' cs IH]; [contradiction|].
  simpl. destruct Hin as [->|Hin]; [lia|].
  specialize (IH Hin). lia.
Qed.

(** Past the depth of the element, more fuel changes nothing. *)
Lemma parse_fuel_irrelevant : forall fuel1 fuel2 e,
  height e <= fuel1 -> height e <= fuel2 ->
  parse_plist_value fuel1 e = parse_plist_value fuel2 e.
Proof.
  induction fuel1 as [|fuel1 IH]; intros fuel2 e H1 H2;
    [destruct e; simpl in H1; lia|].
  destruct fuel2 as [|fuel2]; [destruct e; simpl in H2; lia|]. simpl.
  apply parse_body_ext. intros c Hc.
  destruct e as [t x cs]. simpl in Hc.
  pose proof (height_child t x cs c Hc).
  apply IH; lia.
Qed.

Lemma decode_fuel fuel e :
  height e <= fuel -> parse_plist_value fuel e = decode e.
Proof. intros H. apply parse_fuel_irrelevant; [exact H | lia]. Qed.

(** [decode] satisfies the equation of the source function. *)
Lemma decode_unfold e : decode e = parse_body decode e.
Proof.
  destruct e as [t x cs]. unfold decode at 1.
  cbn [height parse_plist_value]. apply parse_body_ext. intros c Hc.
  apply decode_fuel.
  pose proof (height_child t x cs c Hc). simpl in *. lia.
Qed.

Lemma decode_dict t x cs :
  t = "dict" -> decode (Elem t x cs) = walk_list decode cs [].
Proof.
  intros ->. rewrite decode_unfold. unfold parse_body. simpl.
  apply dict_loop_walk_list.
Qed.

Lemma decode_array t x cs :
  t = "array" ->
  decode (Elem t x cs) = (vs <- list_comp decode cs ;; Return (PList vs)).
Proof. intros ->. rewrite decode_unfold. reflexivity. Qed.

(** ** Outcomes of the decoder *)

Lemma walk_list_settled rec cs :
  Forall (fun c => settled (rec c)) cs ->
  forall r, settled (walk_list rec cs r).
Proof.
  induction cs as [| k | k v rest IH2 IH1] using pairs_ind; intros H r;
    try (left; eexists; reflexivity).
  cbn [walk_list]. inversion H as [|? ? _ Hrest]; subst.
  destruct (tag k =? "key"); [|now apply IH1].
  inversion Hrest as [|? ? Hv Hrest']; subst.
  destruct Hv as [[x ->]| ->]; cbn [bind]; [now apply IH2 | now right].
Qed.

Lemma list_comp_settled rec cs :
  Forall (fun c => settled (rec c)) cs -> settled (list_comp rec cs).
Proof.
  induction 1 as [|c cs Hc _ IH]; [left; eexists; reflexivity|].
  simpl. destruct Hc as [[x ->]| ->]; cbn [bind]; [|now right].
  destruct IH as [[xs ->]| ->]; cbn [bind]; [left; eexists; reflexivity | now right].
Qed.

(** Decoding always ends: it returns a value or raises [ValueError]. *)
Lemma decode_settled e : settled (decode e).
Proof.
  induction e as [t x cs IH] using Element_children_ind.
  rewrite decode_unfold. unfold parse_body. cbn [tag text children].
  destruct (t =? "string"); [left; eexists; reflexivity|].
  destruct (t =? "integer").
  { destruct x as [s|]; cbn [truthy]; [|left; eexists; reflexivity].
    destruct (s =? EmptyString); cbn [negb int_of_text];
      [left; eexists; reflexivity|].
    destruct (py_int s); [left; eexists; reflexivity | now right]. }
  destruct (t =? "true"); [left; eexists; reflexivity|].
  destruct (t =? "false"); [left; eexists; reflexivity|].
  destruct (t =? "date"); [left; eexists; reflexivity|].
  destruct (t =? "dict").
  { rewrite dict_loop_walk_list. now apply walk_list_settled. }
  destruct (t =? "array"); [|left; eexists; reflexivity].
  destruct (list_comp_settled decode cs IH) as [[vs ->]| ->]; cbn [bind];
    [left; eexists; reflexivity | now right].
Qed.

Lemma decode_total e : decode e <> OutOfFuel.
Proof. destruct (decode_settled e) as [[v ->]| ->]; discriminate. Qed.

(** ** Primitive tags *)

(** C7. A [string] node decodes to its raw text, and to the empty text when
    the content is absent or empty; [true] and [false] decode to the two
    booleans; a [date] node decodes to its raw text, unparsed. One call
    suffices, whatever the node contains besides. *)
Theorem primitive_tags_decode (fuel : nat) (x : option string) (cs : list Element) :
  parse_plist_value (S fuel) (Elem "string" x cs)
    = Return (PStr (match x with Some s => s | None => EmptyString end)) /\
  parse_plist_value (S fuel) (Elem "true" x cs) = Return (PBool true) /\
  parse_plist_value (S fuel) (Elem "false" x cs) = Return (PBool false) /\
  parse_plist_value (S fuel) (Elem "date" x cs)
    = Return (PStr (match x with Some s => s | None => EmptyString end)).
Proof.
  assert (E : or_empty x = match x with Some s => s | None => EmptyString end).
  { destruct x as [s|]; [|reflexivity]. simpl.
    destruct (s =? EmptyString) eqn:Es; [|reflexivity].
    apply String.eqb_eq in Es. now subst. }
  repeat split; simpl; unfold parse_body; simpl; now rewrite E.
Qed.

(** C8. A node whose tag is none of [string], [integer], [true], [false],
    [date], [dict], [array] decodes to [None], and nothing is raised. *)
Theorem unknown_tag_decodes_to_none (fuel : nat) (t : string)
    (x : option string) (cs : list Element) :
  known_tag t = false ->
  parse_plist_value (S fuel) (Elem t x cs) = Return PNone.
Proof.
  unfold known_tag. intros H.
  repeat (apply orb_false_iff in H; destruct H as [H ?]).
  simpl. unfold parse_body. cbn [tag].
  repeat match goal with E : (t =? _) = false |- _ => rewrite E; clear E end.
  reflexivity.
Qed.

Lemma unknown_tag_witness :
  parse_plist_value 1 (Elem "key" (Some "Name") []) = Return PNone /\
  parse_plist_value 3 (Elem "data" (Some "AAEC") [int "abc"]) = Return PNone.
Proof.
  split; apply unknown_tag_decodes_to_none; reflexivity.
Defined.

(** ** Integers *)

(** C3. An [integer] node decodes to the number [int] reads in its text, to
    0 when the text is empty or absent, and raises [ValueError] when the
    text is non-empty and [int] rejects it: 42 for [42], an error for
    [abc]. *)
Theorem integer_decoding (fuel : nat) (cs : list Element) :
  (forall s n, s <> EmptyString -> py_int s = Some n ->
     parse_plist_value (S fuel) (Elem "integer" (Some s) cs) = Return (PInt n)) /\
  parse_plist_value (S fuel) (Elem "integer" (Some EmptyString) cs) = Return (PInt 0) /\
  parse_plist_value (S fuel) (Elem "integer" None cs) = Return (PInt 0) /\
  (forall s, s <> EmptyString -> py_int s = None ->
     parse_plist_value (S fuel) (Elem "integer" (Some s) cs) = Raise ValueError) /\
  py_int "42" = Some 42%Z /\ py_int "abc" = None.
Proof.
  assert (E : forall s, s <> EmptyString -> (s =? EmptyString) = false)
    by (intros s Hs; now apply String.eqb_neq).
  repeat split; try reflexivity; intros s; intros; simpl; unfold parse_body;
    simpl; rewrite (E s) by assumption; simpl;
    match goal with H : py_int s = _ |- _ => now rewrite H end.
Qed.

Lemma integer_decoding_witness :
  parse_plist_value 1 (int "42") = Return (PInt 42) /\
  parse_plist_value 1 (int "abc") = Raise ValueError.
Proof.
  split.
  - apply (proj1 (integer_decoding 0 [])); [discriminate | reflexivity].
  - apply (proj1 (proj2 (proj2 (proj2 (integer_decoding 0 []))))).
    + discriminate.
    + reflexivity.
Defined.

(** ** Arrays *)

Lemma list_comp_returns rec cs vs :
  list_comp rec cs = Return vs <->
  Forall2 (fun c v => rec c = Return v) cs vs.
Proof.
  revert vs. induction cs as [|c cs IH]; intros vs; simpl.
  - split; intros H; [injection H as <-; constructor | now inversion H].
  - destruct (rec c) as [v| |] eqn:Ec; cbn [bind].
    + destruct (list_comp rec cs) as [ws| |] eqn:Ecs; cbn [bind]; split; intros H;
        try discriminate.
      * injection H as <-. constructor; [assumption | now apply IH].
      * inversion H as [|? w ? ws' Hw Hws]; subst.
        apply IH in Hws. congruence.
      * inversion H as [|? w ? ws' Hw Hws]; subst. apply IH in Hws. discriminate.
      * inversion H as [|? w ? ws' Hw Hws]; subst. apply IH in Hws. discriminate.
    + split; intros H; [discriminate|]. inversion H; subst. congruence.
    + split; intros H; [discriminate|]. inversion H; subst. congruence.
Qed.

Lemma Forall2_nth_error {A B : Type} (R : A -> B -> Prop) l1 l2 :
  Forall2 R l1 l2 ->
  forall i a, nth_error l1 i = Some a ->
  exists b, nth_error l2 i = Some b /\ R a b.
Proof.
  induction 1 as [|a0 b0 l1 l2 Hab _ IH]; intros i a Hi.
  - destruct i; discriminate.
  - destruct i as [|i]; simpl in *.
    + injection Hi as <-. now exists b0.
    + now apply IH.
Qed.

(** C6. An [array] node whose children c1..cn decode to values decodes to
    the list of length n whose i-th element is the value of ci, in source
    order, and to no other list; without children it decodes to the empty
    list. *)
Theorem array_decoding (fuel : nat) (x : option string) (cs : list Element) :
  height (Elem "array" x cs) <= fuel ->
  (forall vs,
     parse_plist_value fuel (Elem "array" x cs) = Return (PList vs) <->
     Forall2 (fun c v => decode c = Return v) cs vs) /\
  (forall vs,
     parse_plist_value fuel (Elem "array" x cs) = Return (PList vs) ->
     length vs = length cs /\
     forall i c, nth_error cs i = Some c ->
       exists v, nth_error vs i = Some v /\ decode c = Return v) /\
  ((forall c, In c cs -> exists v, decode c = Return v) ->
     exists vs, parse_plist_value fuel (Elem "array" x cs) = Return (PList vs)) /\
  (cs = [] -> parse_plist_value fuel (Elem "array" x cs) = Return (PList [])).
Proof.
  intros Hfuel. rewrite (decode_fuel _ _ Hfuel), (decode_array "array" x cs eq_refl).
  assert (Hiff : forall vs,
    (vs0 <- list_comp decode cs ;; Return (PList vs0)) = Return (PList vs) <->
    Forall2 (fun c v => decode c = Return v) cs vs).
  { intros vs. rewrite <- list_comp_returns.
    destruct (list_comp decode cs); cbn [bind]; split; intros H;
      try discriminate; congruence. }
  split; [exact Hiff|]. split; [|split].
  - intros vs H. apply Hiff in H. split.
    + symmetry. exact (Forall2_length H).
    + exact (Forall2_nth_error _ _ _ H).
  - intros Hall.
    assert (H : exists vs, Forall2 (fun c v => decode c = Return v) cs vs).
    { clear Hfuel Hiff. induction cs as [|c cs IH]; [exists []; constructor|].
      destruct (Hall c (or_introl eq_refl)) as [v Hv].
      destruct IH as [vs Hvs]; [intros c' Hc'; apply Hall; now right|].
      exists (v :: vs). now constructor. }
    destruct H as [vs Hvs]. exists vs. now apply Hiff.
  - intros ->. reflexivity.
Qed.

Lemma array_decoding_witness :
  parse_plist_value 2 (Elem "array" None [str "jazz"; int "7"])
    = Return (PList [PStr "jazz"; PInt 7]) /\
  parse_plist_value 1 (Elem "array" None []) = Return (PList []).
Proof.
  split.
  - apply (proj1 (array_decoding 2 None [str "jazz"; int "7"] (le_n 2))).
    repeat constructor.
  - apply (proj2 (proj2 (proj2 (array_decoding 1 None [] (le_n 1))))).
    reflexivity.
Defined.

(** ** Records: the pairing walk *)

Lemma walk_list_pairs rec ps rest :
  Forall (fun p => tag (fst p) = "key") ps ->
  forall r,
    walk_list rec (sibling_pairs ps ++ rest) r =
    (r' <- decode_pairs rec ps r ;; walk_list rec rest r').
Proof.
  induction 1 as [|[k v] ps Hk _ IH]; intros r; [reflexivity|].
  simpl in Hk. cbn [sibling_pairs flat_map fst snd app walk_list decode_pairs].
  rewrite Hk. cbn [String.eqb Ascii.eqb Bool.eqb].
  destruct (rec v); cbn [bind]; try reflexivity. apply IH.
Qed.

Lemma decode_pairs_returns rec ps kvs :
  Forall2 (pair_decodes rec) ps kvs ->
  forall r, decode_pairs rec ps r = Return (dict_update r kvs).
Proof.
  induction 1 as [|p [k v] ps kvs (Ht & Hk & Hv) _ IH]; intros r; [reflexivity|].
  simpl in *. rewrite Hv, Hk. cbn [bind]. apply IH.
Qed.

Lemma pair_decodes_keys rec ps kvs :
  Forall2 (pair_decodes rec) ps kvs ->
  Forall (fun p => tag (fst p) = "key") ps.
Proof. induction 1 as [|? ? ? ? (Ht & _) _ IH]; constructor; assumption. Qed.

Lemma decode_dict_pairs x ps tail :
  Forall (fun p => tag (fst p) = "key") ps ->
  decode (Elem "dict" x (sibling_pairs ps ++ tail)) =
  (r <- decode_pairs decode ps [] ;; walk_list decode tail r).
Proof.
  intros Hps. rewrite (decode_dict "dict" x _ eq_refl).
  now apply walk_list_pairs.
Qed.

Lemma first_seen_In (k : pykey) (ks : list pykey) :
  In k (first_seen ks) <-> In k ks.
Proof.
  induction ks as [|a ks IH]; simpl; [tauto|].
  rewrite filter_In, IH. split.
  - intros [->|[Hin _]]; tauto.
  - intros [->|Hin]; [now left|].
    destruct (key_eqb a k) eqn:E.
    + apply key_eqb_eq in E. now left.
    + right. now split.
Qed.

Lemma filter_length_all {A : Type} (f : A -> bool) (l : list A) :
  length (filter f l) = length l -> forall a, In a l -> f a = true.
Proof.
  induction l as [|b l IH]; simpl; intros Hlen a Hin; [contradiction|].
  pose proof (filter_length_le f l) as Hle.
  destruct (f b) eqn:Eb; simpl in Hlen; [|lia].
  destruct Hin as [->|Hin]; [assumption|]. apply IH; [lia | assumption].
Qed.

Lemma first_seen_length (ks : list pykey) :
  length (first_seen ks) <= length ks /\
  (length (first_seen ks) = length ks <-> distinct_keys ks = true).
Proof.
  induction ks as [|k ks [IHle IHiff]]; simpl; [split; [lia | tauto]|].
  pose proof (filter_length_le (fun k' => negb (key_eqb k k')) (first_seen ks)) as Hle.
  split; [lia|]. split.
  - intros Hlen. apply andb_true_intro. split.
    + apply negb_true_iff. destruct (existsb (key_eqb k) ks) eqn:E; [|reflexivity].
      apply existsb_key_In, first_seen_In in E.
      assert (Hall := filter_length_all (fun k' => negb (key_eqb k k'))
                        (first_seen ks) ltac:(lia) k E).
      simpl in Hall. now rewrite key_eqb_refl in Hall.
    + apply IHiff. lia.
  - intros H. apply andb_prop in H as [Hk Hks].
    assert (E : first_seen (k :: ks) = k :: ks)
      by (apply first_seen_distinct; simpl; now rewrite Hk, Hks).
    simpl in E. injection E as E. now rewrite E.
Qed.

(** C2, amended. A [dict] node whose children are N key/value sibling
    pairs, each value decoding to a value, decodes to a record with one
    entry per distinct key: the keys stand in the order of their first
    occurrence, each holds the value of its last occurrence, and there are
    at most N entries, exactly N if and only if the N keys are pairwise
    distinct, in which case the entries are the pairs in source order. *)
Theorem dict_pairs_decoding (fuel : nat) (x : option string)
    (ps : list (Element * Element)) (kvs : list (pykey * value)) :
  height (Elem "dict" x (sibling_pairs ps)) <= fuel ->
  Forall2 (pair_decodes decode) ps kvs ->
  exists d,
    parse_plist_value fuel (Elem "dict" x (sibling_pairs ps)) = Return (PDict d) /\
    dict_keys d = first_seen (map fst kvs) /\
    (forall k, dict_get d k = last_value kvs k) /\
    length d <= length ps /\
    (length d = length ps <-> distinct_keys (map fst kvs) = true) /\
    (distinct_keys (map fst kvs) = true -> d = kvs).
Proof.
  intros Hfuel Hps. exists (dict_update [] kvs).
  assert (Hkeys : dict_keys (dict_update [] kvs) = first_seen (map fst kvs)).
  { rewrite dict_keys_update. simpl.
    induction (first_seen (map fst kvs)) as [|a l IHl]; [reflexivity|].
    simpl. now rewrite IHl. }
  assert (Hlen : length (dict_update [] kvs) = length (first_seen (map fst kvs))).
  { rewrite <- Hkeys. unfold dict_keys. now rewrite length_map. }
  assert (HN : length ps = length (map fst kvs)).
  { rewrite length_map. exact (Forall2_length Hps). }
  destruct (first_seen_length (map fst kvs)) as [Hle Hiff].
  repeat split.
  - rewrite (decode_fuel _ _ Hfuel).
    rewrite <- (app_nil_r (sibling_pairs ps)).
    rewrite (decode_dict_pairs x ps [] (pair_decodes_keys _ _ _ Hps)).
    now rewrite (decode_pairs_returns _ _ _ Hps).
  - exact Hkeys.
  - intros k. rewrite dict_get_update. now destruct (last_value kvs k).
  - lia.
  - intros H. apply Hiff. lia.
  - intros H. apply Hiff in H. lia.
  - intros H. now apply (dict_update_distinct kvs []).
Qed.

Lemma dict_pairs_decoding_witness :
  exists d,
    parse_plist_value 2 (Elem "dict" None [key "Name"; str "So What"; key "Year"; int "1959"])
      = Return (PDict d) /\
    d = [(Some "Name", PStr "So What"); (Some "Year", PInt 1959)].
Proof.
  destruct (dict_pairs_decoding 2 None
              [(key "Name", str "So What"); (key "Year", int "1959")]
              [(Some "Name", PStr "So What"); (Some "Year", PInt 1959)]
              (le_n 2)) as (d & Hd & _ & _ & _ & _ & Heq).
  - repeat constructor.
  - exists d. split; [exact Hd | apply Heq; reflexivity].
Defined.

(** C2 as stated fails: two well-formed pairs with the same key decode to a
    record of one entry, not two. *)
Lemma repeated_key_one_entry :
  let ps := [(key "A", str "x"); (key "A", str "y")] in
  Forall2 (pair_decodes decode) ps [(Some "A", PStr "x"); (Some "A", PStr "y")] /\
  length ps = 2 /\
  parse_plist_value 2 (Elem "dict" None (sibling_pairs ps))
    = Return (PDict [(Some "A", PStr "y")]) /\
  length [(Some "A", PStr "y")] <> length ps.
Proof.
  cbv zeta. split; [repeat constructor|]. split; [reflexivity|].
  split; [reflexivity | discriminate].
Qed.

(** C4. A last child with no sibling after it adds no entry and raises
    nothing: behind any run of key/value pairs, the [dict] node decodes
    exactly as it does without that child, to the record of the pairs when
    their values decode. The document [key A, string x, key B] decodes to
    the one entry A: x. *)
Theorem dangling_key_dropped (fuel : nat) (x : option string)
    (ps : list (Element * Element)) (k : Element) :
  height (Elem "dict" x (sibling_pairs ps ++ [k])) <= fuel ->
  Forall (fun p => tag (fst p) = "key") ps ->
  tag k = "key" ->
  parse_plist_value fuel (Elem "dict" x (sibling_pairs ps ++ [k]))
    = decode (Elem "dict" x (sibling_pairs ps)) /\
  (forall kvs, Forall2 (pair_decodes decode) ps kvs ->
     parse_plist_value fuel (Elem "dict" x (sibling_pairs ps ++ [k]))
       = Return (PDict (dict_update [] kvs))) /\
  (forall fuel', height dangling_doc <= fuel' ->
     parse_plist_value fuel' dangling_doc = Return (PDict [(Some "A", PStr "x")])).
Proof.
  intros Hfuel Hps _.
  assert (E : parse_plist_value fuel (Elem "dict" x (sibling_pairs ps ++ [k]))
              = (r <- decode_pairs decode ps [] ;; Return (PDict r))).
  { rewrite (decode_fuel _ _ Hfuel), (decode_dict_pairs x ps [k] Hps).
    reflexivity. }
  split; [|split].
  - rewrite E. rewrite <- (app_nil_r (sibling_pairs ps)) at 1.
    now rewrite (decode_dict_pairs x ps [] Hps).
  - intros kvs Hkvs. rewrite E.
    now rewrite (decode_pairs_returns _ _ _ Hkvs).
  - intros fuel' Hfuel'. now rewrite (decode_fuel _ _ Hfuel').
Qed.

Lemma dangling_key_dropped_witness :
  parse_plist_value 2 dangling_doc = Return (PDict [(Some "A", PStr "x")]).
Proof.
  apply (proj1 (proj2 (dangling_key_dropped 2 None [(key "A", str "x")] (key "B")
                         (le_n 2) ltac:(repeat constructor) eq_refl))
           [(Some "A", PStr "x")]).
  repeat constructor.
Defined.

(** The walk of the [dict] loop is the decoding of the pairs its cursor
    takes. *)
Lemma walk_list_cursor_pairs rec cs : forall r,
  walk_list rec cs r =
  (r' <- decode_pairs rec (cursor_pairs cs) r ;; Return (PDict r')).
Proof.
  induction cs as [| k | k v rest IH2 IH1] using pairs_ind; intros r;
    try reflexivity.
  cbn [walk_list cursor_pairs]. destruct (tag k =? "key").
  - cbn [decode_pairs fst snd]. destruct (rec v); cbn [bind]; try reflexivity.
    apply IH2.
  - apply IH1.
Qed.

Lemma decode_pairs_app rec pre post : forall r,
  decode_pairs rec (pre ++ post) r =
  (d <- decode_pairs rec pre r ;; decode_pairs rec post d).
Proof.
  induction pre as [|p pre IH]; intros r; [reflexivity|].
  cbn [app decode_pairs]. destruct (rec (snd p)); cbn [bind]; try reflexivity.
  apply IH.
Qed.

Lemma decode_pairs_all rec ps :
  Forall (fun p => exists w, rec (snd p) = Return w) ps ->
  forall r, exists r', decode_pairs rec ps r = Return r'.
Proof.
  induction 1 as [|p ps [w Hw] _ IH]; intros r; [now exists r|].
  cbn [decode_pairs]. rewrite Hw. cbn [bind]. apply IH.
Qed.

Lemma dict_set_keeps_key (d : list (pykey * value)) (k k' : pykey) (v : value) :
  In k (dict_keys d) -> In k (dict_keys (dict_set d k' v)).
Proof.
  induction d as [|[k0 v0] d IH]; simpl; [contradiction|].
  destruct (key_eqb k0 k'); simpl; intros [->|Hin]; auto.
Qed.

Lemma dict_set_has_key (d : list (pykey * value)) (k : pykey) (v : value) :
  In k (dict_keys (dict_set d k v)).
Proof.
  induction d as [|[k0 v0] d IH]; simpl; [now left|].
  destruct (key_eqb k0 k) eqn:E; simpl; [|now right].
  apply key_eqb_eq in E. now left.
Qed.

(** Later pairs take no key out of the record, and leave the value of a
    key they do not assign. *)
Lemma decode_pairs_keeps_key rec ps k : forall r r',
  decode_pairs rec ps r = Return r' ->
  In k (dict_keys r) -> In k (dict_keys r').
Proof.
  induction ps as [|p ps IH]; intros r r' H Hin.
  - injection H as <-. exact Hin.
  - cbn [decode_pairs] in H. destruct (rec (snd p)) as [w| |]; cbn [bind] in H;
      try discriminate.
    apply (IH _ _ H). now apply dict_set_keeps_key.
Qed.

Lemma decode_pairs_keeps_value rec ps k w : forall r r',
  decode_pairs rec ps r = Return r' ->
  Forall (fun p => text (fst p) <> k) ps ->
  dict_get r k = Some w -> dict_get r' k = Some w.
Proof.
  induction ps as [|p ps IH]; intros r r' H Hps Hget.
  - now injection H as <-.
  - cbn [decode_pairs] in H. destruct (rec (snd p)) as [w'| |]; cbn [bind] in H;
      try discriminate.
    inversion Hps as [|? ? Hp Hps']; subst.
    apply (IH _ _ H Hps'). now rewrite dict_get_set_other.
Qed.

(** A pair the cursor takes is a [key] child and the sibling right after
    it. *)
Lemma cursor_pairs_adjacent cs k v :
  In (k, v) (cursor_pairs cs) ->
  tag k = "key" /\ exists l1 l2, cs = l1 ++ k :: v :: l2.
Proof.
  induction cs as [| k0 | k0 v0 rest IH2 IH1] using pairs_ind;
    try contradiction.
  cbn [cursor_pairs]. destruct (tag k0 =? "key") eqn:E.
  - intros [Heq|Hin].
    + injection Heq as <- <-. apply String.eqb_eq in E.
      split; [exact E|]. now exists [], rest.
    + destruct (IH2 Hin) as (Hk & l1 & l2 & ->).
      split; [exact Hk|]. now exists (k0 :: v0 :: l1), l2.
  - intros Hin. destruct (IH1 Hin) as (Hk & l1 & l2 & Hcs).
    split; [exact Hk|]. exists (k0 :: l1), l2. simpl. now rewrite Hcs.
Qed.

(** Behind key/value pairs the cursor stands on the next child. *)
Lemma cursor_pairs_siblings ps rest :
  Forall (fun p => tag (fst p) = "key") ps ->
  cursor_pairs (sibling_pairs ps ++ rest) = ps ++ cursor_pairs rest.
Proof.
  induction 1 as [|[k v] ps Hk _ IH]; [reflexivity|].
  simpl in Hk. cbn [sibling_pairs flat_map fst snd app cursor_pairs].
  rewrite Hk. cbn [String.eqb Ascii.eqb Bool.eqb]. f_equal. exact IH.
Qed.

(** C10. A [key] child without text that the cursor of the loop takes
    with the sibling after it is paired like any other, wherever in the
    [dict] node it stands and whatever stands before and after: the pairs
    before it are decoded, then its sibling, and the entry is assigned
    under the key [None] before the walk goes on. The pair is not
    rejected: the node decodes whenever the values of its pairs do. It is
    not skipped: in the record the node decodes to, [None] is a key, and
    it holds the decoded sibling unless a later pair has a key without
    text as well and overwrites it. *)
Theorem absent_key_text_entry (fuel : nat) (x : option string) (cs : list Element)
    (pre post : list (Element * Element)) (k v : Element) :
  height (Elem "dict" x cs) <= fuel ->
  cursor_pairs cs = pre ++ (k, v) :: post ->
  text k = None ->
  (tag k = "key" /\ exists l1 l2, cs = l1 ++ k :: v :: l2) /\
  parse_plist_value fuel (Elem "dict" x cs) =
    (d <- decode_pairs decode pre [] ;;
     w <- decode v ;;
     r <- decode_pairs decode post (dict_set d None w) ;;
     Return (PDict r)) /\
  (Forall (fun p => exists w, decode (snd p) = Return w) (cursor_pairs cs) ->
   exists r, parse_plist_value fuel (Elem "dict" x cs) = Return (PDict r)) /\
  (forall r, parse_plist_value fuel (Elem "dict" x cs) = Return (PDict r) ->
     exists w, decode v = Return w /\
       In None (dict_keys r) /\
       (Forall (fun p => text (fst p) <> None) post -> dict_get r None = Some w)).
Proof.
  intros Hfuel Hcs Hx.
  assert (E : parse_plist_value fuel (Elem "dict" x cs) =
              (d <- decode_pairs decode pre [] ;;
               w <- decode v ;;
               r <- decode_pairs decode post (dict_set d None w) ;;
               Return (PDict r))).
  { rewrite (decode_fuel _ _ Hfuel), (decode_dict "dict" x cs eq_refl).
    rewrite walk_list_cursor_pairs, Hcs, decode_pairs_app.
    destruct (decode_pairs decode pre []) as [d| |]; cbn [bind]; try reflexivity.
    cbn [decode_pairs fst snd]. rewrite Hx.
    destruct (decode v); cbn [bind]; reflexivity. }
  split; [|split; [exact E|split]].
  - apply cursor_pairs_adjacent. rewrite Hcs. apply in_or_app. right. now left.
  - intros Hall.
    rewrite (decode_fuel _ _ Hfuel), (decode_dict "dict" x cs eq_refl).
    rewrite walk_list_cursor_pairs.
    destruct (decode_pairs_all decode _ Hall []) as [r ->]. now exists r.
  - intros r Hr. rewrite E in Hr.
    destruct (decode_pairs decode pre []) as [d| |]; cbn [bind] in Hr;
      try discriminate.
    destruct (decode v) as [w| |]; cbn [bind] in Hr; try discriminate.
    destruct (decode_pairs decode post (dict_set d None w)) as [r'| |] eqn:Hpost;
      cbn [bind] in Hr; try discriminate.
    injection Hr as <-. exists w. split; [reflexivity|]. split.
    + apply (decode_pairs_keeps_key _ _ _ _ _ Hpost). apply dict_set_has_key.
    + intros Hlater. apply (decode_pairs_keeps_value _ _ _ _ _ _ Hpost Hlater).
      apply dict_get_set_same.
Qed.

Lemma absent_key_text_entry_witness :
  parse_plist_value 2 absent_key_doc
  = Return (PDict [(Some "Name", PStr "So What"); (None, PInt 7);
                   (Some "Album", PStr "Kind of Blue")]) /\
  dict_get [(Some "Name", PStr "So What"); (None, PInt 7);
            (Some "Album", PStr "Kind of Blue")] None = Some (PInt 7).
Proof.
  pose (facts := absent_key_text_entry 2 None (children absent_key_doc)
                   [(key "Name", str "So What")] [(key "Album", str "Kind of Blue")]
                   (Elem "key" None []) (int "7") (le_n 2) eq_refl eq_refl).
  split.
  - exact (eq_trans (proj1 (proj2 facts)) eq_refl).
  - destruct (proj2 (proj2 (proj2 facts)) _ eq_refl) as (w & Hw & _ & Hget).
    injection Hw as <-. apply Hget. repeat constructor; discriminate.
Defined.

(** ** Records: the cursor walk of the specification *)

Lemma cursor_walk_det dec cs i r o1 o2 :
  cursor_walk dec cs i r o1 -> cursor_walk dec cs i r o2 -> o1 = o2.
Proof.
  intros H1. revert o2.
  induction H1 as [i r Hend | i r k v x o Hk Ht Hv Hx _ IH
                  | i r k v e Hk Ht Hv He | i r k o Hk Hor _ IH];
    intros o2 H2; inversion H2; subst;
    try (apply nth_error_None in Hend; congruence);
    try match goal with
        | H : length cs <= _ |- _ => apply nth_error_None in H; congruence
        end;
    repeat match goal with
           | H : nth_error cs ?j = Some ?a, H' : nth_error cs ?j = Some ?b |- _ =>
               assert (a = b) by congruence; subst b; clear H'
           end;
    try match goal with H : _ \/ _ |- _ => destruct H; congruence end;
    try congruence.
  - match goal with H : dec v = Return ?y |- _ =>
      assert (y = x) by congruence; subst y end.
    now apply IH.
  - now apply IH.
Qed.

Lemma walk_list_cursor dec :
  (forall e, dec e <> OutOfFuel) ->
  forall rest pre r,
    cursor_walk dec (pre ++ rest) (length pre) r (walk_list dec rest r).
Proof.
  intros Hdec rest.
  induction rest as [| k | k v rest IH2 IH1] using pairs_ind; intros pre r.
  - apply walk_end. rewrite app_nil_r. lia.
  - apply walk_skip with (k := k).
    + rewrite nth_error_app2 by lia. now rewrite Nat.sub_diag.
    + right. apply nth_error_None. rewrite length_app. simpl. lia.
    + apply walk_end. rewrite length_app. simpl. lia.
  - assert (Hk : nth_error (pre ++ k :: v :: rest) (length pre) = Some k)
      by (rewrite nth_error_app2 by lia; now rewrite Nat.sub_diag).
    assert (Hv : nth_error (pre ++ k :: v :: rest) (length pre + 1) = Some v).
    { rewrite nth_error_app2 by lia.
      replace (length pre + 1 - length pre) with 1 by lia. reflexivity. }
    cbn [walk_list]. destruct (tag k =? "key") eqn:Et.
    + apply String.eqb_eq in Et.
      destruct (dec v) as [w|e|] eqn:Ev; cbn [bind].
      * apply walk_pair with (k := k) (v := v) (x := w); try assumption.
        replace (pre ++ k :: v :: rest) with ((pre ++ [k; v]) ++ rest)
          by (now rewrite <- app_assoc).
        replace (length pre + 2) with (length (pre ++ [k; v]))
          by (rewrite length_app; reflexivity).
        apply IH2.
      * now apply walk_fail with (k := k) (v := v).
      * now apply Hdec in Ev.
    + apply String.eqb_neq in Et.
      apply walk_skip with (k := k); [assumption | now left |].
      replace (pre ++ k :: v :: rest) with ((pre ++ [k]) ++ v :: rest)
        by (now rewrite <- app_assoc).
      replace (length pre + 1) with (length (pre ++ [k]))
        by (rewrite length_app; reflexivity).
      apply IH1.
Qed.

(** C1. Decoding a [dict] node is the cursor walk over its children: its
    outcome is the outcome of the walk started at the first child with the
    empty record, and no other. Where the walk stores an entry under a key
    the record already has, the entry keeps its place and takes the new
    value. *)
Theorem dict_decoding_is_cursor_walk (fuel : nat) (x : option string)
    (cs : list Element) :
  height (Elem "dict" x cs) <= fuel ->
  (forall o, parse_plist_value fuel (Elem "dict" x cs) = o <->
             cursor_walk decode cs 0 [] o) /\
  (forall (r : list (pykey * value)) k v,
     dict_get (dict_set r k v) k = Some v /\
     (In k (dict_keys r) -> dict_keys (dict_set r k v) = dict_keys r)).
Proof.
  intros Hfuel. split.
  - rewrite (decode_fuel _ _ Hfuel), (decode_dict "dict" x cs eq_refl).
    pose proof (walk_list_cursor decode decode_total cs [] []) as Hwalk.
    simpl in Hwalk. intros o. split.
    + intros <-. exact Hwalk.
    + intros Ho. exact (cursor_walk_det _ _ _ _ _ _ Hwalk Ho).
  - intros r k v. split; [apply dict_get_set_same | apply dict_keys_set_old].
Qed.

Lemma dict_decoding_is_cursor_walk_witness :
  cursor_walk decode [key "A"; str "x"; key "B"] 0 []
    (Return (PDict [(Some "A", PStr "x")])).
Proof.
  apply (proj1 (dict_decoding_is_cursor_walk 2 None [key "A"; str "x"; key "B"]
                  (le_n 2))).
  reflexivity.
Defined.

(** ** Failures *)

Lemma walk_list_all_return rec cs :
  Forall (fun c => exists v, rec c = Return v) cs ->
  forall r, exists d, walk_list rec cs r = Return (PDict d).
Proof.
  induction cs as [| k | k v rest IH2 IH1] using pairs_ind; intros H r;
    try (eexists; reflexivity).
  cbn [walk_list]. inversion H as [|? ? _ Hrest]; subst.
  destruct (tag k =? "key"); [|now apply IH1].
  inversion Hrest as [|? ? Hv Hrest']; subst.
  destruct Hv as [w Hv]. rewrite Hv. cbn [bind]. now apply IH2.
Qed.

Lemma list_comp_all_return rec cs :
  Forall (fun c => exists v, rec c = Return v) cs ->
  exists vs, list_comp rec cs = Return vs.
Proof.
  induction 1 as [|c cs [v Hv] _ [vs Hvs]]; [now exists []|].
  exists (v :: vs). simpl. now rewrite Hv, Hvs.
Qed.

Lemma ints_ok_returns e : ints_ok e = true -> exists v, decode e = Return v.
Proof.
  induction e as [t x cs IH] using Element_children_ind.
  cbn [ints_ok]. intros H. apply andb_prop in H as [Hint Hcs].
  assert (Hall : Forall (fun c => exists v, decode c = Return v) cs).
  { rewrite forallb_forall in Hcs. rewrite Forall_forall in *.
    intros c Hc. apply IH; [assumption | now apply Hcs]. }
  clear IH Hcs. rewrite decode_unfold. unfold parse_body. cbn [tag text children].
  unfold int_text_ok in Hint.
  destruct (t =? "integer") eqn:Ei; cbn [negb orb] in Hint.
  { apply String.eqb_eq in Ei. subst t. cbn [String.eqb Ascii.eqb Bool.eqb].
    destruct x as [s|]; cbn [truthy]; [|eexists; reflexivity].
    destruct (s =? EmptyString); cbn [negb orb int_of_text] in *;
      [eexists; reflexivity|].
    destruct (py_int s); [eexists; reflexivity | discriminate]. }
  destruct (t =? "string"); [eexists; reflexivity|].
  destruct (t =? "true"); [eexists; reflexivity|].
  destruct (t =? "false"); [eexists; reflexivity|].
  destruct (t =? "date"); [eexists; reflexivity|].
  destruct (t =? "dict").
  { rewrite dict_loop_walk_list.
    destruct (walk_list_all_return decode cs Hall []) as [d Hd]. eauto. }
  destruct (t =? "array"); [|eexists; reflexivity].
  destruct (list_comp_all_return decode cs Hall) as [vs ->].
  eexists; reflexivity.
Qed.

Lemma walk_list_raises rec cs c :
  (forall e, settled (rec e)) ->
  In c (paired_values cs) -> rec c = Raise ValueError ->
  forall r, walk_list rec cs r = Raise ValueError.
Proof.
  intros Hrec. induction cs as [| k | k v rest IH2 IH1] using pairs_ind;
    intros Hin Hc r; try contradiction.
  cbn [walk_list paired_values] in *.
  destruct (tag k =? "key"); [|now apply IH1].
  destruct Hin as [->|Hin]; [now rewrite Hc|].
  destruct (Hrec v) as [[w ->]| ->]; cbn [bind]; [now apply IH2 | reflexivity].
Qed.

Lemma list_comp_raises rec cs c :
  (forall e, settled (rec e)) ->
  In c cs -> rec c = Raise ValueError ->
  list_comp rec cs = Raise ValueError.
Proof.
  intros Hrec. induction cs as [|c' cs IH]; intros Hin Hc; [contradiction|].
  simpl. destruct Hin as [->|Hin]; [now rewrite Hc|].
  destruct (Hrec c') as [[w ->]| ->]; cbn [bind]; [|reflexivity].
  now rewrite IH.
Qed.

Lemma decoded_in_raises e e' :
  decoded_in e e' -> (exists x, decode e' = Raise x) ->
  decode e = Raise ValueError.
Proof.
  induction 1 as [e | e c e' Hc _ IH]; intros Hraise.
  - destruct Hraise as [x Hx].
    destruct (decode_settled e) as [[v Hv]|Hv]; congruence.
  - specialize (IH Hraise). destruct e as [t x cs].
    unfold decoded_children in Hc. cbn [tag children] in Hc.
    destruct (t =? "dict") eqn:Ed.
    + apply String.eqb_eq in Ed. rewrite (decode_dict t x cs Ed).
      exact (walk_list_raises decode cs c decode_settled Hc IH []).
    + destruct (t =? "array") eqn:Ea; [|contradiction].
      apply String.eqb_eq in Ea. rewrite (decode_array t x cs Ea).
      now rewrite (list_comp_raises decode cs c decode_settled Hc IH).
Qed.

Lemma walk_list_raise_inv rec cs :
  forall r x, walk_list rec cs r = Raise x ->
  exists c, In c (paired_values cs) /\ rec c = Raise x.
Proof.
  induction cs as [| k | k v rest IH2 IH1] using pairs_ind; intros r x H;
    try discriminate.
  cbn [walk_list paired_values] in *.
  destruct (tag k =? "key").
  - destruct (rec v) as [w|e|] eqn:Ev; cbn [bind] in H; try discriminate.
    + destruct (IH2 _ _ H) as [c [Hc Hx]]. exists c. split; [now right | assumption].
    + exists v. split; [now left | congruence].
  - now apply IH1 in H.
Qed.

Lemma list_comp_raise_inv rec cs x :
  list_comp rec cs = Raise x -> exists c, In c cs /\ rec c = Raise x.
Proof.
  induction cs as [|c cs IH]; simpl; intros H; [discriminate|].
  destruct (rec c) as [w|e|] eqn:Ec; cbn [bind] in H; try discriminate.
  - destruct (list_comp rec cs) as [ws|e|]; cbn [bind] in H; try discriminate.
    destruct IH as [c' [Hc' Hx]]; [congruence|].
    exists c'. split; [now right | assumption].
  - exists c. split; [now left | congruence].
Qed.

Lemma paired_values_incl cs c : In c (paired_values cs) -> In c cs.
Proof.
  induction cs as [| k | k v rest IH2 IH1] using pairs_ind; simpl; intros H;
    try contradiction.
  destruct (tag k =? "key"); simpl in *; tauto.
Qed.

(** Whatever decoding raises comes from an [integer] node it reached whose
    text [int] rejects. *)
Lemma decode_raise_origin e x :
  decode e = Raise x ->
  exists e', decoded_in e e' /\ tag e' = "integer" /\
             exists s, text e' = Some s /\ s <> EmptyString /\ py_int s = None.
Proof.
  revert x. induction e as [t tx cs IH] using Element_children_ind. intros x H.
  assert (Hchild : forall c, In c (decoded_children (Elem t tx cs)) ->
            decode c = Raise x ->
            exists e', decoded_in (Elem t tx cs) e' /\ tag e' = "integer" /\
                       exists s, text e' = Some s /\ s <> EmptyString /\
                                 py_int s = None).
  { intros c Hc Hx.
    assert (Hcs : In c cs).
    { unfold decoded_children in Hc. cbn [tag children] in Hc.
      destruct (t =? "dict"); [now apply paired_values_incl|].
      destruct (t =? "array"); [assumption | contradiction]. }
    rewrite Forall_forall in IH.
    destruct (IH c Hcs x Hx) as (e' & Hin & Hrest).
    exists e'. split; [now apply decoded_below with (c := c) | exact Hrest]. }
  rewrite decode_unfold in H. unfold parse_body in H.
  unfold decoded_children in Hchild. cbn [tag text children] in *.
  destruct (t =? "string") eqn:E1; [discriminate|].
  destruct (t =? "integer") eqn:E2.
  { destruct tx as [s|]; cbn [truthy] in H; [|discriminate].
    destruct (s =? EmptyString) eqn:Es; cbn [negb int_of_text] in H;
      [discriminate|].
    destruct (py_int s) eqn:Ei; [discriminate|].
    exists (Elem t (Some s) cs). apply String.eqb_eq in E2.
    apply String.eqb_neq in Es.
    split; [constructor|]. split; [exact E2|]. now exists s. }
  destruct (t =? "true"); [discriminate|].
  destruct (t =? "false"); [discriminate|].
  destruct (t =? "date"); [discriminate|].
  destruct (t =? "dict").
  { rewrite dict_loop_walk_list in H.
    destruct (walk_list_raise_inv _ _ _ _ H) as [c [Hc Hx]]. eauto. }
  destruct (t =? "array"); [|discriminate].
  destruct (list_comp decode cs) as [vs|e|] eqn:El; cbn [bind] in H;
    try discriminate.
  injection H as ->.
  destruct (list_comp_raise_inv _ _ _ El) as [c [Hc Hx]]. eauto.
Qed.

(** C5. Decoding a tree in which every [integer] node has empty, absent or
    numeric text returns a value, whatever unknown tags and dangling keys
    the tree holds. An error raised at any node the decoding reaches makes
    the whole call raise [ValueError], with no value returned; and every
    error raised comes from such a malformed [integer] node. *)
Theorem decode_fails_only_on_malformed_integer (fuel : nat) (e : Element) :
  height e <= fuel ->
  (ints_ok e = true -> exists v, parse_plist_value fuel e = Return v) /\
  (forall e', decoded_in e e' -> (exists x, decode e' = Raise x) ->
     parse_plist_value fuel e = Raise ValueError) /\
  (forall x, parse_plist_value fuel e = Raise x ->
     x = ValueError /\
     exists e', decoded_in e e' /\ tag e' = "integer" /\
                exists s, text e' = Some s /\ s <> EmptyString /\ py_int s = None).
Proof.
  intros Hfuel. rewrite (decode_fuel _ _ Hfuel). split; [|split].
  - apply ints_ok_returns.
  - apply decoded_in_raises.
  - intros x Hx. split; [|now apply decode_raise_origin with (x := x)].
    destruct (decode_settled e) as [[v Hv]|Hv]; congruence.
Qed.

Lemma decode_fails_only_on_malformed_integer_witness :
  (exists v, parse_plist_value 5 library_doc = Return v) /\
  parse_plist_value 3 broken_doc = Raise ValueError.
Proof.
  split.
  - apply (proj1 (decode_fails_only_on_malformed_integer 5 library_doc (le_n 5))).
    reflexivity.
  - apply (proj1 (proj2 (decode_fails_only_on_malformed_integer 3 broken_doc
                           (le_n 3)))
             (int "abc")).
    + apply decoded_below with (c := Elem "array" None [str "a"; int "abc"]);
        [now left|].
      apply decoded_below with (c := int "abc"); [right; now left|].
      constructor.
    + exists ValueError. reflexivity.
Defined.

(** ** Decimal numerals *)

Lemma digit_char (d : Z) :
  (0 <= d < 10)%Z -> digit_of (ascii_of_nat (48 + Z.to_nat d)) = Some d.
Proof.
  intros H.
  assert (E : (d = 0 \/ d = 1 \/ d = 2 \/ d = 3 \/ d = 4 \/ d = 5 \/ d = 6 \/
               d = 7 \/ d = 8 \/ d = 9)%Z) by lia.
  repeat (destruct E as [->|E]; [reflexivity | idtac]). now subst.
Qed.

Lemma is_digit_range c : is_digit c -> 48 <= nat_of_ascii c <= 57.
Proof.
  intros [d Hd]. unfold digit_of in Hd.
  destruct (48 <=? nat_of_ascii c)%nat eqn:E1; [|discriminate].
  destruct (nat_of_ascii c <=? 57)%nat eqn:E2; [|discriminate].
  apply Nat.leb_le in E1, E2. lia.
Qed.

Lemma is_digit_not_space c : is_digit c -> int_space c = false.
Proof.
  intros H. apply is_digit_range in H. unfold int_space.
  repeat match goal with
         | |- context [(?a <=? ?b)%nat] => destruct (Nat.leb_spec a b)
         | |- context [(?a =? ?b)%nat] => destruct (Nat.eqb_spec a b)
         end; simpl; try reflexivity; lia.
Qed.

Lemma is_digit_not_char c (c' : ascii) :
  is_digit c -> digit_of c' = None -> Ascii.eqb c c' = false.
Proof.
  intros [d Hd] Hc'.
  destruct (Ascii.eqb c c') eqn:E; [|reflexivity].
  apply Ascii.eqb_eq in E. subst. congruence.
Qed.

Lemma digits_value_shift (l : list ascii) : forall a,
  Forall is_digit l ->
  digits_value l a = (a * 10 ^ Z.of_nat (length l) + digits_value l 0)%Z.
Proof.
  induction l as [|c l IH]; intros a H.
  - simpl. lia.
  - inversion H as [|? ? [d Hd] Hl]; subst.
    unfold digits_value in *. cbn [fold_left length]. rewrite Hd.
    rewrite (IH (10 * a + d)%Z Hl), (IH (10 * 0 + d)%Z Hl).
    rewrite Nat2Z.inj_succ, Z.pow_succ_r by lia. ring.
Qed.

Lemma scan_digits_run (l : list ascii) : forall after acc count,
  Forall is_digit l -> l <> [] \/ after = true ->
  scan_digits after l acc count = Some (digits_value l acc, count + length l).
Proof.
  induction l as [|c l IH]; intros after acc count H Hne.
  - destruct Hne as [Hne| ->]; [contradiction|]. simpl. now rewrite Nat.add_0_r.
  - inversion H as [|? ? [d Hd] Hl]; subst.
    unfold digits_value. cbn [scan_digits fold_left length]. rewrite Hd.
    rewrite (IH true _ _ Hl) by now right.
    unfold digits_value. do 2 f_equal. lia.
Qed.

Section DigitsOf.
Local Open Scope Z_scope.

Lemma digits_of_digits fuel : forall n acc,
  0 <= n -> Forall is_digit acc -> Forall is_digit (digits_of fuel n acc).
Proof.
  induction fuel as [|fuel IH]; intros n acc Hn Hacc; [exact Hacc|].
  cbn [digits_of].
  assert (Hd : is_digit (ascii_of_nat (48 + Z.to_nat (n mod 10)))).
  { exists (n mod 10). apply digit_char. apply Z.mod_pos_bound. lia. }
  destruct (n <? 10); [now constructor|].
  apply IH; [apply Z.div_pos; lia | now constructor].
Qed.

Lemma digits_of_length fuel : forall n acc,
  (length acc < length (digits_of (S fuel) n acc) <= S fuel + length acc)%nat.
Proof.
  induction fuel as [|fuel IH]; intros n acc.
  - cbn [digits_of]. destruct (n <? 10); cbn [digits_of length]; lia.
  - change (digits_of (S (S fuel)) n acc) with
      (let acc' := ascii_of_nat (48 + Z.to_nat (n mod 10)) :: acc in
       if n <? 10 then acc' else digits_of (S fuel) (n / 10) acc').
    cbv zeta. destruct (n <? 10); [simpl; lia|].
    specialize (IH (n / 10) (ascii_of_nat (48 + Z.to_nat (n mod 10)) :: acc)).
    cbn [length] in IH. lia.
Qed.

Lemma digits_of_value fuel : forall n acc,
  0 <= n < 10 ^ Z.of_nat fuel -> Forall is_digit acc ->
  digits_value (digits_of fuel n acc) 0 =
  n * 10 ^ Z.of_nat (length acc) + digits_value acc 0.
Proof.
  induction fuel as [|fuel IH]; intros n acc Hn Hacc.
  - simpl in Hn. assert (n = 0) by lia. subst. simpl. lia.
  - cbn [digits_of].
    assert (Hmod : 0 <= n mod 10 < 10) by (apply Z.mod_pos_bound; lia).
    assert (Hd : digit_of (ascii_of_nat (48 + Z.to_nat (n mod 10))) = Some (n mod 10))
      by now apply digit_char.
    assert (Hcons : forall a,
      digits_value (ascii_of_nat (48 + Z.to_nat (n mod 10)) :: acc) a =
      digits_value acc (10 * a + n mod 10)).
    { intros a. unfold digits_value. cbn [fold_left]. now rewrite Hd. }
    destruct (n <? 10) eqn:E.
    + apply Z.ltb_lt in E. rewrite Hcons, (digits_value_shift acc _ Hacc).
      rewrite Z.mod_small by lia. lia.
    + apply Z.ltb_ge in E.
      rewrite Nat2Z.inj_succ, Z.pow_succ_r in Hn by lia.
      rewrite IH.
      * rewrite Hcons, (digits_value_shift acc _ Hacc).
        cbn [length]. rewrite Nat2Z.inj_succ, Z.pow_succ_r by lia.
        pose proof (Z.div_mod n 10 ltac:(lia)) as Hdm.
        set (p := 10 ^ Z.of_nat (length acc)). nia.
      * split; [apply Z.div_pos; lia|].
        apply Z.div_lt_upper_bound; lia.
      * constructor; [now exists (n mod 10) | exact Hacc].
Qed.

Lemma log2_fuel n :
  0 <= n -> n < 10 ^ Z.of_nat (S (Z.to_nat (Z.log2 n))).
Proof.
  intros Hn. pose proof (Z.log2_nonneg n) as Hlog.
  rewrite Nat2Z.inj_succ, Z2Nat.id by lia.
  destruct (Z.eq_dec n 0) as [->|Hne]; [reflexivity|].
  destruct (Z.log2_spec n ltac:(lia)) as [_ Hup].
  apply Z.lt_le_trans with (1 := Hup).
  apply Z.pow_le_mono_l. lia.
Qed.
End DigitsOf.

Lemma lstrip_digit_head (l tail : list ascii) :
  Forall is_digit l -> l <> [] -> lstrip (l ++ tail) = l ++ tail.
Proof.
  intros H Hne. destruct l as [|c l]; [contradiction|].
  inversion H; subst. simpl. now rewrite is_digit_not_space.
Qed.

Lemma strip_numeral (sign ds : list ascii) :
  sign = [] \/ sign = ["-"%char] ->
  Forall is_digit ds -> ds <> [] ->
  rstrip (lstrip (sign ++ ds)) = sign ++ ds.
Proof.
  intros Hsign Hds Hne.
  assert (Hl : lstrip (sign ++ ds) = sign ++ ds).
  { destruct Hsign as [-> | ->]; [|reflexivity].
    simpl. rewrite <- (app_nil_r ds). now apply lstrip_digit_head. }
  rewrite Hl. unfold rstrip. rewrite rev_app_distr.
  rewrite lstrip_digit_head.
  - now rewrite <- rev_app_distr, rev_involutive.
  - now apply Forall_rev.
  - intros E. apply (f_equal (@rev ascii)) in E.
    rewrite rev_involutive in E. contradiction.
Qed.

Lemma max_str_digits_64 : 64 <= int_max_str_digits.
Proof. apply Nat.leb_le. vm_compute. reflexivity. Qed.

(** [int] reads back the numeral of every 64-bit integer. *)
Lemma py_int_decimal (n : Z) :
  (- 2 ^ 63 <= n < 2 ^ 63)%Z -> py_int (decimal n) = Some n.
Proof.
  intros Hn. unfold py_int, decimal.
  rewrite list_ascii_of_string_of_list_ascii.
  set (fuel := Z.to_nat (Z.log2 (Z.abs n))).
  set (ds := digits_of (S fuel) (Z.abs n) []).
  assert (Habs : (0 <= Z.abs n)%Z) by lia.
  assert (Hds : Forall is_digit ds) by (now apply digits_of_digits).
  assert (Hlen : 0 < length ds <= 64).
  { pose proof (digits_of_length fuel (Z.abs n) []) as H. fold ds in H.
    simpl in H.
    assert (Z.log2 (Z.abs n) <= 63)%Z.
    { rewrite <- (Z.log2_pow2 63) by lia. apply Z.log2_le_mono. lia. }
    pose proof (Z.log2_nonneg (Z.abs n)). unfold fuel. lia. }
  assert (Hne : ds <> []) by (intros E; rewrite E in Hlen; simpl in Hlen; lia).
  assert (Hval : digits_value ds 0 = Z.abs n).
  { unfold ds. rewrite digits_of_value; [simpl; lia | | constructor].
    split; [lia | now apply log2_fuel]. }
  assert (Hscan : scan_digits false ds 0 0 = Some (Z.abs n, length ds)).
  { rewrite (scan_digits_run ds false 0%Z 0 Hds) by now left.
    now rewrite Hval. }
  assert (Hmax : (int_max_str_digits <? length ds)%nat = false).
  { apply Nat.ltb_ge. pose proof max_str_digits_64. lia. }
  destruct (n <? 0)%Z eqn:Eneg.
  - apply Z.ltb_lt in Eneg.
    change ("-"%char :: ds) with (["-"%char] ++ ds).
    rewrite strip_numeral by (try assumption; now right).
    unfold int_of_numeral. cbn [app Ascii.eqb Bool.eqb fst snd].
    rewrite Hscan, Hmax. f_equal. lia.
  - apply Z.ltb_ge in Eneg.
    change ds with ([] ++ ds).
    rewrite strip_numeral by (try assumption; now left).
    unfold int_of_numeral. cbn [app]. destruct ds as [|c r]; [contradiction|].
    inversion Hds as [|? ? Hc _]; subst.
    rewrite (is_digit_not_char c "-" Hc) by reflexivity.
    rewrite (is_digit_not_char c "+" Hc) by reflexivity.
    cbn [fst snd]. rewrite Hscan, Hmax. f_equal. lia.
Qed.

Lemma decimal_not_empty (n : Z) : decimal n <> EmptyString.
Proof.
  unfold decimal. intros E.
  apply (f_equal list_ascii_of_string) in E.
  rewrite list_ascii_of_string_of_list_ascii in E.
  change (list_ascii_of_string EmptyString) with (@nil ascii) in E.
  pose proof (digits_of_length (Z.to_nat (Z.log2 (Z.abs n))) (Z.abs n) []) as H.
  destruct (n <? 0)%Z; [discriminate|].
  rewrite E in H. cbn [length] in H. lia.
Qed.

(** ** Round trip through the encoder *)

(** Induction on a value with the property known for the values it holds. *)
Lemma value_nested_ind (P : value -> Prop) :
  P PNone ->
  (forall s, P (PStr s)) ->
  (forall n, P (PInt n)) ->
  (forall b, P (PBool b)) ->
  (forall items, Forall (fun kv => P (snd kv)) items -> P (PDict items)) ->
  (forall elems, Forall P elems -> P (PList elems)) ->
  forall v, P v.
Proof.
  intros HNone HStr HInt HBool HDict HList.
  fix IH 1. intros [ |s|n|b|items|elems].
  - exact HNone.
  - apply HStr.
  - apply HInt.
  - apply HBool.
  - apply HDict. induction items as [|[k x] items IHitems]; constructor;
      [apply IH | exact IHitems].
  - apply HList. induction elems as [|x elems IHelems]; constructor;
      [apply IH | exact IHelems].
Qed.

Lemma encode_dict_children (items : list (pykey * value)) :
  flat_map (fun kv => [Elem "key" (fst kv) []; encode (snd kv)]) items =
  sibling_pairs (map (fun kv => (Elem "key" (fst kv) [], encode (snd kv))) items).
Proof.
  unfold sibling_pairs. induction items as [|kv items IH]; [reflexivity|].
  simpl. now rewrite IH.
Qed.

(** Decoding undoes the encoder on every DecodedValue. *)
Lemma decode_encode (v : value) :
  is_decoded_value v = true -> decode (encode v) = Return v.
Proof.
  induction v as [ |s|n|b|items IH|elems IH] using value_nested_ind;
    cbn [is_decoded_value]; intros Hv.
  - discriminate.
  - cbn [encode]. rewrite decode_unfold. unfold parse_body. simpl.
    destruct (s =? EmptyString) eqn:E; [|reflexivity].
    apply String.eqb_eq in E. now subst.
  - cbn [encode]. rewrite decode_unfold. unfold parse_body.
    cbn [tag text String.eqb Ascii.eqb Bool.eqb truthy int_of_text].
    pose proof (decimal_not_empty n) as Hne. apply String.eqb_neq in Hne.
    rewrite Hne. cbn [negb].
    apply andb_prop in Hv as [Hlo Hhi].
    apply Z.leb_le in Hlo. apply Z.ltb_lt in Hhi.
    now rewrite py_int_decimal.
  - destruct b; reflexivity.
  - apply andb_prop in Hv as [Hkeys Hitems].
    cbn [encode]. rewrite encode_dict_children.
    set (ps := map (fun kv => (Elem "key" (fst kv) [], encode (snd kv))) items).
    assert (Hps : Forall2 (pair_decodes decode) ps items).
    { unfold ps. clear ps Hkeys.
      induction items as [|kv items IHitems]; [constructor|].
      inversion IH as [|? ? Hkv IH']; subst.
      simpl in Hitems. apply andb_prop in Hitems as [Hhd Hitems].
      apply andb_prop in Hhd as [_ Hhd].
      constructor; [|now apply IHitems].
      repeat split. now apply Hkv. }
    rewrite <- (app_nil_r (sibling_pairs ps)).
    rewrite (decode_dict_pairs None ps [] (pair_decodes_keys _ _ _ Hps)).
    rewrite (decode_pairs_returns _ _ _ Hps). cbn [bind walk_list].
    now rewrite (dict_update_distinct items []).
  - cbn [encode]. rewrite (decode_array "array" None _ eq_refl).
    assert (Hl : list_comp decode (map encode elems) = Return elems).
    { apply list_comp_returns.
      induction elems as [|x elems IHelems]; [constructor|].
      inversion IH as [|? ? Hx IH']; subst.
      simpl in Hv. apply andb_prop in Hv as [Hhd Hv].
      simpl. constructor; [now apply Hx | now apply IHelems]. }
    now rewrite Hl.
Qed.

(** C9. For every Record of the specification's data model (unique Text
    keys, 64-bit integers, no absent value), decoding the markup the
    encoder writes for it returns that Record, with the same entries in the
    same order. *)
Theorem decode_encode_record (fuel : nat) (items : list (pykey * value)) :
  is_decoded_value (PDict items) = true ->
  height (encode (PDict items)) <= fuel ->
  parse_plist_value fuel (encode (PDict items)) = Return (PDict items).
Proof.
  intros Hv Hfuel. rewrite (decode_fuel _ _ Hfuel). now apply decode_encode.
Qed.

Lemma decode_encode_record_witness :
  parse_plist_value 3
    (encode (PDict [(Some "Name", PStr "So What");
                    (Some "Play Count", PInt 42);
                    (Some "Offset", PInt (-120));
                    (Some "Tags", PList [PStr "jazz"; PBool true; PDict []])]))
  = Return (PDict [(Some "Name", PStr "So What");
                   (Some "Play Count", PInt 42);
                   (Some "Offset", PInt (-120));
                   (Some "Tags", PList [PStr "jazz"; PBool true; PDict []])]).
Proof.
  apply decode_encode_record.
  - reflexivity.
  - vm_compute. repeat constructor.
Defined.

(** ** Slugs *)

Example slugify_samples :
  map slugify ["So What"; "  Kind -- of_Blue!  "; "AC/DC"; "?!"; "---"; EmptyString;
               "Don't Stop 'Til You Get Enough"; "a - b"]
  = ["so-what"; "kind-of_blue"; "acdc"; EmptyString; EmptyString; "unknown";
     "dont-stop-til-you-get-enough"; "a-b"].
Proof. reflexivity. Qed.

(** What the character classes have to do with each other, checked on
    every character. *)
Lemma char_classes (c : ascii) :
  lower_char (lower_char c) = lower_char c /\
  re_word (lower_char c) = re_word c /\
  re_space (lower_char c) = re_space c /\
  is_hyphen (lower_char c) = is_hyphen c /\
  (re_word c = true -> re_space c = false /\ is_hyphen c = false) /\
  (is_hyphen c = true -> re_space c = false).
Proof.
  destruct c as [[] [] [] [] [] [] [] []]; vm_compute;
    repeat split; intros; try reflexivity; discriminate.
Qed.

Lemma is_hyphen_eq (c : ascii) : is_hyphen c = true <-> c = "-"%char.
Proof. apply Ascii.eqb_eq. Qed.

Lemma lstrip_hyphens_split (s : list ascii) :
  exists pre, s = pre ++ lstrip_hyphens s /\ forallb is_hyphen pre = true.
Proof.
  induction s as [|c s [pre [E Hpre]]]; [now exists []|].
  simpl. destruct (is_hyphen c) eqn:Ec.
  - exists (c :: pre). simpl. rewrite Ec, Hpre. now rewrite <- E.
  - now exists [].
Qed.

Lemma lstrip_hyphens_head (s r : list ascii) (c : ascii) :
  lstrip_hyphens s = c :: r -> is_hyphen c = false.
Proof.
  induction s as [|a s IH]; simpl; [discriminate|].
  destruct (is_hyphen a) eqn:Ea; [exact IH|].
  intros E. injection E as <- _. exact Ea.
Qed.

Lemma lstrip_hyphens_nil (s : list ascii) :
  lstrip_hyphens s = [] <-> forallb is_hyphen s = true.
Proof.
  induction s as [|a s IH]; simpl; [tauto|].
  destruct (is_hyphen a); simpl; [exact IH|]. split; discriminate.
Qed.

(** The stripped string is a stretch of the string, between hyphens. *)
Lemma strip_hyphens_split (s : list ascii) :
  exists pre post,
    s = pre ++ strip_hyphens s ++ post /\
    forallb is_hyphen pre = true /\ forallb is_hyphen post = true.
Proof.
  unfold strip_hyphens.
  destruct (lstrip_hyphens_split s) as [pre [E Hpre]].
  destruct (lstrip_hyphens_split (rev (lstrip_hyphens s))) as [post [E' Hpost]].
  exists pre, (rev post). repeat split; try assumption.
  - rewrite <- rev_app_distr, <- E', rev_involutive. exact E.
  - rewrite forallb_forall in *. intros c Hc. apply Hpost. now apply in_rev.
Qed.

Lemma strip_hyphens_head (s r : list ascii) (c : ascii) :
  strip_hyphens s = c :: r -> is_hyphen c = false.
Proof.
  intros E. destruct (lstrip_hyphens_split (rev (lstrip_hyphens s))) as [post [E' _]].
  apply (f_equal (@rev ascii)) in E'.
  rewrite rev_involutive, rev_app_distr in E'.
  fold (strip_hyphens s) in E'. rewrite E in E'. simpl in E'.
  now apply lstrip_hyphens_head in E'.
Qed.

Lemma strip_hyphens_last (s r : list ascii) (c : ascii) :
  strip_hyphens s = r ++ [c] -> is_hyphen c = false.
Proof.
  unfold strip_hyphens. intros E.
  apply (f_equal (@rev ascii)) in E.
  rewrite rev_involutive, rev_app_distr in E. simpl in E.
  now apply lstrip_hyphens_head in E.
Qed.

Lemma strip_hyphens_nil (s : list ascii) :
  strip_hyphens s = [] <-> forallb is_hyphen s = true.
Proof.
  split.
  - intros E. destruct (strip_hyphens_split s) as (pre & post & Es & Hpre & Hpost).
    rewrite E in Es. rewrite Es, forallb_app, Hpre. exact Hpost.
  - intros H. unfold strip_hyphens.
    apply lstrip_hyphens_nil in H. now rewrite H.
Qed.

Lemma strip_hyphens_fixed (s : list ascii) :
  (forall c r, s = c :: r -> is_hyphen c = false) ->
  (forall c r, s = r ++ [c] -> is_hyphen c = false) ->
  strip_hyphens s = s.
Proof.
  intros Hhead Hlast. unfold strip_hyphens.
  assert (E1 : lstrip_hyphens s = s).
  { destruct s as [|c r]; [reflexivity|]. simpl.
    now rewrite (Hhead c r eq_refl). }
  rewrite E1.
  assert (E2 : lstrip_hyphens (rev s) = rev s).
  { destruct (rev s) as [|c r] eqn:Er; [reflexivity|]. simpl.
    apply (f_equal (@rev ascii)) in Er. rewrite rev_involutive in Er. simpl in Er.
    now rewrite (Hlast c (rev r) Er). }
  rewrite E2. apply rev_involutive.
Qed.

Lemma hyphens_apart_cons (a b : ascii) (s : list ascii) :
  hyphens_apart (a :: b :: s) =
  negb (is_hyphen a && is_hyphen b) && hyphens_apart (b :: s).
Proof. reflexivity. Qed.

Lemma hyphens_apart_app (a b : list ascii) :
  hyphens_apart (a ++ b) = true ->
  hyphens_apart a = true /\ hyphens_apart b = true.
Proof.
  induction a as [|c a IH]; simpl; [tauto|].
  destruct a as [|c' a]; simpl in *.
  - destruct b; [tauto|]. intros H. apply andb_prop in H. tauto.
  - intros H. apply andb_prop in H as [Hc H].
    destruct (IH H) as [Ha Hb]. rewrite Hc. tauto.
Qed.

Lemma hyphens_apart_nth (s : list ascii) :
  hyphens_apart s = true ->
  forall i c1 c2, nth_error s i = Some c1 -> nth_error s (S i) = Some c2 ->
  is_hyphen c1 && is_hyphen c2 = false.
Proof.
  induction s as [|a s IH]; intros H i c1 c2 H1 H2.
  - destruct i; discriminate.
  - destruct s as [|b s]; [destruct i; simpl in H2; [discriminate | destruct i; discriminate]|].
    cbn [hyphens_apart] in H. apply andb_prop in H as [Hab H].
    destruct i as [|i].
    + simpl in H1, H2. injection H1 as <-. injection H2 as <-.
      now apply negb_true_iff.
    + exact (IH H i c1 c2 H1 H2).
Qed.

Lemma hyphens_apart_lower (s : list ascii) :
  hyphens_apart (map lower_char s) = hyphens_apart s.
Proof.
  induction s as [|a s IH]; [reflexivity|].
  destruct s as [|b s]; [reflexivity|].
  cbn [map hyphens_apart] in *. rewrite IH.
  destruct (char_classes a) as (_ & _ & _ & -> & _).
  destruct (char_classes b) as (_ & _ & _ & -> & _). reflexivity.
Qed.

(** After the runs are joined a hyphen never follows a hyphen, and none
    comes first where a run was already open. *)
Lemma join_runs_apart (s : list ascii) : forall in_run,
  hyphens_apart (join_runs in_run s) = true /\
  (in_run = true -> forall c r, join_runs in_run s = c :: r -> is_hyphen c = false).
Proof.
  induction s as [|a s IH]; intros in_run; [split; [reflexivity | discriminate]|].
  cbn [join_runs]. destruct (is_hyphen a || re_space a) eqn:Esep.
  - destruct (IH true) as [Hap Hhead]. destruct in_run.
    + split; [exact Hap | intros _; now apply Hhead].
    + split; [|discriminate].
      destruct (join_runs true s) as [|c r] eqn:E; [reflexivity|].
      rewrite hyphens_apart_cons, (Hhead eq_refl c r eq_refl), andb_false_r.
      exact Hap.
  - apply orb_false_iff in Esep as [Eh _].
    destruct (IH false) as [Hap _]. split.
    + destruct (join_runs false s) as [|c r] eqn:E; [reflexivity|].
      rewrite hyphens_apart_cons, Eh. exact Hap.
    + intros _ c r E. injection E as <- _. exact Eh.
Qed.

(** What is left after the runs are joined: hyphens and word characters. *)
Lemma join_runs_chars (s : list ascii) : forall in_run,
  Forall (fun c => is_hyphen c = true \/ re_word c = true)
         (join_runs in_run (drop_punctuation s)).
Proof.
  unfold drop_punctuation.
  induction s as [|a s IH]; intros in_run; [constructor|].
  cbn [filter].
  destruct (re_word a || re_space a || is_hyphen a) eqn:Ekeep; [|apply IH].
  cbn [join_runs]. destruct (is_hyphen a || re_space a) eqn:Esep.
  - destruct in_run; [apply IH | constructor; [now left | apply IH]].
  - constructor; [|apply IH]. right.
    apply orb_false_iff in Esep as [Eh Es].
    rewrite Eh, Es, !orb_false_r in Ekeep. exact Ekeep.
Qed.

Lemma slug_char_lower (c : ascii) :
  is_hyphen c = true \/ re_word c = true -> slug_char (lower_char c) = true.
Proof.
  destruct (char_classes c) as (Hll & Hw & _ & Hh & _).
  unfold slug_char. rewrite Hll, Hw, Hh, Ascii.eqb_refl.
  intros [-> | ->]; [apply orb_true_r | reflexivity].
Qed.


Lemma string_of_list_ascii_nil (l : list ascii) :
  string_of_list_ascii l = EmptyString <-> l = [].
Proof. destruct l; simpl; split; intros H; try reflexivity; discriminate. Qed.

Lemma slugify_nonempty (text : string) :
  text <> EmptyString -> slugify text = string_of_list_ascii (slug_chars text).
Proof.
  intros H. apply String.eqb_neq in H. unfold slugify. now rewrite H.
Qed.

(** The shape of a slug: its characters, its ends, its hyphens. *)
Lemma slug_chars_shape (text : string) :
  Forall (fun c => slug_char c = true) (slug_chars text) /\
  hyphens_apart (slug_chars text) = true /\
  (forall c r, slug_chars text = c :: r -> is_hyphen c = false) /\
  (forall c r, slug_chars text = r ++ [c] -> is_hyphen c = false).
Proof.
  unfold slug_chars.
  set (joined := join_runs false (drop_punctuation (list_ascii_of_string text))).
  destruct (strip_hyphens_split (map lower_char joined)) as (pre & post & E & _ & _).
  split; [|split; [|split]].
  - assert (H : Forall (fun c => slug_char c = true) (map lower_char joined)).
    { apply Forall_map. unfold joined.
      eapply Forall_impl; [|apply join_runs_chars]. apply slug_char_lower. }
    rewrite E in H. apply Forall_app in H as [_ H]. now apply Forall_app in H.
  - assert (H : hyphens_apart (map lower_char joined) = true).
    { rewrite hyphens_apart_lower. apply join_runs_apart. }
    rewrite E in H. apply hyphens_apart_app in H as [_ H].
    now apply hyphens_apart_app in H.
  - intros c r. apply strip_hyphens_head.
  - intros c r. apply strip_hyphens_last.
Qed.

(** X1. The slug of a text of code points 0 to 255 holds nothing but
    hyphens and lower-case word characters: no white space, no
    punctuation, no capital letter. *)
Theorem slugify_alphabet (text : string) :
  forallb slug_char (list_ascii_of_string (slugify text)) = true.
Proof.
  destruct (String.eqb_spec text EmptyString) as [->|Hne]; [reflexivity|].
  rewrite (slugify_nonempty text Hne), list_ascii_of_string_of_list_ascii.
  apply forallb_forall. apply Forall_forall. apply slug_chars_shape.
Qed.

(** X2. A slug neither starts nor ends with a hyphen, and no two hyphens
    stand side by side in it. *)
Theorem slugify_hyphens (text : string) :
  let s := list_ascii_of_string (slugify text) in
  (forall c r, s = c :: r -> c <> "-"%char) /\
  (forall c r, s = r ++ [c] -> c <> "-"%char) /\
  (forall i, nth_error s i = Some "-"%char -> nth_error s (S i) <> Some "-"%char).
Proof.
  cbv zeta.
  destruct (String.eqb_spec text EmptyString) as [->|Hne].
  - change (list_ascii_of_string (slugify EmptyString))
      with (list_ascii_of_string "unknown").
    split; [|split].
    + intros c r E. injection E as <- _. discriminate.
    + intros c r E. apply (f_equal (@rev ascii)) in E.
      rewrite rev_app_distr in E. simpl in E. injection E as <- _. discriminate.
    + intros i. do 8 (destruct i as [|i]; [discriminate|]). destruct i; discriminate.
  - rewrite (slugify_nonempty text Hne), list_ascii_of_string_of_list_ascii.
    destruct (slug_chars_shape text) as (_ & Hap & Hhead & Hlast).
    split; [|split].
    + intros c r E ->. specialize (Hhead _ _ E). discriminate.
    + intros c r E ->. specialize (Hlast _ _ E). discriminate.
    + intros i H1 H2.
      pose proof (hyphens_apart_nth _ Hap i _ _ H1 H2). discriminate.
Qed.

Lemma join_runs_all_hyphens (l : list ascii) : forall in_run,
  forallb is_hyphen (join_runs in_run (drop_punctuation l)) =
  forallb (fun c => negb (re_word c)) l.
Proof.
  unfold drop_punctuation.
  induction l as [|a l IH]; intros in_run; [reflexivity|].
  cbn [filter forallb]. destruct (char_classes a) as (_ & _ & _ & _ & Hw & _).
  destruct (re_word a) eqn:Ew.
  - destruct (Hw eq_refl) as [Es Eh]. cbn [orb join_runs].
    rewrite Es, Eh. cbn [orb forallb negb andb]. now rewrite Eh.
  - cbn [orb negb andb].
    destruct (re_space a || is_hyphen a) eqn:Ekeep; [|apply IH].
    cbn [join_runs]. rewrite orb_comm, Ekeep.
    destruct in_run; cbn [forallb]; apply IH.
Qed.

Lemma forallb_is_hyphen_lower (s : list ascii) :
  forallb is_hyphen (map lower_char s) = forallb is_hyphen s.
Proof.
  induction s as [|a s IH]; [reflexivity|]. simpl. rewrite IH.
  now destruct (char_classes a) as (_ & _ & _ & -> & _).
Qed.

(** X3. For a text that is not empty, the slug is the empty string exactly
    when the text holds no word character. *)
Theorem slugify_empty_iff (text : string) :
  text <> EmptyString ->
  (slugify text = EmptyString <->
   forallb (fun c => negb (re_word c)) (list_ascii_of_string text) = true).
Proof.
  intros Hne. rewrite (slugify_nonempty text Hne), string_of_list_ascii_nil.
  unfold slug_chars.
  rewrite strip_hyphens_nil, forallb_is_hyphen_lower, join_runs_all_hyphens.
  reflexivity.
Qed.

Lemma slugify_empty_iff_witness :
  slugify "?!" = EmptyString /\ slugify " - " = EmptyString.
Proof.
  split.
  - apply (proj2 (slugify_empty_iff "?!" ltac:(discriminate))). reflexivity.
  - apply (proj2 (slugify_empty_iff " - " ltac:(discriminate))). reflexivity.
Defined.

Lemma join_runs_fixed (s : list ascii) : forall in_run,
  Forall (fun c => slug_char c = true) s ->
  hyphens_apart s = true ->
  (in_run = true -> forall c r, s = c :: r -> is_hyphen c = false) ->
  join_runs in_run s = s.
Proof.
  induction s as [|a s IH]; intros in_run Hall Hap Hhead; [reflexivity|].
  inversion Hall as [|? ? Ha Hs]; subst. cbn [join_runs].
  assert (Haps : hyphens_apart s = true).
  { destruct s as [|b s]; [reflexivity|].
    rewrite hyphens_apart_cons in Hap. now apply andb_prop in Hap. }
  destruct (is_hyphen a) eqn:Eh.
  - cbn [orb]. destruct in_run; [now rewrite (Hhead eq_refl a s eq_refl) in Eh|].
    apply is_hyphen_eq in Eh. subst a. f_equal.
    apply IH; try assumption. intros _ c r ->.
    rewrite hyphens_apart_cons in Hap. apply andb_prop in Hap as [Hc _].
    apply negb_true_iff in Hc. exact Hc.
  - unfold slug_char in Ha. rewrite Eh, orb_false_r in Ha.
    apply andb_prop in Ha as [Hw _].
    destruct (char_classes a) as (_ & _ & _ & _ & Hcls & _).
    destruct (Hcls Hw) as [-> _]. cbn [orb]. f_equal.
    apply IH; try assumption. discriminate.
Qed.

Lemma drop_punctuation_fixed (s : list ascii) :
  Forall (fun c => slug_char c = true) s -> drop_punctuation s = s.
Proof.
  unfold drop_punctuation. induction 1 as [|a s Ha _ IH]; [reflexivity|].
  cbn [filter]. unfold slug_char in Ha.
  apply orb_prop in Ha as [Ha|Ha].
  - apply andb_prop in Ha as [-> _]. cbn [orb]. now rewrite IH.
  - rewrite Ha, orb_true_r. now rewrite IH.
Qed.

Lemma lower_fixed (s : list ascii) :
  Forall (fun c => slug_char c = true) s -> map lower_char s = s.
Proof.
  induction 1 as [|a s Ha _ IH]; [reflexivity|].
  cbn [map]. rewrite IH. f_equal. unfold slug_char in Ha.
  apply orb_prop in Ha as [Ha|Ha].
  - apply andb_prop in Ha as [_ Ha]. now apply Ascii.eqb_eq.
  - apply is_hyphen_eq in Ha. now subst.
Qed.

(** X4. For a text of code points 0 to 255, slugifying its slug changes
    nothing, unless the slug is the empty string. *)
Theorem slugify_idempotent (text : string) :
  slugify text <> EmptyString -> slugify (slugify text) = slugify text.
Proof.
  destruct (String.eqb_spec text EmptyString) as [->|Hne]; [reflexivity|].
  rewrite (slugify_nonempty text Hne). intros Hslug.
  rewrite (slugify_nonempty _ Hslug). f_equal.
  unfold slug_chars at 1. rewrite list_ascii_of_string_of_list_ascii.
  destruct (slug_chars_shape text) as (Hall & Hap & Hhead & Hlast).
  rewrite (drop_punctuation_fixed _ Hall).
  rewrite (join_runs_fixed _ false Hall Hap) by discriminate.
  rewrite (lower_fixed _ Hall).
  now apply strip_hyphens_fixed.
Qed.

Lemma slugify_idempotent_witness :
  slugify (slugify "  Kind -- of_Blue!  ") = slugify "  Kind -- of_Blue!  ".
Proof. apply slugify_idempotent. discriminate. Defined.

Lemma drop_punctuation_lower (s : list ascii) :
  drop_punctuation (map lower_char s) = map lower_char (drop_punctuation s).
Proof.
  unfold drop_punctuation. induction s as [|a s IH]; [reflexivity|].
  cbn [map filter]. destruct (char_classes a) as (_ & -> & -> & -> & _).
  destruct (re_word a || re_space a || is_hyphen a); cbn [map]; now rewrite IH.
Qed.

Lemma join_runs_lower (s : list ascii) : forall in_run,
  join_runs in_run (map lower_char s) = map lower_char (join_runs in_run s).
Proof.
  induction s as [|a s IH]; intros in_run; [reflexivity|].
  cbn [map join_runs]. destruct (char_classes a) as (_ & _ & -> & -> & _).
  destruct (is_hyphen a || re_space a); [destruct in_run|];
    cbn [map]; now rewrite IH.
Qed.

(** X5. On texts of code points 0 to 255 slugs are blind to case: a text
    and its lower-case form have the same slug. *)
Theorem slugify_case_blind (text : string) :
  slugify (lower text) = slugify text.
Proof.
  destruct (String.eqb_spec text EmptyString) as [->|Hne]; [reflexivity|].
  assert (Hlow : lower text <> EmptyString).
  { unfold lower. rewrite string_of_list_ascii_nil. intros E.
    apply map_eq_nil in E. apply (f_equal string_of_list_ascii) in E.
    rewrite string_of_list_ascii_of_string in E. contradiction. }
  rewrite (slugify_nonempty _ Hlow), (slugify_nonempty _ Hne). f_equal.
  unfold slug_chars, lower. rewrite list_ascii_of_string_of_list_ascii.
  rewrite drop_punctuation_lower, join_runs_lower, map_map.
  f_equal. apply map_ext. intros a. now destruct (char_classes a) as (-> & _).
Qed.

(** ** [str] and [repr] never stop short *)

Local Open Scope run_scope.

Lemma run_all_printed {A : Type} (ms : list (run A)) :
  Forall printed ms -> printed (run_all ms).
Proof.
  induction 1 as [|m ms Hm _ IH]; [left; now exists []|].
  simpl. destruct Hm as [[a ->]| ->]; cbn [run_bind]; [|now right].
  destruct IH as [[l ->]| ->]; cbn [run_bind]; [left; eexists; reflexivity | now right].
Qed.

Lemma str_int_printed (n : Z) : printed (str_int n).
Proof.
  unfold str_int. destruct (_ <? _)%nat; [now right | left; eexists; reflexivity].
Qed.

Lemma py_repr_printed (v : value) : printed (py_repr v).
Proof.
  induction v as [ |s|n|b|items IH|elems IH] using value_nested_ind;
    cbn [py_repr]; try (left; eexists; reflexivity).
  - apply str_int_printed.
  - assert (H : printed (run_all (map (fun kv =>
                 r <- py_repr (snd kv) ;;
                 Done (repr_key (fst kv) ++ ": " ++ r)%string) items))).
    { apply run_all_printed. apply Forall_map.
      eapply Forall_impl; [|exact IH]. intros kv [[r ->]| ->]; cbn [run_bind];
        [left; eexists; reflexivity | now right]. }
    destruct H as [[parts ->]| ->]; cbn [run_bind];
      [left; eexists; reflexivity | now right].
  - assert (H : printed (run_all (map py_repr elems)))
      by (apply run_all_printed; now apply Forall_map).
    destruct H as [[parts ->]| ->]; cbn [run_bind];
      [left; eexists; reflexivity | now right].
Qed.

Lemma py_str_printed (v : value) : printed (py_str v).
Proof.
  destruct v; try apply py_repr_printed. left; eexists; reflexivity.
Qed.

(** ** [parse_tracks] *)

Lemma track_of_cases (k : pykey) (d : list (pykey * value)) :
  (exists id,
     py_str (get_default d "Track ID" (key_value k)) = Done id /\
     exists t, track_of k d = Done t /\
       map fst t = track_fields /\
       dict_get t (Some "id") = Some (PStr id) /\
       dict_get t (Some "playCount") = Some (get_default d "Play Count" (PInt 0))) \/
  (py_str (get_default d "Track ID" (key_value k)) = Fail (Exn ValueError) /\
   track_of k d = Fail (Exn ValueError)).
Proof.
  unfold track_of.
  destruct (py_str_printed (get_default d "Track ID" (key_value k))) as [[id E]|E];
    rewrite E; cbn [run_bind].
  - left. exists id. split; [reflexivity|]. eexists. split; [reflexivity|].
    repeat split.
  - now right.
Qed.

(** One turn of the loop over the entries of [Tracks]. *)
Lemma tracks_loop_step (k : pykey) (v : value) (items : list (pykey * value))
    (tracks : list (list (pykey * value))) :
  (is_dict v = false /\
   tracks_loop ((k, v) :: items) tracks = tracks_loop items tracks) \/
  (exists d t, v = PDict d /\ track_of k d = Done t /\ well_formed_track t /\
     tracks_loop ((k, v) :: items) tracks = tracks_loop items (tracks ++ [t])) \/
  (exists d, v = PDict d /\
     is_number (get_default d "Play Count" (PInt 0)) = true /\
     tracks_loop ((k, v) :: items) tracks = tracks_loop items tracks) \/
  (exists d, v = PDict d /\
     is_number (get_default d "Play Count" (PInt 0)) = false /\
     tracks_loop ((k, v) :: items) tracks = Fail (Exn TypeError)) \/
  (exists d, v = PDict d /\ track_of k d = Fail (Exn ValueError) /\
     tracks_loop ((k, v) :: items) tracks = Fail (Exn ValueError)).
Proof.
  destruct v as [ | | | |d| ]; try (left; split; reflexivity).
  right. cbn [tracks_loop].
  destruct (track_of_cases k d) as [(id & _ & t & Et & Hkeys & Hid & Hcount)|[_ Et]];
    rewrite Et; cbn [run_bind].
  2: { right. right. right. exists d. repeat split. exact Et. }
  unfold py_item. rewrite Hcount. cbn [run_bind].
  destruct (get_default d "Play Count" (PInt 0)) as [ |s|n|b|items'|elems] eqn:Ec;
    cbn [py_gt_zero run_bind];
    try (right; right; left; exists d; split; [reflexivity|];
         split; [now rewrite Ec | reflexivity]).
  - destruct (0 <? n)%Z eqn:En.
    + left. exists d, t. repeat split; try assumption; [now exists id|].
      unfold played. now rewrite Hcount.
    + right. left. exists d. split; [reflexivity|]. now rewrite Ec.
  - destruct b.
    + left. exists d, t. repeat split; try assumption; [now exists id|].
      unfold played. now rewrite Hcount.
    + right. left. exists d. split; [reflexivity|]. now rewrite Ec.
Qed.

Lemma tracks_loop_done (items : list (pykey * value)) :
  forall tracks result,
    tracks_loop items tracks = Done result ->
    exists new,
      result = tracks ++ new /\ Forall well_formed_track new /\
      length new <= length items.
Proof.
  induction items as [|[k v] items IH]; intros tracks result H.
  - injection H as <-. exists []. rewrite app_nil_r.
    split; [reflexivity|]. split; [constructor | simpl; lia].
  - destruct (tracks_loop_step k v items tracks)
      as [[_ E]|[(d & t & _ & _ & Ht & E)|[(d & _ & _ & E)|[(d & _ & _ & E)|(d & _ & _ & E)]]]];
      rewrite E in H; try discriminate.
    + destruct (IH _ _ H) as (new & -> & Hnew & Hlen).
      exists new. repeat split; [assumption | simpl; lia].
    + destruct (IH _ _ H) as (new & -> & Hnew & Hlen).
      exists (t :: new). rewrite <- app_assoc. repeat split;
        [now constructor | simpl; lia].
    + destruct (IH _ _ H) as (new & -> & Hnew & Hlen).
      exists new. repeat split; [assumption | simpl; lia].
Qed.

Lemma tracks_loop_outcome (items : list (pykey * value)) :
  forall tracks,
    (exists result, tracks_loop items tracks = Done result) \/
    tracks_loop items tracks = Fail (Exn TypeError) \/
    tracks_loop items tracks = Fail (Exn ValueError).
Proof.
  induction items as [|[k v] items IH]; intros tracks.
  - left. eexists. reflexivity.
  - destruct (tracks_loop_step k v items tracks)
      as [[_ E]|[(d & t & _ & _ & Ht & E)|[(d & _ & _ & E)|[(d & _ & _ & E)|(d & _ & _ & E)]]]];
      rewrite E; auto.
Qed.

(** X6. Every track [parse_tracks] returns has the fourteen fields in
    their fixed order, a string as [id], and a play count that is a
    positive number; there is at most one track per entry of [Tracks]. *)
Theorem parse_tracks_result (root : Element) (tracks : list (list (pykey * value))) :
  parse_tracks root = Done tracks ->
  Forall well_formed_track tracks /\
  (forall lib, library root lib ->
     length tracks <=
     match dict_get lib (Some "Tracks") with
     | Some (PDict items) => length items
     | _ => 0
     end).
Proof.
  unfold parse_tracks. intros H.
  destruct (find _ (children root)) as [plist_dict|] eqn:Efind.
  2: { injection H as <-. split; [constructor|]. intros lib Hlib. simpl. lia. }
  unfold decoded in H.
  destruct (decode plist_dict) as [lib'| |] eqn:Edec; cbn [run_bind] in H;
    try discriminate.
  destruct lib' as [ | | | |lib| ]; cbn [py_get run_bind] in H; try discriminate.
  unfold get_default in H.
  assert (Hloop : forall items, tracks_loop items [] = Done tracks ->
            Forall well_formed_track tracks /\ length tracks <= length items).
  { intros items Hitems.
    destruct (tracks_loop_done _ _ _ Hitems) as (new & -> & Hnew & Hlen).
    now split. }
  assert (Hlib : forall lib0, library root lib0 -> lib0 = lib).
  { intros lib0 (p & Hp & Hd). congruence. }
  destruct (dict_get lib (Some "Tracks")) as [[ | | | |items| ]|] eqn:Et;
    cbn [py_items run_bind] in H; try discriminate.
  - destruct (Hloop _ H) as [Hwf Hlen]. split; [exact Hwf|].
    intros lib0 Hlib0. rewrite (Hlib _ Hlib0), Et. exact Hlen.
  - destruct (Hloop _ H) as [Hwf Hlen]. split; [exact Hwf|].
    intros lib0 Hlib0. rewrite (Hlib _ Hlib0), Et. exact Hlen.
Qed.

Lemma parse_tracks_result_witness :
  exists tracks,
    parse_tracks library_root = Done tracks /\ Forall well_formed_track tracks.
Proof.
  eexists. split; [reflexivity|].
  exact (proj1 (parse_tracks_result library_root _ eq_refl)).
Defined.

(** ** Integers that can be printed again *)

Lemma digit_of_range (c : ascii) (d : Z) :
  digit_of c = Some d -> (0 <= d <= 9)%Z.
Proof.
  unfold digit_of. intros H.
  destruct (48 <=? nat_of_ascii c)%nat eqn:E1; [|discriminate].
  destruct (nat_of_ascii c <=? 57)%nat eqn:E2; [|discriminate].
  apply Nat.leb_le in E1, E2. injection H as <-. lia.
Qed.

Lemma scan_digits_bound (l : list ascii) : forall after acc count m c,
  scan_digits after l acc count = Some (m, c) ->
  (0 <= acc < 10 ^ Z.of_nat count)%Z ->
  (0 <= m < 10 ^ Z.of_nat c)%Z.
Proof.
  induction l as [|a l IH]; intros after acc count m c H Hacc.
  - simpl in H. destruct after; [|discriminate]. now injection H as <- <-.
  - cbn [scan_digits] in H. destruct (digit_of a) as [d|] eqn:Ed.
    + apply digit_of_range in Ed. apply (IH _ _ _ _ _ H).
      rewrite Nat2Z.inj_succ, Z.pow_succ_r by lia. lia.
    + destruct (Ascii.eqb a "_" && after); [|discriminate].
      now apply (IH _ _ _ _ _ H).
Qed.

(** An integer [int] returns has at most [int_max_str_digits] digits. *)
Lemma py_int_bound (s : string) (n : Z) :
  py_int s = Some n -> (Z.abs n < 10 ^ Z.of_nat int_max_str_digits)%Z.
Proof.
  unfold py_int, int_of_numeral.
  set (signed := match rstrip (lstrip (list_ascii_of_string s)) with
                 | [] => _ | _ :: _ => _ end).
  destruct (scan_digits false (snd signed) 0 0) as [[m c]|] eqn:E; [|discriminate].
  destruct (int_max_str_digits <? c)%nat eqn:Ec; [discriminate|].
  intros H. injection H as <-. apply Nat.ltb_ge in Ec.
  apply scan_digits_bound in E; [|simpl; lia].
  assert (10 ^ Z.of_nat c <= 10 ^ Z.of_nat int_max_str_digits)%Z
    by (apply Z.pow_le_mono_r; lia).
  destruct (fst signed); lia.
Qed.

Lemma dict_set_printable (d : list (pykey * value)) (k : pykey) (v : value) :
  forallb (fun kv => printable (snd kv)) d = true -> printable v = true ->
  forallb (fun kv => printable (snd kv)) (dict_set d k v) = true.
Proof.
  intros Hd Hv. induction d as [|[k' v'] d IH]; simpl in *.
  - now rewrite Hv.
  - apply andb_prop in Hd as [Hv' Hd].
    destruct (key_eqb k' k); simpl; [now rewrite Hv, Hd | now rewrite Hv', IH].
Qed.

Lemma walk_list_printable rec cs :
  Forall (fun c => forall v, rec c = Return v -> printable v = true) cs ->
  forall r v, forallb (fun kv => printable (snd kv)) r = true ->
    walk_list rec cs r = Return v -> printable v = true.
Proof.
  induction cs as [| k | k x rest IH2 IH1] using pairs_ind; intros H r v Hr Hv;
    try (injection Hv as <-; exact Hr).
  cbn [walk_list] in Hv. inversion H as [|? ? _ Hrest]; subst.
  destruct (tag k =? "key"); [|now apply (IH1 Hrest r)].
  inversion Hrest as [|? ? Hx Hrest']; subst.
  destruct (rec x) as [w| |] eqn:Ex; cbn [bind] in Hv; try discriminate.
  apply (IH2 Hrest' _ _ (dict_set_printable r (text k) w Hr (Hx w eq_refl)) Hv).
Qed.

(** The decoder returns no integer of more than [int_max_str_digits]
    digits. *)
Lemma decode_printable (e : Element) (v : value) :
  decode e = Return v -> printable v = true.
Proof.
  revert v. induction e as [t x cs IH] using Element_children_ind. intros v.
  rewrite decode_unfold. unfold parse_body. cbn [tag text children].
  destruct (t =? "string"); [intros H; now injection H as <-|].
  destruct (t =? "integer").
  { destruct x as [s|]; cbn [truthy]; [|intros H; now injection H as <-].
    destruct (s =? EmptyString); cbn [negb int_of_text];
      [intros H; now injection H as <-|].
    destruct (py_int s) as [n|] eqn:En; [|discriminate].
    intros H. injection H as <-. cbn [printable].
    apply Z.ltb_lt. now apply py_int_bound with (s := s). }
  destruct (t =? "true"); [intros H; now injection H as <-|].
  destruct (t =? "false"); [intros H; now injection H as <-|].
  destruct (t =? "date"); [intros H; now injection H as <-|].
  destruct (t =? "dict").
  { rewrite dict_loop_walk_list. now apply walk_list_printable. }
  destruct (t =? "array"); [|intros H; now injection H as <-].
  destruct (list_comp decode cs) as [vs| |] eqn:El; cbn [bind]; try discriminate.
  intros H. injection H as <-. cbn [printable].
  apply list_comp_returns in El. clear -El IH.
  induction El as [|c w cs vs Hc _ IHl]; [reflexivity|].
  inversion IH as [|? ? Hhd Htl]; subst. simpl.
  now rewrite (Hhd w Hc), (IHl Htl).
Qed.

Lemma digits_of_tight fuel : forall n acc k,
  (0 <= n < 10 ^ Z.of_nat k)%Z -> 1 <= k ->
  length (digits_of fuel n acc) <= k + length acc.
Proof.
  induction fuel as [|fuel IH]; intros n acc k Hn Hk; [simpl; lia|].
  cbn [digits_of]. destruct (n <? 10)%Z eqn:E; [simpl; lia|].
  apply Z.ltb_ge in E. destruct k as [|[|k]]; [lia | simpl in Hn; lia |].
  rewrite (Nat2Z.inj_succ (S k)), Z.pow_succ_r in Hn by lia.
  specialize (IH (n / 10)%Z (ascii_of_nat (48 + Z.to_nat (n mod 10)) :: acc) (S k)).
  cbn [length] in IH.
  assert (0 <= n / 10 < 10 ^ Z.of_nat (S k))%Z.
  { split; [apply Z.div_pos; lia | apply Z.div_lt_upper_bound; lia]. }
  specialize (IH ltac:(assumption) ltac:(lia)). lia.
Qed.

Lemma string_of_list_ascii_length (l : list ascii) :
  String.length (string_of_list_ascii l) = length l.
Proof. induction l as [|a l IH]; simpl; [reflexivity | now rewrite IH]. Qed.

Lemma str_int_done (n : Z) :
  (Z.abs n < 10 ^ Z.of_nat int_max_str_digits)%Z -> str_int n = Done (decimal n).
Proof.
  intros Hn. unfold str_int.
  replace (int_max_str_digits <? String.length (decimal (Z.abs n)))%nat with false;
    [reflexivity|].
  symmetry. apply Nat.ltb_ge. unfold decimal.
  replace (Z.abs n <? 0)%Z with false by (symmetry; apply Z.ltb_ge; lia).
  rewrite string_of_list_ascii_length, (Z.abs_eq (Z.abs n)) by lia.
  pose proof (digits_of_tight (S (Z.to_nat (Z.log2 (Z.abs n))))
                (Z.abs n) [] int_max_str_digits) as H.
  pose proof max_str_digits_64. cbn [length] in H.
  rewrite Nat.add_0_r in H. apply H; lia.
Qed.

Lemma run_all_done {A : Type} (ms : list (run A)) :
  Forall (fun m => exists a, m = Done a) ms -> exists l, run_all ms = Done l.
Proof.
  induction 1 as [|m ms [a ->] _ [l IH]]; [now exists []|].
  exists (a :: l). simpl. now rewrite IH.
Qed.

Lemma py_repr_done (v : value) :
  printable v = true -> exists s, py_repr v = Done s.
Proof.
  induction v as [ |s|n|b|items IH|elems IH] using value_nested_ind;
    cbn [py_repr printable]; intros Hv; try (eexists; reflexivity).
  - apply Z.ltb_lt in Hv. rewrite (str_int_done n Hv). eexists; reflexivity.
  - destruct (run_all_done (map (fun kv =>
                 r <- py_repr (snd kv) ;;
                 Done (repr_key (fst kv) ++ ": " ++ r)%string) items))
      as [parts ->]; [|eexists; reflexivity].
    apply Forall_map. rewrite forallb_forall in Hv. rewrite Forall_forall in *.
    intros kv Hkv. destruct (IH kv Hkv (Hv kv Hkv)) as [r ->].
    eexists; reflexivity.
  - destruct (run_all_done (map py_repr elems)) as [parts ->];
      [|eexists; reflexivity].
    apply Forall_map. rewrite forallb_forall in Hv. rewrite Forall_forall in *.
    intros x Hx. now apply IH, Hv.
Qed.

Lemma py_str_done (v : value) :
  printable v = true -> exists s, py_str v = Done s.
Proof.
  destruct v; try apply py_repr_done. intros _. eexists; reflexivity.
Qed.

(** X7. [str] never fails on a value the decoder returned: every integer
    [int] has read has few enough digits to be printed again. *)
Theorem decoded_value_prints (e : Element) (v : value) :
  decode e = Return v -> exists s, py_str v = Done s.
Proof. intros H. apply py_str_done. exact (decode_printable e v H). Qed.

Lemma decoded_value_prints_witness :
  exists s, py_str (PList [PStr "jazz"; PInt (-7); PDict [(None, PBool true)]]) = Done s.
Proof.
  apply (decoded_value_prints
           (Elem "array" None
              [str "jazz"; int "-7"; Elem "dict" None [Elem "key" None []; Elem "true" None []]])).
  reflexivity.
Defined.

(** ** When [parse_tracks] succeeds and how it fails *)

Lemma walk_list_kind rec cs : forall r v,
  walk_list rec cs r = Return v -> exists d, v = PDict d.
Proof.
  induction cs as [| k | k x rest IH2 IH1] using pairs_ind; intros r v H;
    try (injection H as <-; now exists r).
  cbn [walk_list] in H. destruct (tag k =? "key"); [|now apply IH1 in H].
  destruct (rec x); cbn [bind] in H; try discriminate. now apply IH2 in H.
Qed.

Lemma find_dict_child (root plist_dict : Element) :
  find (fun c => tag c =? "dict") (children root) = Some plist_dict ->
  tag plist_dict = "dict".
Proof. intros H. apply find_some in H as [_ H]. now apply String.eqb_eq. Qed.

(** What the first [dict] child decodes to, as the caller receives it. *)
Lemma decoded_library (root plist_dict : Element) :
  find (fun c => tag c =? "dict") (children root) = Some plist_dict ->
  (exists lib, decode plist_dict = Return (PDict lib) /\
               decoded plist_dict = Done (PDict lib) /\
               forallb (fun kv => printable (snd kv)) lib = true) \/
  (decode plist_dict = Raise ValueError /\
   decoded plist_dict = Fail (Exn ValueError)).
Proof.
  intros Hfind. apply find_dict_child in Hfind.
  destruct plist_dict as [t x cs]. simpl in Hfind. subst t. unfold decoded.
  destruct (decode_settled (Elem "dict" x cs)) as [[v Hv]|Hv]; rewrite Hv.
  - left. pose proof (decode_printable _ _ Hv) as Hp.
    rewrite (decode_dict "dict" x cs eq_refl) in Hv.
    destruct (walk_list_kind _ _ _ _ Hv) as [lib ->]. now exists lib.
  - now right.
Qed.

Lemma dict_get_printable (d : list (pykey * value)) (k : pykey) (v : value) :
  forallb (fun kv => printable (snd kv)) d = true ->
  dict_get d k = Some v -> printable v = true.
Proof.
  induction d as [|[k' v'] d IH]; simpl; [discriminate|].
  intros H. apply andb_prop in H as [Hv' Hd].
  destruct (key_eqb k' k); [intros E; now injection E as <- | now apply IH].
Qed.

Lemma track_of_done (k : pykey) (d : list (pykey * value)) :
  forallb (fun kv => printable (snd kv)) d = true ->
  exists t, track_of k d = Done t.
Proof.
  intros Hd.
  destruct (track_of_cases k d) as [(id & _ & t & Et & _)|[E _]]; [now exists t|].
  assert (Hp : printable (get_default d "Track ID" (key_value k)) = true).
  { unfold get_default. destruct (dict_get d (Some "Track ID")) as [v|] eqn:Ev.
    - now apply (dict_get_printable d (Some "Track ID")).
    - now destruct k. }
  destruct (py_str_done _ Hp) as [s Hs]. congruence.
Qed.

Lemma tracks_loop_succeeds (items : list (pykey * value)) :
  forallb (fun kv => printable (snd kv)) items = true ->
  (forall k d, In (k, PDict d) items ->
     is_number (get_default d "Play Count" (PInt 0)) = true) ->
  forall tracks, exists result, tracks_loop items tracks = Done result.
Proof.
  induction items as [|[k v] items IH]; intros Hp Hnum tracks; [now exists tracks|].
  simpl in Hp. apply andb_prop in Hp as [Hv Hp].
  assert (Hnum' : forall k0 d0, In (k0, PDict d0) items ->
            is_number (get_default d0 "Play Count" (PInt 0)) = true)
    by (intros k0 d0 Hin; apply (Hnum k0 d0); now right).
  destruct (tracks_loop_step k v items tracks)
    as [[_ E]|[(d & t & _ & _ & Ht & E)|[(d & _ & _ & E)|[(d & -> & Hn & E)|(d & -> & Hf & E)]]]];
    rewrite E; try now apply IH.
  - rewrite (Hnum k d (or_introl eq_refl)) in Hn. discriminate.
  - destruct (track_of_done k d Hv) as [t Ht]. congruence.
Qed.

(** X8. [parse_tracks] returns a list of tracks whenever the root has no
    [dict] child (the empty list), and whenever its first [dict] child
    decodes and holds no [Tracks] entry, or a [Tracks] record in which the
    [Play Count] of every track record is a number or missing. *)
Theorem parse_tracks_succeeds (root : Element) :
  (find (fun c => tag c =? "dict") (children root) = None ->
   parse_tracks root = Done []) /\
  (forall lib, library root lib ->
     dict_get lib (Some "Tracks") = None -> parse_tracks root = Done []) /\
  (forall lib items, library root lib ->
     dict_get lib (Some "Tracks") = Some (PDict items) ->
     (forall k d, In (k, PDict d) items ->
        is_number (get_default d "Play Count" (PInt 0)) = true) ->
     exists tracks, parse_tracks root = Done tracks).
Proof.
  unfold parse_tracks. split; [intros ->; reflexivity|].
  split.
  - intros lib (p & Hfind & Hdec) Ht. rewrite Hfind.
    unfold decoded. rewrite Hdec. cbn [run_bind py_get]. unfold get_default.
    now rewrite Ht.
  - intros lib items (p & Hfind & Hdec) Ht Hnum. rewrite Hfind.
    destruct (decoded_library root p Hfind) as [(lib' & Hd & -> & Hp)|[Hd _]];
      [|congruence].
    assert (lib' = lib) by congruence. subst lib'.
    cbn [run_bind py_get]. unfold get_default. rewrite Ht. cbn [py_items run_bind].
    apply tracks_loop_succeeds; [|exact Hnum].
    exact (dict_get_printable lib _ _ Hp Ht).
Qed.

Lemma parse_tracks_succeeds_witness :
  exists tracks, parse_tracks library_root = Done tracks.
Proof.
  destruct (parse_tracks_succeeds library_root) as (_ & _ & H).
  refine (H _ _ (ex_intro _ library_doc (conj eq_refl eq_refl)) eq_refl _).
  intros k d [E|[]]. injection E as <- <-. reflexivity.
Defined.

(** X9. One track record whose [Play Count] is not a number (a string, a
    list, a record, the absent value) makes the whole of [parse_tracks]
    fail with the [TypeError] of the comparison; no track is returned. *)
Theorem parse_tracks_rejects_textual_count (root : Element)
    (lib items d : list (pykey * value)) (k : pykey) :
  library root lib ->
  dict_get lib (Some "Tracks") = Some (PDict items) ->
  In (k, PDict d) items ->
  is_number (get_default d "Play Count" (PInt 0)) = false ->
  parse_tracks root = Fail (Exn TypeError).
Proof.
  intros (p & Hfind & Hdec) Ht Hin Hnum. unfold parse_tracks. rewrite Hfind.
  destruct (decoded_library root p Hfind) as [(lib' & Hd & -> & Hp)|[Hd _]];
    [|congruence].
  assert (lib' = lib) by congruence. subst lib'.
  cbn [run_bind py_get]. unfold get_default. rewrite Ht. cbn [py_items run_bind].
  pose proof (dict_get_printable lib _ _ Hp Ht) as Hitems. cbn [printable] in Hitems.
  clear -Hin Hnum Hitems. generalize (@nil (list (pykey * value))) as tracks.
  induction items as [|[k0 v0] items IH]; intros tracks; [contradiction|].
  simpl in Hitems. apply andb_prop in Hitems as [Hv0 Hitems].
  destruct (tracks_loop_step k0 v0 items tracks)
    as [[Hnd E]|[(d' & t & Ed & Htr & Ht & E)|[(d' & Ed & Hn & E)|[(d' & _ & _ & E)|(d' & -> & Hf & _)]]]].
  - rewrite E. destruct Hin as [Ein|Hin]; [injection Ein as -> ->; discriminate|].
    now apply IH.
  - rewrite E. destruct Hin as [Ein|Hin]; [|now apply IH].
    injection Ein as -> ->. injection Ed as <-.
    destruct Ht as (_ & _ & Hplayed).
    destruct (track_of_cases k d) as [(id & _ & t' & Et' & _ & _ & Hc)|[_ Et']];
      [|congruence].
    assert (t' = t) by congruence.
    subst t'. unfold played in Hplayed. rewrite Hc in Hplayed.
    destruct (get_default d "Play Count" (PInt 0)); discriminate.
  - rewrite E. destruct Hin as [Ein|Hin]; [|now apply IH].
    injection Ein as -> ->. injection Ed as <-. congruence.
  - exact E.
  - destruct (track_of_done k0 d' Hv0) as [t Ht]. congruence.
Qed.

Lemma parse_tracks_rejects_textual_count_witness :
  parse_tracks textual_count_root = Fail (Exn TypeError).
Proof.
  apply (parse_tracks_rejects_textual_count textual_count_root
           [(Some "Tracks",
             PDict [(Some "7", PDict [(Some "Name", PStr "Blue in Green");
                                      (Some "Play Count", PStr "5")])])]
           [(Some "7", PDict [(Some "Name", PStr "Blue in Green");
                              (Some "Play Count", PStr "5")])]
           [(Some "Name", PStr "Blue in Green"); (Some "Play Count", PStr "5")]
           (Some "7")).
  - eexists. split; reflexivity.
  - reflexivity.
  - now left.
  - reflexivity.
Defined.

Lemma tracks_loop_printable (items : list (pykey * value)) :
  forallb (fun kv => printable (snd kv)) items = true ->
  forall tracks,
    (exists result, tracks_loop items tracks = Done result) \/
    tracks_loop items tracks = Fail (Exn TypeError).
Proof.
  induction items as [|[k v] items IH]; intros Hp tracks;
    [left; now exists tracks|].
  simpl in Hp. apply andb_prop in Hp as [Hv Hp].
  destruct (tracks_loop_step k v items tracks)
    as [[_ E]|[(d & t & _ & _ & _ & E)|[(d & _ & _ & E)|[(d & _ & _ & E)|(d & -> & Hf & _)]]]];
    try (rewrite E; now apply IH).
  - now right.
  - destruct (track_of_done k d Hv) as [t Ht]. congruence.
Qed.

(** The ways [parse_tracks] can go. *)
Lemma parse_tracks_cases (root : Element) :
  (find (fun c => tag c =? "dict") (children root) = None /\
   parse_tracks root = Done []) \/
  (exists p, find (fun c => tag c =? "dict") (children root) = Some p /\
     decode p = Raise ValueError /\ parse_tracks root = Fail (Exn ValueError)) \/
  (exists lib, library root lib /\
     ((dict_get lib (Some "Tracks") = None /\ parse_tracks root = Done []) \/
      (exists v, dict_get lib (Some "Tracks") = Some v /\ is_dict v = false /\
         parse_tracks root = Fail AttributeError) \/
      (exists items, dict_get lib (Some "Tracks") = Some (PDict items) /\
         ((exists tracks, parse_tracks root = Done tracks) \/
          parse_tracks root = Fail (Exn TypeError))))).
Proof.
  unfold parse_tracks, library.
  destruct (find _ (children root)) as [p|] eqn:Hfind; [|now left].
  right.
  destruct (decoded_library root p Hfind) as [(lib & Hd & -> & Hp)|[Hd ->]].
  2: { left. now exists p. }
  right. exists lib. split; [now exists p|].
  cbn [run_bind py_get]. unfold get_default.
  destruct (dict_get lib (Some "Tracks")) as [v|] eqn:Ht; [|now left].
  right. pose proof (dict_get_printable lib _ _ Hp Ht) as Hv.
  destruct v as [ | | | |items| ];
    try (left; eexists; repeat split; reflexivity).
  right. exists items. split; [reflexivity|]. cbn [py_items run_bind].
  now apply tracks_loop_printable.
Qed.

Lemma library_unique (root : Element) (lib lib' : list (pykey * value)) :
  library root lib -> library root lib' -> lib = lib'.
Proof. intros (p & Hp & Hd) (p' & Hp' & Hd'). congruence. Qed.

(** The three ways in which [parse_tracks] fails, and when it fails with
    the first two. *)
Lemma parse_tracks_three_ways (root : Element) :
  parse_tracks root <> Cut /\
  (forall e, parse_tracks root = Fail e ->
     e = Exn ValueError \/ e = AttributeError \/ e = Exn TypeError) /\
  (parse_tracks root = Fail (Exn ValueError) <->
   exists p, find (fun c => tag c =? "dict") (children root) = Some p /\
             decode p = Raise ValueError) /\
  (parse_tracks root = Fail AttributeError <->
   exists lib v, library root lib /\
                 dict_get lib (Some "Tracks") = Some v /\ is_dict v = false).
Proof.
  destruct (parse_tracks_cases root)
    as [[Hfind E]|[(p & Hfind & Hd & E)|(lib & Hlib & [[Ht E]|[(v & Ht & Hv & E)|(items & Ht & [[tracks E]|E])]])]];
    rewrite E.
  all: split; [discriminate|].
  all: split; [intros e He; try discriminate; injection He as <-; auto|].
  all: split; split; try discriminate; try reflexivity.
  all: try (intros (p' & Hp' & Hd'); congruence).
  all: try (intros (lib' & v' & Hlib' & Ht' & Hv');
            try (rewrite (library_unique _ _ _ Hlib' Hlib) in Ht');
            try congruence).
  all: try (destruct Hlib as (p0 & Hp0 & Hd0); intros (p' & Hp' & Hd'); congruence).
  all: try (destruct Hlib' as (p0 & Hp0 & Hd0); congruence).
  all: try (intros _; now exists p).
  all: try (intros _; now exists lib, v).
  all: try (assert (v' = PDict items) by congruence; subst v'; discriminate).
Qed.

(** What [parse_tracks] runs the loop on. *)
Lemma parse_tracks_items (root : Element) (lib items : list (pykey * value)) :
  library root lib ->
  dict_get lib (Some "Tracks") = Some (PDict items) ->
  parse_tracks root = tracks_loop items [] /\
  forallb (fun kv => printable (snd kv)) items = true.
Proof.
  intros (p & Hfind & Hdec) Ht. unfold parse_tracks. rewrite Hfind.
  destruct (decoded_library root p Hfind) as [(lib' & Hd & -> & Hp)|[Hd _]];
    [|congruence].
  assert (lib' = lib) by congruence. subst lib'.
  cbn [run_bind py_get]. unfold get_default. rewrite Ht. cbn [py_items run_bind].
  split; [reflexivity|]. exact (dict_get_printable lib _ _ Hp Ht).
Qed.

(** One track record with a play count that is no number stops the loop,
    wherever it stands. *)
Lemma tracks_loop_fails (items d : list (pykey * value)) (k : pykey) :
  forallb (fun kv => printable (snd kv)) items = true ->
  In (k, PDict d) items ->
  is_number (get_default d "Play Count" (PInt 0)) = false ->
  forall tracks, tracks_loop items tracks = Fail (Exn TypeError).
Proof.
  intros Hitems Hin Hnum.
  induction items as [|[k0 v0] items IH]; intros tracks; [contradiction|].
  simpl in Hitems. apply andb_prop in Hitems as [Hv0 Hitems].
  destruct (tracks_loop_step k0 v0 items tracks)
    as [[Hnd E]|[(d' & t & Ed & Htr & Ht & E)|[(d' & Ed & Hn & E)|[(d' & _ & _ & E)|(d' & -> & Hf & _)]]]].
  - rewrite E. destruct Hin as [Ein|Hin]; [injection Ein as -> ->; discriminate|].
    now apply IH.
  - rewrite E. destruct Hin as [Ein|Hin]; [|now apply IH].
    injection Ein as -> ->. injection Ed as <-.
    destruct Ht as (_ & _ & Hplayed).
    destruct (track_of_cases k d) as [(id & _ & t' & Et' & _ & _ & Hc)|[_ Et']];
      [|congruence].
    assert (t' = t) by congruence.
    subst t'. unfold played in Hplayed. rewrite Hc in Hplayed.
    destruct (get_default d "Play Count" (PInt 0)); discriminate.
  - rewrite E. destruct Hin as [Ein|Hin]; [|now apply IH].
    injection Ein as -> ->. injection Ed as <-. congruence.
  - exact E.
  - destruct (track_of_done k0 d' Hv0) as [t Ht]. congruence.
Qed.

(** Either every track record has a number as play count, or one has not. *)
Lemma play_counts_decided (items : list (pykey * value)) :
  (forall k d, In (k, PDict d) items ->
     is_number (get_default d "Play Count" (PInt 0)) = true) \/
  (exists k d, In (k, PDict d) items /\
     is_number (get_default d "Play Count" (PInt 0)) = false).
Proof.
  induction items as [|[k v] items [IH|(k0 & d0 & Hin & Hn)]].
  - left. intros k d [].
  - assert (Hother : is_dict v = false ->
              forall k' d', In (k', PDict d') ((k, v) :: items) ->
                is_number (get_default d' "Play Count" (PInt 0)) = true).
    { intros Hv k' d' [E|Hin]; [|now apply (IH k')].
      injection E as _ ->. discriminate. }
    destruct v as [ | | | |d| ]; try (left; now apply Hother).
    destruct (is_number (get_default d "Play Count" (PInt 0))) eqn:E.
    + left. intros k' d' [E'|Hin]; [|now apply (IH k')].
      injection E' as _ <-. exact E.
    + right. exists k, d. split; [now left | exact E].
  - right. exists k0, d0. split; [now right | exact Hn].
Qed.

(** X10. From the root that [ET.parse] delivered, [parse_tracks] always
    ends, and fails in three ways only: with the [ValueError] of a
    malformed integer exactly when decoding the first [dict] child raises
    it, with [AttributeError] exactly when the library holds a [Tracks]
    entry that is not a record, and with [TypeError] exactly when [Tracks]
    is a record that holds a track record whose [Play Count] is there and
    is not a number. What [ET.parse] itself raises on line 45, for a file
    that is missing or is not XML, comes before and is no part of this. *)
Theorem parse_tracks_failures (root : Element) :
  parse_tracks root <> Cut /\
  (forall e, parse_tracks root = Fail e ->
     e = Exn ValueError \/ e = AttributeError \/ e = Exn TypeError) /\
  (parse_tracks root = Fail (Exn ValueError) <->
   exists p, find (fun c => tag c =? "dict") (children root) = Some p /\
             decode p = Raise ValueError) /\
  (parse_tracks root = Fail AttributeError <->
   exists lib v, library root lib /\
                 dict_get lib (Some "Tracks") = Some v /\ is_dict v = false) /\
  (parse_tracks root = Fail (Exn TypeError) <->
   exists lib items k d,
     library root lib /\
     dict_get lib (Some "Tracks") = Some (PDict items) /\
     In (k, PDict d) items /\
     is_number (get_default d "Play Count" (PInt 0)) = false).
Proof.
  destruct (parse_tracks_three_ways root) as (H1 & H2 & H3 & H4).
  split; [exact H1|]. split; [exact H2|]. split; [exact H3|]. split; [exact H4|].
  split.
  - intros Hfail.
    destruct (parse_tracks_cases root)
      as [[_ E]|[(p & _ & _ & E)|(lib & Hlib & [[_ E]|[(v & _ & _ & E)|(items & Ht & _)]])]];
      try congruence.
    destruct (parse_tracks_items root lib items Hlib Ht) as [Eloop Hp].
    destruct (play_counts_decided items) as [Hnum|(k & d & Hin & Hn)].
    + destruct (tracks_loop_succeeds items Hp Hnum []) as [tracks Hdone].
      congruence.
    + now exists lib, items, k, d.
  - intros (lib & items & k & d & Hlib & Ht & Hin & Hn).
    destruct (parse_tracks_items root lib items Hlib Ht) as [-> Hp].
    exact (tracks_loop_fails items d k Hp Hin Hn []).
Qed.

Lemma parse_tracks_failures_witness :
  parse_tracks array_tracks_root = Fail AttributeError /\
  parse_tracks textual_count_root = Fail (Exn TypeError).
Proof.
  split.
  - apply (proj1 (proj2 (proj2 (proj2 (parse_tracks_failures array_tracks_root))))).
    exists [(Some "Tracks", PList [])], (PList []).
    split; [|split; reflexivity].
    eexists. split; reflexivity.
  - apply (proj2 (proj2 (proj2 (proj2 (parse_tracks_failures textual_count_root))))).
    exists [(Some "Tracks",
             PDict [(Some "7", PDict [(Some "Name", PStr "Blue in Green");
                                      (Some "Play Count", PStr "5")])])],
           [(Some "7", PDict [(Some "Name", PStr "Blue in Green");
                              (Some "Play Count", PStr "5")])],
           (Some "7"),
           [(Some "Name", PStr "Blue in Green"); (Some "Play Count", PStr "5")].
    split; [eexists; split; reflexivity|].
    split; [reflexivity|]. split; [now left | reflexivity].
Defined.

Lemma bound_64_bit (n : Z) :
  (- 2 ^ 63 <= n < 2 ^ 63)%Z -> (Z.abs n < 10 ^ Z.of_nat int_max_str_digits)%Z.
Proof.
  intros Hn. apply Z.le_lt_trans with (m := (2 ^ 63)%Z); [lia|].
  apply Z.lt_le_trans with (m := (10 ^ 63)%Z).
  - apply Z.pow_lt_mono_l; lia.
  - apply Z.pow_le_mono_r; [lia|]. pose proof max_str_digits_64. lia.
Qed.

(** X11. The [id] of a track is the decimal numeral of its [Track ID] when
    that is a 64-bit integer, and [int] reads the number back from it.
    Without a [Track ID] the [id] is [str] of the key of the entry in
    [Tracks]: the text of the key, and the four letters [None] for an
    entry whose key node had no text. *)
Theorem track_id_reads_back (k : pykey) (d : list (pykey * value)) :
  (forall n, dict_get d (Some "Track ID") = Some (PInt n) ->
     (- 2 ^ 63 <= n < 2 ^ 63)%Z ->
     exists t, track_of k d = Done t /\
       dict_get t (Some "id") = Some (PStr (decimal n)) /\
       py_int (decimal n) = Some n) /\
  (dict_get d (Some "Track ID") = None ->
     exists t, track_of k d = Done t /\
       dict_get t (Some "id")
       = Some (PStr match k with Some s => s | None => "None" end)).
Proof.
  split.
  - intros n Hid Hn. unfold track_of, get_default. rewrite Hid.
    cbn [py_str py_repr]. rewrite (str_int_done n (bound_64_bit n Hn)).
    cbn [run_bind]. eexists. split; [reflexivity|].
    split; [reflexivity | now apply py_int_decimal].
  - intros Hid. unfold track_of, get_default. rewrite Hid.
    destruct k as [s|]; cbn [key_value py_str py_repr run_bind];
      eexists; split; reflexivity.
Qed.

Lemma track_id_reads_back_witness :
  (exists t,
     track_of (Some "1001") [(Some "Track ID", PInt 1001); (Some "Play Count", PInt 3)]
       = Done t /\
     dict_get t (Some "id") = Some (PStr "1001") /\ py_int "1001" = Some 1001%Z) /\
  (exists t,
     track_of None [(Some "Play Count", PInt 3)] = Done t /\
     dict_get t (Some "id") = Some (PStr "None")).
Proof.
  split.
  - apply (proj1 (track_id_reads_back (Some "1001")
                    [(Some "Track ID", PInt 1001); (Some "Play Count", PInt 3)]) 1001%Z).
    + reflexivity.
    + lia.
  - apply (proj2 (track_id_reads_back None [(Some "Play Count", PInt 3)])).
    reflexivity.
Defined.

(** ** What a decoded record holds *)

Lemma dict_set_keys {V : Type} (r : list (pykey * V)) (k : pykey) (v : V) :
  (In k (dict_keys r) /\ dict_keys (dict_set r k v) = dict_keys r /\
   length (dict_set r k v) = length r) \/
  (~ In k (dict_keys r) /\ dict_keys (dict_set r k v) = dict_keys r ++ [k] /\
   length (dict_set r k v) = S (length r)).
Proof.
  destruct (existsb (key_eqb k) (dict_keys r)) eqn:E.
  - left. apply existsb_key_In in E. split; [exact E|].
    pose proof (dict_keys_set_old r k v E) as Hk. split; [exact Hk|].
    unfold dict_keys in Hk. apply (f_equal (@length pykey)) in Hk.
    now rewrite !length_map in Hk.
  - right. assert (Hnin : ~ In k (dict_keys r)).
    { intros Hin. apply existsb_key_In in Hin. congruence. }
    split; [exact Hnin|]. rewrite (dict_set_new r k v Hnin).
    unfold dict_keys. rewrite map_app, length_app. simpl. split; [reflexivity | lia].
Qed.

Lemma walk_list_record rec cs : forall r d,
  walk_list rec cs r = Return (PDict d) ->
  NoDup (dict_keys r) ->
  NoDup (dict_keys d) /\
  (forall k, In k (dict_keys d) ->
     In k (dict_keys r) \/ exists c, In c cs /\ tag c = "key" /\ text c = k) /\
  2 * length d <= 2 * length r + length cs.
Proof.
  induction cs as [| k | k x rest IH2 IH1] using pairs_ind; intros r d H Hr;
    try (injection H as <-; repeat split; [assumption | now left | simpl; lia]).
  cbn [walk_list] in H. destruct (tag k =? "key") eqn:Et.
  - apply String.eqb_eq in Et.
    destruct (rec x) as [w| |]; cbn [bind] in H; try discriminate.
    destruct (dict_set_keys r (text k) w) as [(Hin & Hk & Hl)|(Hnin & Hk & Hl)].
    + destruct (IH2 _ _ H) as (Hnd & Hkeys & Hlen); [now rewrite Hk|].
      repeat split; [exact Hnd | | simpl; lia].
      intros k0 Hk0. destruct (Hkeys k0 Hk0) as [Hold|(c & Hc & Hc')].
      * left. now rewrite Hk in Hold.
      * right. exists c. split; [now do 2 right | exact Hc'].
    + destruct (IH2 _ _ H) as (Hnd & Hkeys & Hlen).
      { rewrite Hk. apply NoDup_app; [assumption | repeat constructor; tauto |].
        intros a Ha [<-|[]]. contradiction. }
      repeat split; [exact Hnd | | simpl; lia].
      intros k0 Hk0. destruct (Hkeys k0 Hk0) as [Hold|(c & Hc & Hc')].
      * rewrite Hk in Hold. apply in_app_or in Hold as [Hold|[<-|[]]]; [now left|].
        right. exists k. split; [now left | now split].
      * right. exists c. split; [now do 2 right | exact Hc'].
  - destruct (IH1 _ _ H Hr) as (Hnd & Hkeys & Hlen).
    repeat split; [exact Hnd | | simpl in *; lia].
    intros k0 Hk0. destruct (Hkeys k0 Hk0) as [Hold|(c & Hc & Hc')]; [now left|].
    right. exists c. split; [now right | exact Hc'].
Qed.

(** X12. A record the decoder returns for a [dict] node has pairwise
    distinct keys, each of them the text of a [key] child of the node, and
    at most half as many entries as the node has children. *)
Theorem decoded_record_keys (fuel : nat) (x : option string)
    (cs : list Element) (d : list (pykey * value)) :
  height (Elem "dict" x cs) <= fuel ->
  parse_plist_value fuel (Elem "dict" x cs) = Return (PDict d) ->
  NoDup (dict_keys d) /\
  (forall k, In k (dict_keys d) ->
     exists c, In c cs /\ tag c = "key" /\ text c = k) /\
  2 * length d <= length cs.
Proof.
  intros Hfuel H. rewrite (decode_fuel _ _ Hfuel) in H.
  rewrite (decode_dict "dict" x cs eq_refl) in H.
  destruct (walk_list_record decode cs [] d H) as (Hnd & Hkeys & Hlen);
    [constructor|].
  repeat split; [exact Hnd | | simpl in Hlen; lia].
  intros k Hk. destruct (Hkeys k Hk) as [[]|Hc]. exact Hc.
Qed.

Lemma decoded_record_keys_witness :
  NoDup (dict_keys [(Some "A", PStr "y")]) /\
  2 * length [(Some "A", PStr "y")] <= length (children repeated_doc).
Proof.
  destruct (decoded_record_keys 2 None [key "A"; str "x"; key "A"; str "y"]
              [(Some "A", PStr "y")] (le_n 2) eq_refl) as (Hnd & _ & Hlen).
  split; [exact Hnd | exact Hlen].
Defined.

(** ** Sorting by a numeric key *)

Section SortFacts.
Context {A : Type}.
Implicit Types (l s : list (Z * A)).

Lemma insert_desc_perm k a s : Permutation ((k, a) :: s) (insert_desc k a s).
Proof.
  induction s as [|[k' a'] s IH]; simpl; [reflexivity|].
  destruct (k <? k')%Z; [|reflexivity].
  rewrite perm_swap. now apply perm_skip.
Qed.

Lemma sort_desc_perm l : Permutation l (sort_desc l).
Proof.
  induction l as [|[k a] l IH]; simpl; [reflexivity|].
  rewrite <- insert_desc_perm. now apply perm_skip.
Qed.

Lemma insert_desc_sorted k a s :
  StronglySorted key_desc s -> StronglySorted key_desc (insert_desc k a s).
Proof.
  induction 1 as [|[k' a'] s Hs IH Hall]; simpl; [repeat constructor|].
  destruct (k <? k')%Z eqn:E.
  - apply Z.ltb_lt in E. constructor; [exact IH|].
    rewrite <- insert_desc_perm. constructor; [unfold key_desc; simpl; lia | exact Hall].
  - apply Z.ltb_ge in E. constructor; [now constructor|].
    constructor; [unfold key_desc; simpl; lia|].
    eapply Forall_impl; [|exact Hall]. unfold key_desc. simpl. intros; lia.
Qed.

Lemma sort_desc_sorted l : StronglySorted key_desc (sort_desc l).
Proof.
  induction l as [|[k a] l IH]; simpl; [constructor | now apply insert_desc_sorted].
Qed.
End SortFacts.

Lemma StronglySorted_map {A B : Type} (R : B -> B -> Prop) (f : A -> B) (l : list A) :
  StronglySorted (fun x y => R (f x) (f y)) l -> StronglySorted R (map f l).
Proof.
  induction 1 as [|a l _ IH Hall]; simpl; constructor; [exact IH|].
  apply Forall_map. exact Hall.
Qed.

Lemma StronglySorted_app_inv {A : Type} (R : A -> A -> Prop) (l1 l2 : list A) :
  StronglySorted R (l1 ++ l2) ->
  StronglySorted R l1 /\ StronglySorted R l2 /\
  forall a b, In a l1 -> In b l2 -> R a b.
Proof.
  induction l1 as [|x l1 IH]; simpl; intros H.
  - repeat split; [constructor | exact H | contradiction].
  - apply StronglySorted_inv in H as [H Hall].
    destruct (IH H) as (H1 & H2 & Hcross).
    apply Forall_app in Hall as [Hall1 Hall2].
    repeat split; [now constructor | exact H2 |].
    intros a b [<-|Ha] Hb; [|now apply Hcross].
    rewrite Forall_forall in Hall2. now apply Hall2.
Qed.

(** The keys [sorted] takes from the tracks are their play counts. *)
Lemma play_count_keys (tracks : list (list (pykey * value))) keys ns :
  run_all (map (fun x => py_item x "playCount") tracks) = Done keys ->
  numbers_of keys = Some ns ->
  combine ns tracks = map (fun t => (track_count t, t)) tracks.
Proof.
  revert keys ns. induction tracks as [|t tracks IH]; intros keys ns Hk Hn.
  - now destruct ns.
  - cbn [map run_all] in Hk. unfold py_item at 1 in Hk.
    destruct (dict_get t (Some "playCount")) as [v|] eqn:Ev; cbn [run_bind] in Hk;
      [|discriminate].
    destruct (run_all (map (fun x => py_item x "playCount") tracks)) as [keys'| |] eqn:Ek;
      cbn [run_bind] in Hk; try discriminate.
    injection Hk as <-. cbn [numbers_of] in Hn.
    destruct (number_of v) as [n|] eqn:En; [|discriminate].
    destruct (numbers_of keys') as [ns'|] eqn:Ens; [|discriminate].
    injection Hn as <-. cbn [combine map]. rewrite (IH keys' ns' eq_refl Ens).
    f_equal. unfold track_count. now rewrite Ev, En.
Qed.

(** What [sorted] returns: the same tracks, in descending order of play
    count. *)
Lemma sorted_by_play_count_done tracks sorted :
  sorted_by_play_count tracks = Done sorted ->
  Permutation tracks sorted /\ StronglySorted count_desc sorted.
Proof.
  unfold sorted_by_play_count.
  destruct (run_all (map (fun x => py_item x "playCount") tracks)) as [keys| |] eqn:Ek;
    cbn [run_bind]; try discriminate.
  destruct tracks as [|t1 [|t2 tracks]].
  - intros H. injection H as <-. split; [reflexivity | constructor].
  - intros H. injection H as <-. split; [reflexivity | repeat constructor].
  - destruct (numbers_of keys) as [ns|] eqn:En; [|discriminate].
    intros H. injection H as <-.
    rewrite (play_count_keys _ _ _ Ek En).
    set (keyed := map (fun t => (track_count t, t)) (t1 :: t2 :: tracks)).
    assert (Hkeyed : Forall (fun p => fst p = track_count (snd p)) (sort_desc keyed)).
    { rewrite <- (sort_desc_perm keyed). unfold keyed. apply Forall_map.
      apply Forall_forall. reflexivity. }
    split.
    + transitivity (map snd keyed).
      * unfold keyed. rewrite map_map. simpl. now rewrite map_id.
      * apply Permutation_map, sort_desc_perm.
    + apply StronglySorted_map.
      pose proof (sort_desc_sorted keyed) as Hs.
      induction Hs as [|p s Hs IH Hall]; constructor.
      * apply IH. now inversion Hkeyed.
      * inversion Hkeyed as [|? ? Hp Hrest]; subst.
        rewrite Forall_forall in *. intros q Hq. specialize (Hall q Hq).
        unfold key_desc in Hall. unfold count_desc.
        rewrite <- Hp, <- (Hrest q Hq). exact Hall.
Qed.

(** ** The groups of the loop *)

Lemma key_equal_refl (k : value) : hashable k = true -> key_equal k k = true.
Proof.
  destruct k as [ |s|n|b| | ]; simpl; intros H; try discriminate;
    try reflexivity.
  - apply String.eqb_refl.
  - apply Z.eqb_refl.
  - now destruct b.
Qed.

Lemma group_append_perm groups key x :
  Permutation (flat_map snd (group_append groups key x)) (flat_map snd groups ++ [x]).
Proof.
  induction groups as [|[k g] groups IH]; simpl; [reflexivity|].
  destruct (key_equal k key); simpl.
  - rewrite <- !app_assoc. apply Permutation_app_head, Permutation_app_comm.
  - rewrite <- app_assoc. now apply Permutation_app_head.
Qed.

Lemma group_append_keys (P : value -> Prop) groups key x :
  Forall (fun kg => P (fst kg)) groups -> P key ->
  Forall (fun kg => P (fst kg)) (group_append groups key x).
Proof.
  intros Hall Hkey. induction Hall as [|[k g] groups Hk Hrest IH]; simpl in *.
  - now repeat constructor.
  - destruct (key_equal k key); constructor; assumption.
Qed.

Lemma group_append_distinct groups key x :
  ForallOrdPairs (fun a b => key_equal (fst a) (fst b) = false) groups ->
  ForallOrdPairs (fun a b => key_equal (fst a) (fst b) = false)
                 (group_append groups key x).
Proof.
  induction 1 as [|[k g] groups Hk Hrest IH]; simpl in *; [repeat constructor|].
  destruct (key_equal k key) eqn:E.
  - constructor; assumption.
  - constructor; [|exact IH].
    apply (group_append_keys (fun k' => key_equal k k' = false)); assumption.
Qed.

Lemma group_append_ok field groups seen key x :
  groups_ok field groups seen ->
  hashable key = true -> dict_get x (Some field) = Some key ->
  groups_ok field (group_append groups key x) (seen ++ [x]).
Proof.
  intros (Hperm & Hdist & Hall) Hhash Hx. split; [|split].
  - rewrite group_append_perm. now apply Permutation_app_tail.
  - now apply group_append_distinct.
  - clear Hperm Hdist.
    induction Hall as [|[k g] groups (Hk & Hg & Hin) Hrest IH]; simpl in *.
    + repeat constructor; simpl; try assumption; [discriminate|].
      exists key. split; [exact Hx | now apply key_equal_refl].
    + destruct (key_equal k key) eqn:E; constructor; try assumption.
      * simpl. repeat split; [exact Hk | now destruct g |].
        apply Forall_app. split; [exact Hin|].
        repeat constructor. now exists key.
      * now repeat split.
Qed.

(** A group is found again under its own key. *)
Lemma group_get_own groups k g :
  ForallOrdPairs (fun a b => key_equal (fst a) (fst b) = false) groups ->
  Forall (fun kg => hashable (fst kg) = true) groups ->
  In (k, g) groups -> group_get groups k = g.
Proof.
  induction 1 as [|[k0 g0] groups Hk0 _ IH]; intros Hhash Hin; [contradiction|].
  inversion Hhash as [|? ? Hh0 Hhash']; subst. simpl in *.
  destruct Hin as [E|Hin].
  - injection E as -> ->. now rewrite key_equal_refl.
  - rewrite Forall_forall in Hk0. specialize (Hk0 (k, g) Hin). simpl in Hk0.
    rewrite Hk0. now apply IH.
Qed.

Lemma grouping_ok_start : grouping_ok (Grouping [] [] [] []).
Proof. repeat split; simpl; try constructor. Qed.

(** What the loop over the sorted tracks leaves: the tracks with their
    slugs, in order, and the three [defaultdict]s in order for them. *)
Lemma group_loop_done tracks : forall st st',
  group_loop tracks st = Done st' ->
  grouping_ok st ->
  grouping_ok st' /\
  exists new, slugged st' = slugged st ++ new /\
              Forall2 slugged_as tracks (map PDict new).
Proof.
  induction tracks as [|t tracks IH]; intros st st' H Hok.
  - injection H as <-. split; [exact Hok|]. exists []. rewrite app_nil_r.
    split; [reflexivity | constructor].
  - cbn [group_loop] in H. unfold py_item at 1 in H.
    destruct (dict_get t (Some "name")) as [name|] eqn:En; cbn [run_bind] in H;
      [|discriminate].
    destruct (slugify_value name) as [slug| |] eqn:Es; cbn [run_bind] in H;
      try discriminate.
    set (t' := dict_set t (Some "slug") (PStr slug)) in *.
    unfold py_item in H.
    destruct (dict_get t' (Some "album")) as [album|] eqn:Eal; cbn [run_bind] in H;
      [|discriminate].
    destruct (dict_get t' (Some "artist")) as [artist|] eqn:Ear; cbn [run_bind] in H;
      [|discriminate].
    destruct (dict_get t' (Some "genre")) as [genre|] eqn:Eg; cbn [run_bind] in H;
      [|discriminate].
    unfold group_add in H.
    destruct (hashable album) eqn:Hal; cbn [run_bind] in H; [|discriminate].
    destruct (hashable artist) eqn:Har; cbn [run_bind] in H; [|discriminate].
    destruct (hashable genre) eqn:Hg; cbn [run_bind] in H; [|discriminate].
    destruct Hok as (Hok1 & Hok2 & Hok3).
    destruct (IH _ _ H) as (Hok' & new & Hnew & Hrel).
    { split; [|split]; cbn [albums artists genres slugged];
        apply group_append_ok; assumption. }
    split; [exact Hok'|]. exists (t' :: new). cbn [slugged] in Hnew.
    rewrite Hnew, <- app_assoc. split; [reflexivity|].
    constructor; [|exact Hrel]. now exists name, slug.
Qed.

Lemma run_all_Forall2 {A B : Type} (f : A -> run B) (l : list A) (r : list B) :
  run_all (map f l) = Done r -> Forall2 (fun a b => f a = Done b) l r.
Proof.
  revert r. induction l as [|a l IH]; intros r H.
  - injection H as <-. constructor.
  - cbn [map run_all] in H.
    destruct (f a) as [b| |] eqn:Ea; cbn [run_bind] in H; try discriminate.
    destruct (run_all (map f l)) as [r'| |]; cbn [run_bind] in H; try discriminate.
    injection H as <-. constructor; [exact Ea | now apply IH].
Qed.

Lemma album_entry_for groups name entry :
  album_entry groups name = Done entry -> entry_for groups name entry.
Proof.
  unfold album_entry.
  destruct (slugify_value name); cbn [run_bind]; try discriminate.
  destruct (group_get groups name) as [|first rest] eqn:Eg; cbn [run_bind];
    [discriminate|].
  destruct (py_item first "artist"); cbn [run_bind]; try discriminate.
  intros H. injection H as <-. split; [reflexivity|].
  rewrite Eg. reflexivity.
Qed.

Lemma named_entry_for groups name entry :
  named_entry groups name = Done entry -> entry_for groups name entry.
Proof.
  unfold named_entry.
  destruct (slugify_value name); cbn [run_bind]; try discriminate.
  intros H. injection H as <-. split; reflexivity.
Qed.

Lemma sort_groups_perm {K A : Type} (groups : list (K * list A)) :
  Permutation groups
    (map snd (sort_desc (map (fun kg => (Z.of_nat (length (snd kg)), kg)) groups))).
Proof.
  rewrite <- sort_desc_perm, map_map. simpl. now rewrite map_id.
Qed.

Lemma sort_groups_sorted {K A : Type} (groups : list (K * list A)) :
  StronglySorted size_desc
    (map snd (sort_desc (map (fun kg => (Z.of_nat (length (snd kg)), kg)) groups))).
Proof.
  set (keyed := map (fun kg => (Z.of_nat (length (snd kg)), kg)) groups).
  assert (Hkeyed : Forall (fun p => fst p = Z.of_nat (length (snd (snd p))))
                          (sort_desc keyed)).
  { rewrite <- (sort_desc_perm keyed). unfold keyed. apply Forall_map.
    apply Forall_forall. reflexivity. }
  apply StronglySorted_map.
  pose proof (sort_desc_sorted keyed) as Hs.
  induction Hs as [|p s Hs IH Hall]; constructor.
  - apply IH. now inversion Hkeyed.
  - inversion Hkeyed as [|? ? Hp Hrest]; subst.
    rewrite Forall_forall in *. intros q Hq. specialize (Hall q Hq).
    unfold key_desc in Hall. unfold size_desc.
    rewrite Hp, (Hrest q Hq) in Hall. lia.
Qed.

(** ** The document [generate_music_data] returns *)

(** The steps behind a returned document. *)
Lemma generate_music_data_done tracks out :
  generate_music_data tracks = Done out ->
  exists sorted st album_list artist_list genre_list,
    sorted_by_play_count tracks = Done sorted /\
    group_loop (firstn 200 sorted) (Grouping [] [] [] []) = Done st /\
    run_all (map (fun kg => album_entry (albums st) (fst kg))
                 (sort_groups (albums st))) = Done album_list /\
    run_all (map (fun kg => named_entry (artists st) (fst kg))
                 (sort_groups (artists st))) = Done artist_list /\
    run_all (map (fun kg => named_entry (genres st) (fst kg))
                 (firstn 10 (sort_groups (genres st)))) = Done genre_list /\
    out = PDict [ (Some "tracks", PList (map PDict (slugged st)));
                  (Some "albums", PList album_list);
                  (Some "artists", PList artist_list);
                  (Some "genres", PList genre_list) ].
Proof.
  unfold generate_music_data. intros H.
  destruct (sorted_by_play_count tracks) as [sorted| |] eqn:E1;
    cbn [run_bind] in H; try discriminate.
  destruct (group_loop (firstn 200 sorted) (Grouping [] [] [] [])) as [st| |] eqn:E2;
    cbn [run_bind] in H; try discriminate.
  destruct (run_all (map (fun kg => album_entry (albums st) (fst kg))
                         (sort_groups (albums st)))) as [album_list| |] eqn:E3;
    cbn [run_bind] in H; try discriminate.
  destruct (run_all (map (fun kg => named_entry (artists st) (fst kg))
                         (sort_groups (artists st)))) as [artist_list| |] eqn:E4;
    cbn [run_bind] in H; try discriminate.
  destruct (run_all (map (fun kg => named_entry (genres st) (fst kg))
                         (firstn 10 (sort_groups (genres st))))) as [genre_list| |] eqn:E5;
    cbn [run_bind] in H; try discriminate.
  injection H as <-. exists sorted, st, album_list, artist_list, genre_list.
  repeat split; assumption.
Qed.

(** X13. The ['tracks'] of the document are the tracks of the highest play
    counts, at most 200 of them, in descending order of play count, each
    with the slug of its name added: no track left out has a higher count
    than a track kept. *)
Theorem top_tracks (tracks : list (list (pykey * value))) (out : value) :
  generate_music_data tracks = Done out ->
  exists chosen rest,
    Permutation tracks (chosen ++ rest) /\
    length chosen = Nat.min 200 (length tracks) /\
    Forall2 slugged_as chosen (section_of out "tracks") /\
    StronglySorted count_desc chosen /\
    (forall a b, In a chosen -> In b rest ->
       (track_count b <= track_count a)%Z).
Proof.
  intros H.
  destruct (generate_music_data_done _ _ H)
    as (sorted & st & al & ar & ge & Hsort & Hloop & _ & _ & _ & ->).
  destruct (sorted_by_play_count_done _ _ Hsort) as [Hperm Hsorted].
  destruct (group_loop_done _ _ _ Hloop grouping_ok_start)
    as (_ & new & Hnew & Hrel).
  cbn [slugged app] in Hnew.
  exists (firstn 200 sorted), (skipn 200 sorted).
  rewrite firstn_skipn. rewrite <- (firstn_skipn 200 sorted) in Hsorted.
  apply StronglySorted_app_inv in Hsorted as (Hs1 & _ & Hcross).
  repeat split; try assumption.
  - rewrite length_firstn. now rewrite (Permutation_length Hperm).
  - change (section_of _ "tracks") with (map PDict (slugged st)).
    now rewrite Hnew.
Qed.

Lemma top_tracks_witness :
  exists chosen rest,
    Permutation sample_tracks (chosen ++ rest) /\
    length chosen = 3 /\ StronglySorted count_desc chosen.
Proof.
  destruct (top_tracks sample_tracks _ eq_refl)
    as (chosen & rest & Hperm & Hlen & _ & Hsorted & _).
  exists chosen, rest. repeat split; assumption.
Defined.

(** ** The albums, artists and genres of the document *)

Lemma section_entries field groups seen (f : value -> run value)
    (chosen : list (value * list (list (pykey * value)))) (entries : list value) :
  groups_ok field groups seen ->
  (forall name e, f name = Done e -> entry_for groups name e) ->
  (forall kg, In kg chosen -> In kg groups) ->
  run_all (map (fun kg => f (fst kg)) chosen) = Done entries ->
  Forall2 (fun kg e => entry_name e = fst kg /\ entry_tracks e = map PDict (snd kg))
          chosen entries.
Proof.
  intros (_ & Hdist & Hall) Hf Hincl Hrun.
  apply run_all_Forall2 in Hrun.
  assert (Hhash : Forall (fun kg => hashable (fst kg) = true) groups)
    by (eapply Forall_impl; [|exact Hall]; now intros kg (Hh & _)).
  induction Hrun as [|[k g] e chosen entries He _ IH]; constructor.
  - destruct (Hf _ _ He) as [Hname Htracks]. simpl in *. split; [exact Hname|].
    rewrite Htracks.
    now rewrite (group_get_own groups k g Hdist Hhash (Hincl _ (or_introl eq_refl))).
  - apply IH. intros kg Hkg. apply Hincl. now right.
Qed.

Lemma entries_flat_map (chosen : list (value * list (list (pykey * value))))
    (entries : list value) :
  Forall2 (fun kg e => entry_name e = fst kg /\ entry_tracks e = map PDict (snd kg))
          chosen entries ->
  flat_map entry_tracks entries = map PDict (flat_map snd chosen).
Proof.
  induction 1 as [|kg e chosen entries [_ He] _ IH]; [reflexivity|].
  simpl. now rewrite He, IH, map_app.
Qed.

Lemma sort_groups_In groups kg : In kg (sort_groups groups) -> In kg groups.
Proof.
  apply Permutation_in. symmetry. apply sort_groups_perm.
Qed.

Lemma firstn_In {A : Type} (n : nat) (l : list A) (a : A) :
  In a (firstn n l) -> In a l.
Proof.
  rewrite <- (firstn_skipn n l) at 2. intros H. apply in_or_app. now left.
Qed.

(** The sections of a returned document, read off the loop state. *)
Lemma generate_music_data_sections tracks out :
  generate_music_data tracks = Done out ->
  exists st,
    grouping_ok st /\
    section_of out "tracks" = map PDict (slugged st) /\
    Forall2 (fun kg e => entry_name e = fst kg /\ entry_tracks e = map PDict (snd kg))
            (sort_groups (albums st)) (section_of out "albums") /\
    Forall2 (fun kg e => entry_name e = fst kg /\ entry_tracks e = map PDict (snd kg))
            (sort_groups (artists st)) (section_of out "artists") /\
    Forall2 (fun kg e => entry_name e = fst kg /\ entry_tracks e = map PDict (snd kg))
            (firstn 10 (sort_groups (genres st))) (section_of out "genres").
Proof.
  intros H.
  destruct (generate_music_data_done _ _ H)
    as (sorted & st & al & ar & ge & _ & Hloop & Hal & Har & Hge & ->).
  destruct (group_loop_done _ _ _ Hloop grouping_ok_start) as (Hok & _).
  exists st. split; [exact Hok|]. destruct Hok as (Hok1 & Hok2 & Hok3).
  split; [reflexivity|]. split; [|split].
  - change (section_of _ "albums") with al.
    apply (section_entries "album" (albums st) (slugged st)
             (album_entry (albums st))); try assumption.
    + apply album_entry_for.
    + apply sort_groups_In.
  - change (section_of _ "artists") with ar.
    apply (section_entries "artist" (artists st) (slugged st)
             (named_entry (artists st))); try assumption.
    + apply named_entry_for.
    + apply sort_groups_In.
  - change (section_of _ "genres") with ge.
    apply (section_entries "genre" (genres st) (slugged st)
             (named_entry (genres st))); try assumption.
    + apply named_entry_for.
    + intros kg Hkg. apply sort_groups_In. now apply firstn_In in Hkg.
Qed.

(** X14. The album entries of the document share out its tracks: every
    track of the ['tracks'] list stands in the track list of exactly one
    album entry, and nothing else does; the same holds for the artist
    entries. The genre entries are at most ten and hold tracks of the
    ['tracks'] list only, each at most once. *)
Theorem entries_share_out_tracks (tracks : list (list (pykey * value))) (out : value) :
  generate_music_data tracks = Done out ->
  Permutation (flat_map entry_tracks (section_of out "albums"))
              (section_of out "tracks") /\
  Permutation (flat_map entry_tracks (section_of out "artists"))
              (section_of out "tracks") /\
  length (section_of out "genres") <= 10 /\
  exists others,
    Permutation (flat_map entry_tracks (section_of out "genres") ++ others)
                (section_of out "tracks").
Proof.
  intros H.
  destruct (generate_music_data_sections _ _ H)
    as (st & (Hok1 & Hok2 & Hok3) & -> & Hal & Har & Hge).
  split; [|split; [|split]].
  - rewrite (entries_flat_map _ _ Hal). apply Permutation_map.
    destruct Hok1 as (Hperm & _). rewrite <- Hperm.
    apply Permutation_flat_map. symmetry. apply sort_groups_perm.
  - rewrite (entries_flat_map _ _ Har). apply Permutation_map.
    destruct Hok2 as (Hperm & _). rewrite <- Hperm.
    apply Permutation_flat_map. symmetry. apply sort_groups_perm.
  - rewrite <- (Forall2_length Hge). apply firstn_le_length.
  - exists (map PDict (flat_map snd (skipn 10 (sort_groups (genres st))))).
    rewrite (entries_flat_map _ _ Hge), <- map_app, <- flat_map_app, firstn_skipn.
    apply Permutation_map. destruct Hok3 as (Hperm & _). rewrite <- Hperm.
    apply Permutation_flat_map. symmetry. apply sort_groups_perm.
Qed.

Lemma entries_share_out_tracks_witness :
  exists out,
    generate_music_data sample_tracks = Done out /\
    Permutation (flat_map entry_tracks (section_of out "albums"))
                (section_of out "tracks").
Proof.
  eexists. split; [reflexivity|].
  exact (proj1 (entries_share_out_tracks sample_tracks _ eq_refl)).
Defined.

Lemma StronglySorted_firstn {A : Type} (R : A -> A -> Prop) (n : nat) (l : list A) :
  StronglySorted R l -> StronglySorted R (firstn n l).
Proof.
  rewrite <- (firstn_skipn n l) at 1. intros H.
  now apply StronglySorted_app_inv in H.
Qed.

Lemma entries_sorted (chosen : list (value * list (list (pykey * value))))
    (entries : list value) :
  Forall2 (fun kg e => entry_name e = fst kg /\ entry_tracks e = map PDict (snd kg))
          chosen entries ->
  StronglySorted size_desc chosen -> StronglySorted entry_size_desc entries.
Proof.
  induction 1 as [|kg e chosen entries [_ He] Hrest IH]; intros Hs; [constructor|].
  apply StronglySorted_inv in Hs as [Hs Hall]. constructor; [now apply IH|].
  clear IH Hs. induction Hrest as [|kg' e' chosen entries [_ He'] _ IH]; [constructor|].
  inversion Hall as [|? ? Hkg' Hall']; subst. constructor; [|now apply IH].
  unfold entry_size_desc, size_desc in *. rewrite He, He', !length_map. exact Hkg'.
Qed.

(** X15. In each of the ['albums'], ['artists'] and ['genres'] lists the
    entries stand in descending order of their number of tracks. *)
Theorem entries_by_size (tracks : list (list (pykey * value))) (out : value) :
  generate_music_data tracks = Done out ->
  StronglySorted entry_size_desc (section_of out "albums") /\
  StronglySorted entry_size_desc (section_of out "artists") /\
  StronglySorted entry_size_desc (section_of out "genres").
Proof.
  intros H.
  destruct (generate_music_data_sections _ _ H) as (st & _ & _ & Hal & Har & Hge).
  split; [|split].
  - apply (entries_sorted _ _ Hal), sort_groups_sorted.
  - apply (entries_sorted _ _ Har), sort_groups_sorted.
  - apply (entries_sorted _ _ Hge), StronglySorted_firstn, sort_groups_sorted.
Qed.

Lemma entries_by_size_witness :
  exists out,
    generate_music_data sample_tracks = Done out /\
    StronglySorted entry_size_desc (section_of out "albums").
Proof.
  eexists. split; [reflexivity|].
  exact (proj1 (entries_by_size sample_tracks _ eq_refl)).
Defined.

Lemma key_equal_sym (a b : value) : key_equal a b = key_equal b a.
Proof.
  destruct a as [ |s|m|x| | ], b as [ |t|n|y| | ]; simpl; try reflexivity.
  - apply String.eqb_sym.
  - apply Z.eqb_sym.
  - apply Z.eqb_sym.
  - apply Z.eqb_sym.
  - apply Z.eqb_sym.
Qed.

Lemma ForallOrdPairs_perm {A : Type} (R : A -> A -> Prop) (l l' : list A) :
  (forall a b, R a b -> R b a) ->
  Permutation l l' -> ForallOrdPairs R l -> ForallOrdPairs R l'.
Proof.
  intros Hsym. induction 1 as [|x l l' Hperm IH|x y l|l l' l'' _ IH1 _ IH2];
    intros H.
  - constructor.
  - inversion H as [|? ? Hx Hl]; subst. constructor; [|now apply IH].
    now rewrite <- Hperm.
  - inversion H as [|? ? Hy Hxl]; subst. inversion Hxl as [|? ? Hx Hl]; subst.
    inversion Hy as [|? ? Hyx Hyl]; subst.
    constructor; [constructor; [now apply Hsym | exact Hx]|].
    now constructor.
  - auto.
Qed.

Lemma ForallOrdPairs_firstn {A : Type} (R : A -> A -> Prop) (n : nat) (l : list A) :
  ForallOrdPairs R l -> ForallOrdPairs R (firstn n l).
Proof.
  intros H. revert n. induction H as [|a l Ha _ IH]; intros [|n]; simpl;
    try constructor; [|apply IH].
  rewrite Forall_forall in *. intros b Hb. apply Ha. now apply firstn_In in Hb.
Qed.

Lemma entries_distinct (chosen : list (value * list (list (pykey * value))))
    (entries : list value) :
  Forall2 (fun kg e => entry_name e = fst kg /\ entry_tracks e = map PDict (snd kg))
          chosen entries ->
  ForallOrdPairs (fun a b => key_equal (fst a) (fst b) = false) chosen ->
  ForallOrdPairs (fun a b => key_equal (entry_name a) (entry_name b) = false) entries.
Proof.
  induction 1 as [|kg e chosen entries [He _] Hrest IH]; intros Hd; [constructor|].
  inversion Hd as [|? ? Hall Hd']; subst. constructor; [|now apply IH].
  clear IH Hd Hd'. induction Hrest as [|kg' e' chosen entries [He' _] _ IH];
    [constructor|].
  inversion Hall as [|? ? Hkg' Hall']; subst. constructor; [|now apply IH].
  now rewrite He, He'.
Qed.

Lemma entries_filed field (groups chosen : list (value * list (list (pykey * value))))
    (seen : list (list (pykey * value))) (entries : list value) :
  groups_ok field groups seen ->
  (forall kg, In kg chosen -> In kg groups) ->
  Forall2 (fun kg e => entry_name e = fst kg /\ entry_tracks e = map PDict (snd kg))
          chosen entries ->
  Forall (fun e => entry_tracks e <> [] /\
                   Forall (fun v => exists t, v = PDict t /\
                                              filed_under field (entry_name e) t)
                          (entry_tracks e)) entries.
Proof.
  intros (_ & _ & Hall) Hincl Hrel. rewrite Forall_forall in Hall.
  induction Hrel as [|kg e chosen entries [He Ht] _ IH]; constructor.
  - destruct (Hall kg (Hincl kg (or_introl eq_refl))) as (_ & Hne & Hfiled).
    rewrite Ht, He. split.
    + destruct (snd kg); [contradiction | discriminate].
    + apply Forall_map. eapply Forall_impl; [|exact Hfiled].
      intros t Hfile. now exists t.
  - apply IH. intros kg' Hkg'. apply Hincl. now right.
Qed.

Lemma sort_groups_distinct (groups : list (value * list (list (pykey * value)))) :
  ForallOrdPairs (fun a b => key_equal (fst a) (fst b) = false) groups ->
  ForallOrdPairs (fun a b => key_equal (fst a) (fst b) = false) (sort_groups groups).
Proof.
  apply ForallOrdPairs_perm; [|apply sort_groups_perm].
  intros a b Hab. now rewrite key_equal_sym.
Qed.

(** X16. The album entries of the document have pairwise different names,
    none is empty, and every track in an entry holds under ['album'] a
    value equal to the name of the entry; likewise the artist entries for
    ['artist'] and the genre entries for ['genre']. *)
Theorem entries_well_formed (tracks : list (list (pykey * value))) (out : value) :
  generate_music_data tracks = Done out ->
  forall section field,
    (section, field) = ("albums", "album") \/
    (section, field) = ("artists", "artist") \/
    (section, field) = ("genres", "genre") ->
    ForallOrdPairs (fun a b => key_equal (entry_name a) (entry_name b) = false)
                   (section_of out section) /\
    Forall (fun e => entry_tracks e <> [] /\
                     Forall (fun v => exists t, v = PDict t /\
                                                filed_under field (entry_name e) t)
                            (entry_tracks e))
           (section_of out section).
Proof.
  intros H section field Hsf.
  destruct (generate_music_data_sections _ _ H)
    as (st & (Hok1 & Hok2 & Hok3) & _ & Hal & Har & Hge).
  destruct Hsf as [E|[E|E]]; injection E as -> ->; split.
  - apply (entries_distinct _ _ Hal), sort_groups_distinct, Hok1.
  - apply (entries_filed "album" (albums st) (sort_groups (albums st)) (slugged st) _ Hok1); [|exact Hal].
    apply sort_groups_In.
  - apply (entries_distinct _ _ Har), sort_groups_distinct, Hok2.
  - apply (entries_filed "artist" (artists st) (sort_groups (artists st)) (slugged st) _ Hok2); [|exact Har].
    apply sort_groups_In.
  - apply (entries_distinct _ _ Hge), ForallOrdPairs_firstn, sort_groups_distinct, Hok3.
  - apply (entries_filed "genre" (genres st) (firstn 10 (sort_groups (genres st))) (slugged st) _ Hok3); [|exact Hge].
    intros kg Hkg. apply sort_groups_In. now apply firstn_In in Hkg.
Qed.

Lemma entries_well_formed_witness :
  exists out,
    generate_music_data sample_tracks = Done out /\
    ForallOrdPairs (fun a b => key_equal (entry_name a) (entry_name b) = false)
                   (section_of out "albums").
Proof.
  eexists. split; [reflexivity|].
  exact (proj1 (entries_well_formed sample_tracks _ eq_refl "albums" "album"
                  (or_introl eq_refl))).
Defined.

(** ** When [generate_music_data] returns a document *)

Lemma sorted_by_play_count_numbers tracks :
  Forall has_fields tracks -> exists sorted, sorted_by_play_count tracks = Done sorted.
Proof.
  intros Hall. unfold sorted_by_play_count.
  assert (H : exists keys ns,
            run_all (map (fun x => py_item x "playCount") tracks) = Done keys /\
            numbers_of keys = Some ns).
  { induction Hall as [|t tracks ((v & n & Hv & Hn) & _) _ (keys & ns & Hk & Hns)].
    - now exists [], [].
    - exists (v :: keys), (n :: ns). cbn [map run_all]. unfold py_item at 1.
      rewrite Hv. cbn [run_bind]. rewrite Hk. cbn [run_bind numbers_of].
      now rewrite Hn, Hns. }
  destruct H as (keys & ns & -> & Hns). cbn [run_bind]. rewrite Hns.
  destruct tracks as [|t1 [|t2 tracks]]; eexists; reflexivity.
Qed.

Lemma dict_get_slugged (t : list (pykey * value)) (slug field : string) :
  In field ["name"; "album"; "artist"; "genre"] ->
  dict_get (dict_set t (Some "slug") (PStr slug)) (Some field) = dict_get t (Some field).
Proof.
  intros Hin. apply dict_get_set_other.
  simpl in Hin. intros E. injection E as <-.
  repeat (destruct Hin as [Hin|Hin]; [discriminate|]). contradiction.
Qed.

Lemma group_append_artists groups key x :
  artists_known groups ->
  (exists v, dict_get x (Some "artist") = Some v) ->
  artists_known (group_append groups key x).
Proof.
  unfold artists_known. intros Hall Hx.
  induction Hall as [|[k g] groups Hg Hrest IH]; simpl in *.
  - now repeat constructor.
  - destruct (key_equal k key); constructor; try assumption.
    simpl. apply Forall_app. split; [exact Hg | now repeat constructor].
Qed.

Lemma slugify_value_outcome (v : value) :
  (exists slug, slugify_value v = Done slug) \/ slugify_value v = Fail (Exn TypeError).
Proof.
  unfold slugify_value.
  destruct (py_truth v); [|left; eexists; reflexivity].
  destruct v; try (now right). left; eexists; reflexivity.
Qed.

(** The loop over tracks that hold all their fields ends with the groups
    filled or with a [TypeError]. *)
Lemma group_loop_outcome tracks : forall st,
  Forall has_fields tracks ->
  artists_known (albums st) ->
  (exists st', group_loop tracks st = Done st' /\ artists_known (albums st')) \/
  group_loop tracks st = Fail (Exn TypeError).
Proof.
  induction tracks as [|t tracks IH]; intros st Hall Hst.
  - left. now exists st.
  - inversion Hall as [|? ? (_ & Hf) Hall']; subst.
    destruct (Hf "name" ltac:(simpl; tauto)) as [name Hname].
    destruct (Hf "album" ltac:(simpl; tauto)) as [album Halbum].
    destruct (Hf "artist" ltac:(simpl; tauto)) as [artist Hartist].
    destruct (Hf "genre" ltac:(simpl; tauto)) as [genre Hgenre].
    cbn [group_loop]. unfold py_item. rewrite Hname. cbn [run_bind].
    destruct (slugify_value_outcome name) as [[slug ->]| ->]; cbn [run_bind];
      [|now right].
    rewrite !dict_get_slugged by (simpl; tauto).
    rewrite Halbum, Hartist, Hgenre. cbn [run_bind]. unfold group_add.
    destruct (hashable album); cbn [run_bind]; [|now right].
    destruct (hashable artist); cbn [run_bind]; [|now right].
    destruct (hashable genre); cbn [run_bind]; [|now right].
    apply IH; [exact Hall'|]. cbn [albums].
    apply group_append_artists; [exact Hst|].
    exists artist. rewrite dict_get_slugged by (simpl; tauto). exact Hartist.
Qed.

Lemma group_append_text groups s x :
  text_keys groups -> text_keys (group_append groups (PStr s) x).
Proof.
  unfold text_keys. intros Hall.
  induction Hall as [|[k g] groups Hk Hrest IH]; simpl in *.
  - repeat constructor. now exists s.
  - destruct (key_equal k (PStr s)); constructor; assumption.
Qed.

(** With strings in all four fields the loop never fails, and the keys of
    its groups are strings. *)
Lemma group_loop_text tracks : forall st,
  Forall has_text_fields tracks ->
  text_keys (albums st) -> text_keys (artists st) -> text_keys (genres st) ->
  exists st', group_loop tracks st = Done st' /\
    text_keys (albums st') /\ text_keys (artists st') /\ text_keys (genres st').
Proof.
  induction tracks as [|t tracks IH]; intros st Hall H1 H2 H3.
  - now exists st.
  - inversion Hall as [|? ? (_ & Hf) Hall']; subst.
    destruct (Hf "name" ltac:(simpl; tauto)) as [name Hname].
    destruct (Hf "album" ltac:(simpl; tauto)) as [album Halbum].
    destruct (Hf "artist" ltac:(simpl; tauto)) as [artist Hartist].
    destruct (Hf "genre" ltac:(simpl; tauto)) as [genre Hgenre].
    cbn [group_loop]. unfold py_item. rewrite Hname. cbn [run_bind].
    assert (Hslug : exists slug, slugify_value (PStr name) = Done slug).
    { unfold slugify_value. destruct (py_truth (PStr name)); eexists; reflexivity. }
    destruct Hslug as [slug ->]. cbn [run_bind].
    rewrite !dict_get_slugged by (simpl; tauto).
    rewrite Halbum, Hartist, Hgenre. cbn [run_bind group_add hashable].
    apply IH; [exact Hall' | | |]; cbn [albums artists genres];
      now apply group_append_text.
Qed.

Lemma has_text_fields_fields t : has_text_fields t -> has_fields t.
Proof.
  intros [Hc Hf]. split; [exact Hc|]. intros field Hin.
  destruct (Hf field Hin) as [s Hs]. now exists (PStr s).
Qed.

Lemma entries_done field groups seen (f : value -> run value)
    (chosen : list (value * list (list (pykey * value)))) :
  groups_ok field groups seen ->
  (forall kg, In kg chosen -> In kg groups) ->
  (forall k g, In (k, g) groups -> g <> [] -> group_get groups k = g ->
     (exists e, f k = Done e) \/ f k = Fail (Exn TypeError)) ->
  (exists entries, run_all (map (fun kg => f (fst kg)) chosen) = Done entries) \/
  run_all (map (fun kg => f (fst kg)) chosen) = Fail (Exn TypeError).
Proof.
  intros (_ & Hdist & Hall) Hincl Hf.
  assert (Hhash : Forall (fun kg => hashable (fst kg) = true) groups)
    by (eapply Forall_impl; [|exact Hall]; now intros kg (Hh & _)).
  rewrite Forall_forall in Hall.
  induction chosen as [|[k g] chosen IH]; [left; now exists []|].
  cbn [map run_all fst].
  pose proof (Hincl (k, g) (or_introl eq_refl)) as Hin.
  destruct (Hall _ Hin) as (_ & Hne & _).
  destruct (Hf k g Hin Hne (group_get_own groups k g Hdist Hhash Hin)) as [[e ->]| ->];
    cbn [run_bind]; [|now right].
  destruct IH as [[entries ->]| ->]; cbn [run_bind];
    [intros kg Hkg; apply Hincl; now right | left; eexists; reflexivity | now right].
Qed.

Lemma named_entry_outcome groups name :
  (exists e, named_entry groups name = Done e) \/
  named_entry groups name = Fail (Exn TypeError).
Proof.
  unfold named_entry.
  destruct (slugify_value_outcome name) as [[slug ->]| ->]; cbn [run_bind];
    [left; eexists; reflexivity | now right].
Qed.

Lemma album_entry_outcome groups name g :
  artists_known groups -> In (name, g) groups -> g <> [] ->
  group_get groups name = g ->
  (exists e, album_entry groups name = Done e) \/
  album_entry groups name = Fail (Exn TypeError).
Proof.
  intros Hknown Hin Hne Hget. unfold album_entry. rewrite Hget.
  destruct (slugify_value_outcome name) as [[slug ->]| ->]; cbn [run_bind];
    [|now right].
  destruct g as [|first rest]; [contradiction|].
  unfold artists_known in Hknown. rewrite Forall_forall in Hknown.
  specialize (Hknown _ Hin). simpl in Hknown.
  inversion Hknown as [|? ? [v Hv] _]; subst.
  unfold py_item. rewrite Hv. cbn [run_bind]. left; eexists; reflexivity.
Qed.

(** The ways [generate_music_data] can go on tracks that hold their
    fields. *)
Lemma generate_music_data_outcome tracks :
  Forall has_fields tracks ->
  (exists out, generate_music_data tracks = Done out) \/
  generate_music_data tracks = Fail (Exn TypeError).
Proof.
  intros Hall. unfold generate_music_data.
  destruct (sorted_by_play_count_numbers tracks Hall) as [sorted Hsorted].
  rewrite Hsorted. cbn [run_bind].
  assert (Htop : Forall has_fields (firstn 200 sorted)).
  { destruct (sorted_by_play_count_done _ _ Hsorted) as [Hperm _].
    rewrite Hperm in Hall. rewrite Forall_forall in *.
    intros t Ht. apply Hall. now apply firstn_In in Ht. }
  destruct (group_loop_outcome (firstn 200 sorted) (Grouping [] [] [] []) Htop)
    as [(st & Hloop & Hknown)| ->]; [constructor | | now right].
  rewrite Hloop. cbn [run_bind].
  destruct (group_loop_done _ _ _ Hloop grouping_ok_start) as ((Hok1 & Hok2 & Hok3) & _).
  destruct (entries_done "album" (albums st) (slugged st) (album_entry (albums st))
              (sort_groups (albums st)) Hok1 (sort_groups_In _))
    as [[al ->]| ->]; cbn [run_bind]; [| |now right].
  { intros k g Hin Hne Hget. now apply (album_entry_outcome _ _ g). }
  destruct (entries_done "artist" (artists st) (slugged st) (named_entry (artists st))
              (sort_groups (artists st)) Hok2 (sort_groups_In _))
    as [[ar ->]| ->]; cbn [run_bind]; [| |now right].
  { intros k g _ _ _. apply named_entry_outcome. }
  destruct (entries_done "genre" (genres st) (slugged st) (named_entry (genres st))
              (firstn 10 (sort_groups (genres st))) Hok3)
    as [[ge ->]| ->]; cbn [run_bind]; [| | |now right].
  { intros kg Hkg. apply sort_groups_In. now apply firstn_In in Hkg. }
  { intros k g _ _ _. apply named_entry_outcome. }
  left. eexists. reflexivity.
Qed.

Lemma well_formed_track_fields t : well_formed_track t -> has_fields t.
Proof.
  intros (Hkeys & _ & Hplayed). unfold played in Hplayed.
  assert (Hget : forall field, In (Some field) track_fields ->
            exists v, dict_get t (Some field) = Some v).
  { intros field Hin. rewrite <- Hkeys in Hin. clear -Hin.
    induction t as [|[k v] t IH]; simpl in *; [contradiction|].
    destruct (key_eqb k (Some field)) eqn:E; [now exists v|].
    destruct Hin as [->|Hin]; [now rewrite key_eqb_refl in E | now apply IH]. }
  split.
  - destruct (dict_get t (Some "playCount")) as [[ | |n|b| | ]|]; try discriminate.
    + now exists (PInt n), n.
    + now exists (PBool b), (if b then 1 else 0)%Z.
  - intros field Hin. apply Hget. unfold track_fields. apply in_map.
    simpl in *. tauto.
Qed.

Lemma parse_tracks_well_formed (root : Element) (tracks : list (list (pykey * value))) :
  parse_tracks root = Done tracks -> Forall well_formed_track tracks.
Proof.
  unfold parse_tracks. intros H.
  destruct (find _ (children root)) as [plist_dict|]; [|injection H as <-; constructor].
  destruct (decoded plist_dict) as [lib| |]; cbn [run_bind] in H; try discriminate.
  destruct (py_get lib "Tracks" (PDict [])) as [tr| |]; cbn [run_bind] in H;
    try discriminate.
  destruct (py_items tr) as [items| |]; cbn [run_bind] in H; try discriminate.
  destruct (tracks_loop_done _ _ _ H) as (new & -> & Hnew & _). exact Hnew.
Qed.

(** X17. On the tracks [parse_tracks] returned, [generate_music_data] ends
    with a document or with a [TypeError]: it never misses a key, never
    compares play counts that are not numbers, never indexes an empty
    group. *)
Theorem pipeline_outcome (root : Element) (tracks : list (list (pykey * value))) :
  parse_tracks root = Done tracks ->
  (exists out, generate_music_data tracks = Done out) \/
  generate_music_data tracks = Fail (Exn TypeError).
Proof.
  intros H. apply generate_music_data_outcome.
  eapply Forall_impl; [|exact (parse_tracks_well_formed root tracks H)].
  apply well_formed_track_fields.
Qed.

Lemma pipeline_outcome_witness :
  exists tracks out,
    parse_tracks library_root = Done tracks /\ generate_music_data tracks = Done out.
Proof.
  destruct (pipeline_outcome library_root _ eq_refl) as [[out Hout]|Hfail].
  - eexists. exists out. split; [reflexivity | exact Hout].
  - discriminate Hfail.
Defined.

Lemma entries_all_done field groups seen (f : value -> run value)
    (chosen : list (value * list (list (pykey * value)))) :
  groups_ok field groups seen ->
  (forall kg, In kg chosen -> In kg groups) ->
  (forall k g, In (k, g) groups -> g <> [] -> group_get groups k = g ->
     exists e, f k = Done e) ->
  exists entries, run_all (map (fun kg => f (fst kg)) chosen) = Done entries.
Proof.
  intros (_ & Hdist & Hall) Hincl Hf.
  assert (Hhash : Forall (fun kg => hashable (fst kg) = true) groups)
    by (eapply Forall_impl; [|exact Hall]; now intros kg (Hh & _)).
  rewrite Forall_forall in Hall.
  apply run_all_done. apply Forall_map. apply Forall_forall. intros [k g] Hkg.
  pose proof (Hincl _ Hkg) as Hin. destruct (Hall _ Hin) as (_ & Hne & _).
  exact (Hf k g Hin Hne (group_get_own groups k g Hdist Hhash Hin)).
Qed.

Lemma slugify_text (s : string) : exists slug, slugify_value (PStr s) = Done slug.
Proof.
  unfold slugify_value. destruct (py_truth (PStr s)); eexists; reflexivity.
Qed.

(** X18. [generate_music_data] returns a document for every list of
    tracks that hold a number as play count and strings as name, album,
    artist and genre. *)
Theorem generate_music_data_succeeds (tracks : list (list (pykey * value))) :
  Forall has_text_fields tracks ->
  exists out, generate_music_data tracks = Done out.
Proof.
  intros Htext.
  assert (Hall : Forall has_fields tracks)
    by (eapply Forall_impl; [|exact Htext]; apply has_text_fields_fields).
  unfold generate_music_data.
  destruct (sorted_by_play_count_numbers tracks Hall) as [sorted Hsorted].
  rewrite Hsorted. cbn [run_bind].
  destruct (sorted_by_play_count_done _ _ Hsorted) as [Hperm _].
  assert (Htop : Forall has_text_fields (firstn 200 sorted)).
  { rewrite Hperm in Htext. rewrite Forall_forall in *.
    intros t Ht. apply Htext. now apply firstn_In in Ht. }
  assert (Htop' : Forall has_fields (firstn 200 sorted))
    by (eapply Forall_impl; [|exact Htop]; apply has_text_fields_fields).
  destruct (group_loop_text (firstn 200 sorted) (Grouping [] [] [] []) Htop)
    as (st & Hloop & Hk1 & Hk2 & Hk3); try constructor.
  destruct (group_loop_outcome (firstn 200 sorted) (Grouping [] [] [] []) Htop')
    as [(st' & Hloop' & Hknown)|Hfail]; [constructor | | congruence].
  assert (st' = st) by congruence. subst st'.
  rewrite Hloop. cbn [run_bind].
  destruct (group_loop_done _ _ _ Hloop grouping_ok_start) as ((Hok1 & Hok2 & Hok3) & _).
  destruct (entries_all_done "album" (albums st) (slugged st) (album_entry (albums st))
              (sort_groups (albums st)) Hok1 (sort_groups_In _)) as [al ->].
  { intros k g Hin Hne Hget.
    unfold text_keys in Hk1. rewrite Forall_forall in Hk1.
    destruct (Hk1 _ Hin) as [s Hs]. simpl in Hs. subst k.
    destruct (album_entry_outcome _ _ g Hknown Hin Hne Hget) as [He|He];
      [exact He|].
    unfold album_entry in He. destruct (slugify_text s) as [slug Hslug].
    rewrite Hslug, Hget in He. cbn [run_bind] in He.
    destruct g as [|first rest]; [contradiction|].
    unfold artists_known in Hknown. rewrite Forall_forall in Hknown.
    specialize (Hknown _ Hin). simpl in Hknown.
    inversion Hknown as [|? ? [v Hv] _]; subst.
    unfold py_item in He. rewrite Hv in He. discriminate. }
  cbn [run_bind].
  destruct (entries_all_done "artist" (artists st) (slugged st) (named_entry (artists st))
              (sort_groups (artists st)) Hok2 (sort_groups_In _)) as [ar ->].
  { intros k g Hin _ _.
    unfold text_keys in Hk2. rewrite Forall_forall in Hk2.
    destruct (Hk2 _ Hin) as [s Hs]. simpl in Hs. subst k.
    unfold named_entry. destruct (slugify_text s) as [slug ->].
    eexists; reflexivity. }
  cbn [run_bind].
  destruct (entries_all_done "genre" (genres st) (slugged st) (named_entry (genres st))
              (firstn 10 (sort_groups (genres st))) Hok3) as [ge ->].
  { intros kg Hkg. apply sort_groups_In. now apply firstn_In in Hkg. }
  { intros k g Hin _ _.
    unfold text_keys in Hk3. rewrite Forall_forall in Hk3.
    destruct (Hk3 _ Hin) as [s Hs]. simpl in Hs. subst k.
    unfold named_entry. destruct (slugify_text s) as [slug ->].
    eexists; reflexivity. }
  cbn [run_bind]. eexists. reflexivity.
Qed.

Lemma generate_music_data_succeeds_witness :
  exists out, generate_music_data sample_tracks = Done out.
Proof.
  apply generate_music_data_succeeds.
  repeat constructor; try (eexists; eexists; split; reflexivity);
    intros field [<-|[<-|[<-|[<-|[]]]]]; eexists; reflexivity.
Defined.

(** ** Media paths *)

Lemma dict_set_set {V : Type} (d : list (pykey * V)) (k : pykey) (v w : V) :
  dict_set (dict_set d k v) k w = dict_set d k w.
Proof.
  induction d as [|[k' v'] d IH]; simpl.
  - now rewrite key_eqb_refl.
  - destruct (key_eqb k' k) eqn:E; simpl; rewrite E; [reflexivity|].
    now rewrite IH.
Qed.

Lemma dict_set_get_id {V : Type} (d : list (pykey * V)) (k : pykey) (v : V) :
  dict_get d k = Some v -> dict_set d k v = d.
Proof.
  induction d as [|[k' v'] d IH]; simpl; [discriminate|].
  destruct (key_eqb k' k) eqn:E.
  - now intros [= ->].
  - intros H. now rewrite IH.
Qed.

Lemma dict_set_fst {V : Type} (d : list (pykey * V)) (k : pykey) (v w : V) :
  dict_get d k = Some w -> map fst (dict_set d k v) = map fst d.
Proof.
  induction d as [|[k' v'] d IH]; simpl; [discriminate|].
  destruct (key_eqb k' k) eqn:E; simpl; [reflexivity|].
  intros H. now rewrite IH.
Qed.

Lemma Forall2_refl_eq {A : Type} (l : list A) : Forall2 eq l l.
Proof. induction l; constructor; auto. Qed.

Lemma Forall2_eq_id {A : Type} (l l' : list A) : Forall2 eq l l' -> l = l'.
Proof. induction 1; congruence. Qed.

Lemma run_all_map_done {A B : Type} (f : A -> run B) (l : list A) (r : list B) :
  Forall2 (fun a b => f a = Done b) l r -> run_all (map f l) = Done r.
Proof.
  induction 1 as [|a b l r Hab _ IH]; [reflexivity|].
  cbn [map run_all]. rewrite Hab, IH. reflexivity.
Qed.

(** What a loop over a section leaves behind. *)
Lemma update_section_done (d d' : list (pykey * value)) (section : string)
    (body : value -> run value) :
  update_section d section body = Done d' ->
  map fst d' = map fst d /\
  (forall k, k <> Some section -> dict_get d' k = dict_get d k) /\
  ((forall l, dict_get d (Some section) <> Some (PList l)) -> d' = d) /\
  Forall2 (fun a a' => body a = Done a')
          (section_of (PDict d) section) (section_of (PDict d') section).
Proof.
  unfold update_section, section_of.
  destruct (dict_get d (Some section)) as [v|] eqn:Ev.
  - destruct (py_iter v) as [entries| |] eqn:Ei; cbn [run_bind]; try discriminate.
    destruct (run_all (map body entries)) as [entries'| |] eqn:Er; cbn [run_bind];
      try discriminate.
    destruct v as [ |s|n|b|items|elems]; intros [= <-];
      try (rewrite Ev; repeat split; auto; constructor).
    cbn [py_iter] in Ei. injection Ei as <-.
    rewrite dict_get_set_same. repeat split.
    + eapply dict_set_fst, Ev.
    + intros k Hk. apply dict_get_set_other. congruence.
    + intros Hno. now destruct (Hno elems).
    + now apply run_all_Forall2.
  - intros [= <-]. rewrite Ev. repeat split; auto.
Qed.

(** The three loops, one after the other. *)
Lemma update_music_data_done (music_data out : value)
    (album_media artist_media : list (value * value)) :
  update_music_data music_data album_media artist_media = Done out ->
  exists d d1 d2 d3,
    music_data = PDict d /\ out = PDict d3 /\
    update_section d "albums" (set_media "coverImage" album_media) = Done d1 /\
    update_section d1 "artists" (set_media "image" artist_media) = Done d2 /\
    update_section d2 "tracks" (set_album_cover album_media) = Done d3.
Proof.
  unfold update_music_data. destruct music_data as [ | | | |d| ]; try discriminate.
  destruct (update_section d "albums" _) as [d1| |] eqn:E1; cbn [run_bind];
    try discriminate.
  destruct (update_section d1 "artists" _) as [d2| |] eqn:E2; cbn [run_bind];
    try discriminate.
  destruct (update_section d2 "tracks" _) as [d3| |] eqn:E3; cbn [run_bind];
    try discriminate.
  intros [= <-]. now exists d, d1, d2, d3.
Qed.

(** The sections of the result, each in terms of the section it was. *)
Lemma update_music_data_sections (music_data out : value)
    (album_media artist_media : list (value * value)) :
  update_music_data music_data album_media artist_media = Done out ->
  Forall2 (fun a a' => set_media "coverImage" album_media a = Done a')
          (section_of music_data "albums") (section_of out "albums") /\
  Forall2 (fun a a' => set_media "image" artist_media a = Done a')
          (section_of music_data "artists") (section_of out "artists") /\
  Forall2 (fun a a' => set_album_cover album_media a = Done a')
          (section_of music_data "tracks") (section_of out "tracks").
Proof.
  intros H. apply update_music_data_done in H
    as (d & d1 & d2 & d3 & -> & -> & H1 & H2 & H3).
  apply update_section_done in H1 as (_ & F1 & _ & A1).
  apply update_section_done in H2 as (_ & F2 & _ & A2).
  apply update_section_done in H3 as (_ & F3 & _ & A3).
  unfold section_of in *.
  rewrite (F3 (Some "albums")), (F2 (Some "albums")) by discriminate.
  rewrite (F3 (Some "artists")) by discriminate.
  rewrite <- (F1 (Some "artists")) by discriminate.
  rewrite <- (F1 (Some "tracks")), <- (F2 (Some "tracks")) by discriminate.
  auto.
Qed.

(** The two loop bodies, when they end well. *)
Lemma set_media_done (field : string) (media : list (value * value)) (a a' : value) :
  set_media field media a = Done a' ->
  exists d name,
    a = PDict d /\ dict_get d (Some "name") = Some name /\ hashable name = true /\
    a' = match media_get media name with
         | Some path => PDict (dict_set d (Some field) path)
         | None => a
         end.
Proof.
  unfold set_media. destruct a as [ | | | |d| ]; try discriminate.
  unfold py_item, py_in, media_item.
  destruct (dict_get d (Some "name")) as [name|] eqn:En; cbn [run_bind];
    try discriminate.
  destruct (hashable name) eqn:Eh; cbn [run_bind]; try discriminate.
  destruct (media_get media name) as [path|] eqn:Em; cbn [run_bind];
    intros [= <-]; exists d, name; rewrite ?Em; auto.
Qed.

Lemma set_album_cover_done (media : list (value * value)) (t t' : value) :
  set_album_cover media t = Done t' ->
  exists d,
    t = PDict d /\
    (py_truth (album_of t) = true -> hashable (album_of t) = true) /\
    t' = if py_truth (album_of t)
         then match media_get media (album_of t) with
              | Some path => PDict (dict_set d (Some "albumCover") path)
              | None => t
              end
         else t.
Proof.
  unfold set_album_cover. destruct t as [ | | | |d| ]; try discriminate.
  cbn [py_get run_bind album_of]. unfold py_in, media_item.
  destruct (py_truth (get_default d "album" PNone)) eqn:Et.
  - destruct (hashable (get_default d "album" PNone)) eqn:Eh; cbn [run_bind];
      try discriminate.
    destruct (media_get media (get_default d "album" PNone)) as [path|] eqn:Em;
      cbn [run_bind]; intros [= <-]; exists d; auto.
  - intros [= <-]. exists d. repeat split; auto. discriminate.
Qed.

Lemma set_media_named (field : string) (media : list (value * value)) (a : value) :
  (exists a', set_media field media a = Done a') <-> named a.
Proof.
  split.
  - intros [a' H]. apply set_media_done in H as (d & name & -> & Hn & Hh & _).
    now exists d, name.
  - intros (d & name & -> & Hn & Hh). unfold set_media, py_item, py_in, media_item.
    rewrite Hn. cbn [run_bind]. rewrite Hh. cbn [run_bind].
    destruct (media_get media name); cbn [run_bind]; eexists; reflexivity.
Qed.

Lemma set_album_cover_filed (media : list (value * value)) (t : value) :
  (exists t', set_album_cover media t = Done t') <-> filed t.
Proof.
  split.
  - intros [t' H]. apply set_album_cover_done in H as (d & -> & Hh & _).
    now exists d.
  - intros (d & -> & Hh). unfold set_album_cover, py_in, media_item.
    cbn [py_get run_bind album_of] in *.
    destruct (py_truth (get_default d "album" PNone)); [|eexists; reflexivity].
    rewrite Hh by reflexivity. cbn [run_bind].
    destruct (media_get media _); cbn [run_bind]; eexists; reflexivity.
Qed.

Lemma same_but_refl (field : string) (d : list (pykey * value)) :
  same_but field (PDict d) (PDict d).
Proof. exists d, d. auto. Qed.

Lemma same_but_set (field : string) (d : list (pykey * value)) (v : value) :
  same_but field (PDict d) (PDict (dict_set d (Some field) v)).
Proof.
  exists d, (dict_set d (Some field) v). repeat split.
  intros k Hk. apply dict_get_set_other. congruence.
Qed.

Lemma set_media_same_but (field : string) (media : list (value * value)) (a a' : value) :
  set_media field media a = Done a' -> same_but field a a'.
Proof.
  intros H. apply set_media_done in H as (d & name & -> & _ & _ & ->).
  destruct (media_get media name); [apply same_but_set | apply same_but_refl].
Qed.

Lemma set_album_cover_same_but (media : list (value * value)) (t t' : value) :
  set_album_cover media t = Done t' -> same_but "albumCover" t t'.
Proof.
  intros H. apply set_album_cover_done in H as (d & -> & _ & ->).
  destruct (py_truth _); [|apply same_but_refl].
  destruct (media_get media _); [apply same_but_set | apply same_but_refl].
Qed.

Lemma update_section_frame (d d' : list (pykey * value)) (section : string)
    (body : value -> run value) (k : pykey) :
  update_section d section body = Done d' ->
  (k = Some section -> forall l, dict_get d k <> Some (PList l)) ->
  dict_get d' k = dict_get d k.
Proof.
  intros H Hk. apply update_section_done in H as (_ & F & Hsame & _).
  destruct (key_eqb k (Some section)) eqn:E.
  - apply key_eqb_eq in E. subst k. now rewrite Hsame by auto.
  - apply key_eqb_neq in E. now apply F.
Qed.

(** X19. [update_music_data] keeps the document apart from three fields:
    the result has the keys of the document in their order, holds what
    the document held under every key but for the lists under
    ['albums'], ['artists'] and ['tracks'], and these lists keep their
    entries in place, an album entry the same but for ['coverImage'], an
    artist entry but for ['image'], a track but for ['albumCover']. So the
    tracks listed inside an album entry get no cover. *)
Theorem update_keeps_the_rest (music_data out : value)
    (album_media artist_media : list (value * value)) :
  update_music_data music_data album_media artist_media = Done out ->
  exists d d',
    music_data = PDict d /\ out = PDict d' /\
    map fst d' = map fst d /\
    (forall k, (In k sections -> forall l, dict_get d k <> Some (PList l)) ->
               dict_get d' k = dict_get d k) /\
    Forall2 (same_but "coverImage")
            (section_of music_data "albums") (section_of out "albums") /\
    Forall2 (same_but "image")
            (section_of music_data "artists") (section_of out "artists") /\
    Forall2 (same_but "albumCover")
            (section_of music_data "tracks") (section_of out "tracks").
Proof.
  intros H. pose proof (update_music_data_sections _ _ _ _ H) as (A1 & A2 & A3).
  apply update_music_data_done in H as (d & d1 & d2 & d3 & -> & -> & H1 & H2 & H3).
  exists d, d3. repeat split.
  - apply update_section_done in H1 as (K1 & _), H2 as (K2 & _), H3 as (K3 & _).
    congruence.
  - intros k Hk.
    assert (E1 : dict_get d1 k = dict_get d k).
    { apply (update_section_frame _ _ _ _ _ H1). intros ->. apply Hk.
      unfold sections. simpl. auto. }
    assert (E2 : dict_get d2 k = dict_get d1 k).
    { apply (update_section_frame _ _ _ _ _ H2). intros ->. rewrite E1. apply Hk.
      unfold sections. simpl. auto. }
    rewrite <- E1, <- E2. apply (update_section_frame _ _ _ _ _ H3).
    intros ->. rewrite E2, E1. apply Hk. unfold sections. simpl. auto.
  - eapply Forall2_impl; [|exact A1]. intros a a'. apply set_media_same_but.
  - eapply Forall2_impl; [|exact A2]. intros a a'. apply set_media_same_but.
  - eapply Forall2_impl; [|exact A3]. intros a a'. apply set_album_cover_same_but.
Qed.

Lemma update_keeps_the_rest_witness :
  exists d d',
    sample_document = PDict d /\
    map fst d' = map fst d /\
    dict_get d' (Some "genres") = dict_get d (Some "genres") /\
    Forall2 (same_but "coverImage")
            (section_of sample_document "albums") (section_of (PDict d') "albums").
Proof.
  destruct (update_keeps_the_rest sample_document
              (match update_music_data sample_document sample_album_media
                       sample_artist_media with Done out => out | _ => PNone end)
              sample_album_media sample_artist_media eq_refl)
    as (d & d' & Hd & Hout & Hkeys & Hrest & Ha & _).
  exists d, d'. injection Hd as <-. rewrite Hout in Ha. repeat split; auto.
  apply Hrest. intros [E|[E|[E|[]]]]; discriminate.
Defined.

Lemma entry_name_set (d : list (pykey * value)) (field : string) (v : value) :
  field <> "name" ->
  entry_name (PDict (dict_set d (Some field) v)) = entry_name (PDict d).
Proof.
  intros Hne. unfold entry_name, get_default.
  rewrite dict_get_set_other; [reflexivity | congruence].
Qed.

Lemma set_media_written (field : string) (media : list (value * value)) (a a' : value) :
  field <> "name" ->
  set_media field media a = Done a' ->
  hashable (entry_name a) = true /\
  entry_name a' = entry_name a /\
  match path_for media a with
  | Some path => field_of a' field = Some path
  | None => a' = a
  end.
Proof.
  intros Hne H. apply set_media_done in H as (d & name & -> & Hn & Hh & ->).
  unfold path_for. replace (entry_name (PDict d)) with name
    by (unfold entry_name, get_default; now rewrite Hn).
  destruct (media_get media name) as [path|].
  - rewrite entry_name_set by assumption.
    replace (entry_name (PDict d)) with name
      by (unfold entry_name, get_default; now rewrite Hn).
    repeat split; auto. cbn [field_of]. apply dict_get_set_same.
  - replace (entry_name (PDict d)) with name
      by (unfold entry_name, get_default; now rewrite Hn).
    auto.
Qed.

(** X20. After [update_music_data], an album entry whose name is a key of
    [album_media] holds under ['coverImage'] the path [album_media] has
    for the name, and an album entry whose name is no key of it is what
    it was; no entry changes its name. The same holds of the artist
    entries, [artist_media] and ['image']. *)
Theorem covers_written (music_data out : value)
    (album_media artist_media : list (value * value)) :
  update_music_data music_data album_media artist_media = Done out ->
  Forall2 (fun a a' =>
             entry_name a' = entry_name a /\
             match path_for album_media a with
             | Some path => field_of a' "coverImage" = Some path
             | None => a' = a
             end)
          (section_of music_data "albums") (section_of out "albums") /\
  Forall2 (fun a a' =>
             entry_name a' = entry_name a /\
             match path_for artist_media a with
             | Some path => field_of a' "image" = Some path
             | None => a' = a
             end)
          (section_of music_data "artists") (section_of out "artists").
Proof.
  intros H. apply update_music_data_sections in H as (A1 & A2 & _). split.
  - eapply Forall2_impl; [|exact A1]. intros a a' Ha.
    now apply set_media_written in Ha.
  - eapply Forall2_impl; [|exact A2]. intros a a' Ha.
    now apply set_media_written in Ha.
Qed.

Lemma covers_written_witness :
  Forall2 (fun a a' =>
             entry_name a' = entry_name a /\
             match path_for sample_album_media a with
             | Some path => field_of a' "coverImage" = Some path
             | None => a' = a
             end)
          (section_of sample_document "albums")
          (section_of (match update_music_data sample_document sample_album_media
                               sample_artist_media with Done out => out | _ => PNone end)
                      "albums").
Proof.
  exact (proj1 (covers_written sample_document _ sample_album_media
                  sample_artist_media eq_refl)).
Defined.

Lemma album_of_set (d : list (pykey * value)) (v : value) :
  album_of (PDict (dict_set d (Some "albumCover") v)) = album_of (PDict d).
Proof.
  unfold album_of, get_default. rewrite dict_get_set_other; [reflexivity | discriminate].
Qed.

Lemma set_album_cover_written (media : list (value * value)) (t t' : value) :
  set_album_cover media t = Done t' ->
  album_of t' = album_of t /\
  (py_truth (album_of t) = true -> hashable (album_of t) = true) /\
  (py_truth (album_of t) = false -> t' = t) /\
  (py_truth (album_of t) = true ->
   match media_get media (album_of t) with
   | Some path => field_of t' "albumCover" = Some path
   | None => t' = t
   end).
Proof.
  intros H. apply set_album_cover_done in H as (d & -> & Hh & ->).
  destruct (py_truth (album_of (PDict d))) eqn:Et.
  - destruct (media_get media (album_of (PDict d))) as [path|] eqn:Em.
    + rewrite album_of_set. repeat split; auto; try discriminate.
      intros _. cbn [field_of]. apply dict_get_set_same.
    + repeat split; auto.
  - repeat split; auto. discriminate.
Qed.

(** X21. After [update_music_data], a track whose album name counts as
    true and is a key of [album_media] holds under ['albumCover'] the
    path [album_media] has for it. Every other track is what it was: a
    track of an album unknown to [album_media], and also a track without
    an album or with the empty string, [0], [False] or [None] as album,
    whatever [album_media] holds for that name. *)
Theorem track_covers_written (music_data out : value)
    (album_media artist_media : list (value * value)) :
  update_music_data music_data album_media artist_media = Done out ->
  Forall2 (fun t t' =>
             album_of t' = album_of t /\
             (py_truth (album_of t) = false -> t' = t) /\
             (py_truth (album_of t) = true ->
              match media_get album_media (album_of t) with
              | Some path => field_of t' "albumCover" = Some path
              | None => t' = t
              end))
          (section_of music_data "tracks") (section_of out "tracks").
Proof.
  intros H. apply update_music_data_sections in H as (_ & _ & A3).
  eapply Forall2_impl; [|exact A3]. intros t t' Ht.
  apply set_album_cover_written in Ht as (Ha & _ & Hf & Ht). auto.
Qed.

Lemma track_covers_written_witness :
  Forall2 (fun t t' =>
             album_of t' = album_of t /\
             (py_truth (album_of t) = false -> t' = t) /\
             (py_truth (album_of t) = true ->
              match media_get sample_album_media (album_of t) with
              | Some path => field_of t' "albumCover" = Some path
              | None => t' = t
              end))
          (section_of sample_document "tracks")
          (section_of (match update_music_data sample_document sample_album_media
                               sample_artist_media with Done out => out | _ => PNone end)
                      "tracks").
Proof.
  exact (track_covers_written sample_document _ sample_album_media
           sample_artist_media eq_refl).
Defined.

Lemma key_equal_right (k a b : value) :
  key_equal a b = true -> key_equal k a = key_equal k b.
Proof.
  destruct a as [ |s|m|x| | ], b as [ |t|n|y| | ]; simpl; try discriminate;
    intros H; try (apply String.eqb_eq in H); try (apply Z.eqb_eq in H);
    subst; try reflexivity;
    destruct k; simpl; try reflexivity; now rewrite H.
Qed.

Lemma media_get_key_equal (media : list (value * value)) (a b : value) :
  key_equal a b = true -> media_get media a = media_get media b.
Proof.
  intros H. induction media as [|[k path] media IH]; [reflexivity|].
  simpl. rewrite (key_equal_right k a b H). now rewrite IH.
Qed.

Lemma Forall2_In_r {A B : Type} (R : A -> B -> Prop) (l : list A) (l' : list B) (b : B) :
  Forall2 R l l' -> In b l' -> exists a, In a l /\ R a b.
Proof.
  induction 1 as [|x y l l' Hxy _ IH]; [contradiction|].
  intros [<-|Hin].
  - exists x. split; [now left | assumption].
  - destruct (IH Hin) as (a & Ha & Hr). exists a. split; [now right | assumption].
Qed.

(** X22. After [update_music_data], a track and an album entry go
    together: when the album name of the track counts as true, is equal
    to the name of the album entry and is a key of [album_media], the
    track holds under ['albumCover'] what the entry holds under
    ['coverImage']. *)
Theorem track_cover_is_album_cover (music_data out : value)
    (album_media artist_media : list (value * value)) (t a : value) :
  update_music_data music_data album_media artist_media = Done out ->
  In t (section_of out "tracks") ->
  In a (section_of out "albums") ->
  py_truth (album_of t) = true ->
  key_equal (entry_name a) (album_of t) = true ->
  path_for album_media a <> None ->
  field_of t "albumCover" = field_of a "coverImage".
Proof.
  intros H Ht Ha Htrue Heq Hin.
  apply update_music_data_sections in H as (A1 & _ & A3).
  destruct (Forall2_In_r _ _ _ _ A1 Ha) as (a0 & _ & Hsa).
  apply set_media_written in Hsa as (_ & Hn & Hp); [|discriminate].
  destruct (Forall2_In_r _ _ _ _ A3 Ht) as (t0 & _ & Hst).
  apply set_album_cover_written in Hst as (Hal & _ & _ & Hc).
  rewrite Hal in Htrue. specialize (Hc Htrue).
  unfold path_for in *. rewrite <- Hn in Hp.
  rewrite (media_get_key_equal _ _ _ Heq), Hal in Hp, Hin.
  destruct (media_get album_media (album_of t0)) as [path|]; [congruence|].
  now destruct Hin.
Qed.

Lemma track_cover_is_album_cover_witness :
  field_of (PDict [ (Some "name", PStr "So What"); (Some "album", PStr "Kind of Blue");
                    (Some "albumCover", PStr "/media/albums/kind-of-blue.png") ])
           "albumCover"
  = Some (PStr "/media/albums/kind-of-blue.png").
Proof.
  refine (eq_trans
    (track_cover_is_album_cover sample_document _ sample_album_media
       sample_artist_media
       (PDict [ (Some "name", PStr "So What"); (Some "album", PStr "Kind of Blue");
                (Some "albumCover", PStr "/media/albums/kind-of-blue.png") ])
       (PDict [ (Some "name", PStr "Kind of Blue"); (Some "slug", PStr "kind-of-blue");
                (Some "tracks",
                 PList [ PDict [ (Some "name", PStr "So What");
                                 (Some "album", PStr "Kind of Blue") ] ]);
                (Some "coverImage", PStr "/media/albums/kind-of-blue.png") ])
       eq_refl _ _ eq_refl eq_refl _) eq_refl).
  - simpl. auto.
  - simpl. auto.
  - discriminate.
Defined.

Lemma set_media_again (field : string) (media : list (value * value)) (a a' : value) :
  field <> "name" ->
  set_media field media a = Done a' -> set_media field media a' = Done a'.
Proof.
  intros Hne H. apply set_media_done in H as (d & name & -> & Hn & Hh & ->).
  destruct (media_get media name) as [path|] eqn:Em.
  - unfold set_media, py_item, py_in, media_item.
    rewrite dict_get_set_other by congruence. rewrite Hn. cbn [run_bind].
    rewrite Hh, Em. cbn [run_bind]. now rewrite dict_set_set.
  - unfold set_media, py_item, py_in, media_item. rewrite Hn. cbn [run_bind].
    rewrite Hh, Em. reflexivity.
Qed.

Lemma set_album_cover_again (media : list (value * value)) (t t' : value) :
  set_album_cover media t = Done t' -> set_album_cover media t' = Done t'.
Proof.
  intros H. pose proof H as H0.
  apply set_album_cover_done in H as (d & -> & Hh & ->).
  destruct (py_truth (album_of (PDict d))) eqn:Et; [|exact H0].
  destruct (media_get media (album_of (PDict d))) as [path|] eqn:Em; [|exact H0].
  clear H0. unfold set_album_cover. cbn [py_get run_bind].
  change (get_default (dict_set d (Some "albumCover") path) "album" PNone)
    with (album_of (PDict (dict_set d (Some "albumCover") path))).
  rewrite album_of_set, Et. unfold py_in, media_item.
  rewrite Hh by reflexivity. rewrite Em. cbn [run_bind]. now rewrite dict_set_set.
Qed.

Lemma Forall2_again {A : Type} (f : A -> run A) (l l' : list A) :
  (forall a a', f a = Done a' -> f a' = Done a') ->
  Forall2 (fun a a' => f a = Done a') l l' ->
  Forall2 (fun a a' => f a = Done a') l' l'.
Proof.
  intros Hf. induction 1 as [|a a' l l' Ha _ IH]; constructor; eauto.
Qed.

(** A second loop over a section changes nothing. *)
Lemma update_section_again (d d' : list (pykey * value)) (section : string)
    (body : value -> run value) :
  (forall a a', body a = Done a' -> body a' = Done a') ->
  update_section d section body = Done d' ->
  update_section d' section body = Done d'.
Proof.
  intros Hb H. pose proof H as H0. unfold update_section in H.
  destruct (dict_get d (Some section)) as [v|] eqn:Ev; [|now injection H as <-].
  destruct (py_iter v) as [entries| |] eqn:Ei; cbn [run_bind] in H; try discriminate.
  destruct (run_all (map body entries)) as [entries'| |] eqn:Er; cbn [run_bind] in H;
    try discriminate.
  destruct v as [ |s|n|b|items|elems]; injection H as <-; try exact H0.
  cbn [py_iter] in Ei. injection Ei as <-.
  unfold update_section. rewrite dict_get_set_same. cbn [py_iter run_bind].
  apply run_all_Forall2 in Er.
  rewrite (run_all_map_done _ _ _ (Forall2_again _ _ _ Hb Er)). cbn [run_bind].
  now rewrite dict_set_set.
Qed.

(** A loop that changed nothing in one document changes nothing in
    another that holds the same under the section. *)
Lemma update_section_fixed (d0 d : list (pykey * value)) (section : string)
    (body : value -> run value) :
  dict_get d (Some section) = dict_get d0 (Some section) ->
  update_section d0 section body = Done d0 ->
  update_section d section body = Done d.
Proof.
  unfold update_section. intros Hd. rewrite Hd.
  destruct (dict_get d0 (Some section)) as [v|] eqn:Ev; [|reflexivity].
  destruct (py_iter v) as [entries| |] eqn:Ei; cbn [run_bind]; try discriminate.
  destruct (run_all (map body entries)) as [entries'| |] eqn:Er; cbn [run_bind];
    try discriminate.
  destruct v as [ |s|n|b|items|elems]; try reflexivity.
  intros [= H]. assert (E : Some (PList entries') = Some (PList elems)).
  { rewrite <- Ev, <- H at 1. symmetry. apply dict_get_set_same. }
  injection E as ->. f_equal. now apply dict_set_get_id.
Qed.

(** X23. [update_music_data] is idempotent: run again on its result with
    the same [album_media] and [artist_media], it returns the result
    unchanged. *)
Theorem update_idempotent (music_data out : value)
    (album_media artist_media : list (value * value)) :
  update_music_data music_data album_media artist_media = Done out ->
  update_music_data out album_media artist_media = Done out.
Proof.
  intros H. apply update_music_data_done in H
    as (d & d1 & d2 & d3 & -> & -> & H1 & H2 & H3).
  assert (N1 : "coverImage" <> "name") by discriminate.
  assert (N2 : "image" <> "name") by discriminate.
  pose proof (update_section_again _ _ _ _ (fun a a' => set_media_again _ _ a a' N1) H1) as R1.
  pose proof (update_section_again _ _ _ _ (fun a a' => set_media_again _ _ a a' N2) H2) as R2.
  pose proof (update_section_again _ _ _ _ (set_album_cover_again _) H3) as R3.
  apply update_section_done in H2 as (_ & F2 & _).
  apply update_section_done in H3 as (_ & F3 & _).
  unfold update_music_data.
  rewrite (update_section_fixed d1 d3 "albums"); [cbn [run_bind]| |exact R1].
  - rewrite (update_section_fixed d2 d3 "artists"); [cbn [run_bind]| |exact R2].
    + now rewrite R3.
    + apply F3. discriminate.
  - rewrite F3, F2 by discriminate. reflexivity.
Qed.

Lemma update_idempotent_witness :
  exists out,
    update_music_data sample_document sample_album_media sample_artist_media = Done out /\
    update_music_data out sample_album_media sample_artist_media = Done out.
Proof.
  eexists. split; [reflexivity|].
  apply (update_idempotent sample_document). reflexivity.
Defined.

Lemma Forall_run_all {A B : Type} (f : A -> run B) (l : list A) :
  Forall (fun a => exists b, f a = Done b) l -> exists r, run_all (map f l) = Done r.
Proof.
  induction 1 as [|a l [b Hb] _ [r IH]]; [now exists []|].
  exists (b :: r). cbn [map run_all]. now rewrite Hb, IH.
Qed.

Lemma run_all_Forall {A B : Type} (f : A -> run B) (l : list A) (r : list B) :
  run_all (map f l) = Done r -> Forall (fun a => exists b, f a = Done b) l.
Proof.
  intros H. apply run_all_Forall2 in H.
  induction H as [|a b l r Hab _ IH]; constructor; eauto.
Qed.

(** A loop over a section ends well exactly when its body does on all it
    visits. *)
Lemma update_section_succeeds (d : list (pykey * value)) (section : string)
    (body : value -> run value) :
  (exists d', update_section d section body = Done d') <->
  visits_only (fun a => exists a', body a = Done a') d section.
Proof.
  unfold update_section, visits_only.
  destruct (dict_get d (Some section)) as [v|]; [|split; eauto].
  split.
  - intros [d' H].
    destruct (py_iter v) as [entries| |]; cbn [run_bind] in H; try discriminate.
    destruct (run_all (map body entries)) as [entries'| |] eqn:Er; cbn [run_bind] in H;
      try discriminate.
    exists entries. split; [reflexivity|]. eapply run_all_Forall, Er.
  - intros (l & -> & Hl). cbn [run_bind].
    destruct (Forall_run_all _ _ Hl) as [r ->]. cbn [run_bind].
    destruct v; eexists; reflexivity.
Qed.

Lemma visits_only_iff (P Q : value -> Prop) (d d0 : list (pykey * value)) (k : string) :
  (forall a, P a <-> Q a) ->
  dict_get d (Some k) = dict_get d0 (Some k) ->
  visits_only P d k <-> visits_only Q d0 k.
Proof.
  intros HPQ Hd. unfold visits_only. rewrite Hd.
  destruct (dict_get d0 (Some k)) as [v|]; [|tauto].
  split; intros (l & Hl & Hall); exists l; (split; [assumption|]);
    eapply Forall_impl; try exact Hall; intros a; apply HPQ.
Qed.

(** X24. [update_music_data] returns a document exactly when it is given
    a dict in which the loops over ['albums'] and over ['artists'] visit
    only dicts with a name that can be hashed, and the loop over
    ['tracks'] only dicts whose album, when it counts as true, can be
    hashed. A missing section is an empty loop. *)
Theorem update_succeeds_iff (music_data : value)
    (album_media artist_media : list (value * value)) :
  (exists out, update_music_data music_data album_media artist_media = Done out) <->
  exists d, music_data = PDict d /\
            visits_only named d "albums" /\
            visits_only named d "artists" /\
            visits_only filed d "tracks".
Proof.
  split.
  - intros [out H]. apply update_music_data_done in H
      as (d & d1 & d2 & d3 & -> & -> & H1 & H2 & H3).
    exists d.
    assert (S1 : exists d', update_section d "albums"
                   (set_media "coverImage" album_media) = Done d') by eauto.
    assert (S2 : exists d', update_section d1 "artists"
                   (set_media "image" artist_media) = Done d') by eauto.
    assert (S3 : exists d', update_section d2 "tracks"
                   (set_album_cover album_media) = Done d') by eauto.
    apply update_section_succeeds in S1, S2, S3.
    apply update_section_done in H1 as (_ & F1 & _).
    apply update_section_done in H2 as (_ & F2 & _).
    repeat split.
    + eapply visits_only_iff; [| |exact S1]; [|reflexivity].
      intros a. symmetry. apply set_media_named.
    + eapply visits_only_iff; [| |exact S2].
      * intros a. symmetry. apply set_media_named.
      * symmetry. apply F1. discriminate.
    + eapply visits_only_iff; [| |exact S3].
      * intros a. symmetry. apply set_album_cover_filed.
      * rewrite F2, F1 by discriminate. reflexivity.
  - intros (d & -> & V1 & V2 & V3). unfold update_music_data.
    assert (S1 : exists d1, update_section d "albums"
                   (set_media "coverImage" album_media) = Done d1).
    { apply update_section_succeeds. eapply visits_only_iff; [| |exact V1];
        [|reflexivity]. intros a. apply set_media_named. }
    destruct S1 as [d1 H1]. rewrite H1. cbn [run_bind].
    pose proof (update_section_done _ _ _ _ H1) as (_ & F1 & _).
    assert (S2 : exists d2, update_section d1 "artists"
                   (set_media "image" artist_media) = Done d2).
    { apply update_section_succeeds. eapply visits_only_iff; [| |exact V2].
      - intros a. apply set_media_named.
      - apply F1. discriminate. }
    destruct S2 as [d2 H2]. rewrite H2. cbn [run_bind].
    pose proof (update_section_done _ _ _ _ H2) as (_ & F2 & _).
    assert (S3 : exists d3, update_section d2 "tracks"
                   (set_album_cover album_media) = Done d3).
    { apply update_section_succeeds. eapply visits_only_iff; [| |exact V3].
      - intros a. apply set_album_cover_filed.
      - rewrite F2, F1 by discriminate. reflexivity. }
    destruct S3 as [d3 H3]. rewrite H3. cbn [run_bind]. eauto.
Qed.
